(** * Command interpretation engine of the voice assistant

    A shallow embedding of [chap 1/main.py]: the spoken-operator
    normaliser, the safe arithmetic evaluator ([safe_eval]), the command
    handler ([handle_user_command]) and the wake-word loop ([main]).

    Modelling conventions.
    - A Python [str] is a list of characters; a character is a code point
      below 256 (an [ascii]), classified as CPython classifies it
      ([str.isspace], [str.isdigit], [str.lower]).
    - The sentences the program speaks or prints are kept as constructors
      of [message], one per literal or f-string of the source, with the
      interpolated values as arguments.
    - Microphone, Wikipedia, DuckDuckGo and the browser are collaborators:
      what is heard is an input of the loop, the two lookups are
      functions given to the handler, opening a page is an event.
    - [ast.parse] is described on the nineteen characters that the
      handler lets through to [safe_eval]; [int] arithmetic is exact,
      [float] arithmetic is IEEE 754 binary64 ([SpecFloat]); what rests
      on the C library ([pow] and [fmod] on floats) or on other
      characters is [Unmodelled].
    - Interpreter resource limits (recursion depth, nesting depth of
      parentheses, digit limit of int/str conversion, memory) are not
      modelled; [ast.Num] is taken to exist (Python 3.8 to 3.13). *)

From Stdlib Require Import List Bool Ascii String NArith ZArith Lia.
From Stdlib Require Import SpecFloat.
From Stdlib Require DecimalString DecimalFacts DecimalPos.
From Stdlib Require Import QArith Qround Qreduction Qpower Qcanon.
Close Scope Qc_scope.
Close Scope Q_scope.
Import ListNotations.

Set Implicit Arguments.

(** ** Python strings *)

Module PyStr.

Definition str := list ascii.

(** A string literal of the source. *)
Definition lit (s : string) : str := list_ascii_of_string s.

Definition code (c : ascii) : N := N_of_ascii c.

Definition chr_eqb (a b : ascii) : bool := Ascii.eqb a b.

Fixpoint str_eqb (a b : str) : bool :=
  match a, b with
  | [], [] => true
  | x :: a', y :: b' => chr_eqb x y && str_eqb a' b'
  | _, _ => false
  end.

(** [ch.isspace()] on code points below 256. *)
Definition isspace (c : ascii) : bool :=
  let n := code c in
  ((9 <=? n) && (n <=? 13) || (28 <=? n) && (n <=? 32)
   || (n =? 133) || (n =? 160))%N.

(** [ch.isdigit()] on code points below 256: the ASCII digits and the
    superscripts one, two and three. *)
Definition isdigit (c : ascii) : bool :=
  let n := code c in
  ((48 <=? n) && (n <=? 57) || (n =? 178) || (n =? 179) || (n =? 185))%N.

(** [ch.lower()] on code points below 256. *)
Definition lower_chr (c : ascii) : ascii :=
  let n := code c in
  if ((65 <=? n) && (n <=? 90)
      || (192 <=? n) && (n <=? 222) && negb (n =? 215))%N
  then ascii_of_N (n + 32) else c.

Definition lower (s : str) : str := map lower_chr s.

(** [s.startswith(p)] *)
Fixpoint startswith (p s : str) : bool :=
  match p, s with
  | [], _ => true
  | _ :: _, [] => false
  | a :: p', b :: s' => chr_eqb a b && startswith p' s'
  end.

(** [sub in s] *)
Fixpoint contains (sub s : str) : bool :=
  startswith sub s ||
  match s with
  | [] => false
  | _ :: s' => contains sub s'
  end.

(** [ch in set(chars)] *)
Definition mem (c : ascii) (chars : str) : bool := existsb (chr_eqb c) chars.

(** [s[n:]] *)
Definition drop (n : nat) (s : str) : str := skipn n s.

Fixpoint lstrip (s : str) : str :=
  match s with
  | [] => []
  | c :: s' => if isspace c then lstrip s' else s
  end.

Fixpoint rstrip (s : str) : str :=
  match s with
  | [] => []
  | c :: s' =>
      match rstrip s' with
      | [] => if isspace c then [] else [c]
      | r => c :: r
      end
  end.

(** [s.strip()] *)
Definition strip (s : str) : str := rstrip (lstrip s).

(** [s.split()]: the maximal runs of characters that are not white space.
    [word] holds the current run, last character first. *)
Fixpoint split_go (word : str) (s : str) : list str :=
  match s with
  | [] => match word with [] => [] | _ => [rev word] end
  | c :: s' =>
      if isspace c
      then match word with
           | [] => split_go [] s'
           | _ => rev word :: split_go [] s'
           end
      else split_go (c :: word) s'
  end.

Definition split (s : str) : list str := split_go [] s.

(** [s.split(sep, 1)] for a separator that is not empty: the text before
    the first occurrence and the text after it, or the text alone. *)
Fixpoint split1_go (sep before s : str) : list str :=
  if startswith sep s then [rev before; drop (List.length sep) s]
  else match s with
       | [] => [rev before]
       | c :: s' => split1_go sep (c :: before) s'
       end.

Definition split1 (sep s : str) : list str := split1_go sep [] s.

(** [s.replace(old, new)]: occurrences are found from the left and do not
    overlap. [skip] counts the characters of a matched occurrence that
    are still to be passed over. *)
Fixpoint replace_go (old new : str) (skip : nat) (s : str) : str :=
  match s with
  | [] => []
  | c :: s' =>
      match skip with
      | S k => replace_go old new k s'
      | O =>
          if startswith old s
          then new ++ replace_go old new (List.length old - 1) s'
          else c :: replace_go old new 0 s'
      end
  end.

Definition replace (old new s : str) : str :=
  match old with
  | [] => new ++ flat_map (fun c => c :: new) s
  | _ => replace_go old new 0 s
  end.

End PyStr.

Import PyStr.

(** ** Outcomes of Python code *)

(** The messages of the [ValueError]s that [safe_eval] raises itself. *)
Inductive value_error :=
| EmptyExpression          (* "Empty expression" *)
| InvalidSyntax            (* "Invalid expression syntax" *)
| OnlyNumericConstants     (* "Only numeric constants are allowed" *)
| OperatorNotAllowed       (* "Operator not allowed" *)
| UnaryOperatorNotAllowed  (* "Unary operator not allowed" *)
| DisallowedElements.      (* "Expression contains disallowed elements" *)

(** The exceptions that can leave [safe_eval]. *)
Inductive exn :=
| ValueError (m : value_error)
| ZeroDivisionError
| OverflowError
| TypeError.

(** What a call does: it returns, it raises, or it leaves the part of
    Python that this development describes ([Unmodelled]: the result
    depends on the C library's [pow] or [fmod], or the text holds a
    character that the tokenizer below does not know). *)
Inductive outcome (A : Type) :=
| Returns (a : A)
| Raises (e : exn)
| Unmodelled.

Arguments Returns {A} a.
Arguments Raises {A} e.
Arguments Unmodelled {A}.

Definition bind {A B} (x : outcome A) (k : A -> outcome B) : outcome B :=
  match x with
  | Returns a => k a
  | Raises e => Raises e
  | Unmodelled => Unmodelled
  end.

Notation "x <- a ;; k" := (bind a (fun x => k))
  (at level 61, a at next level, right associativity).

(** ** Python numbers: [int] and [float] *)

Module PyNum.

(** IEEE 754 binary64, as CPython's [float]. *)
Definition prec : Z := 53.
Definition emax : Z := 1024.

Inductive value :=
| VInt (z : Z)
| VFloat (f : spec_float).

(** The quotient [n / d] of two integers, [0 < d], rounded to the nearest
    float, ties to even: the quotient is cut after at least 64 bits and a
    last bit records whether anything was cut off. *)
Definition round_ratio (n d : Z) : spec_float :=
  if (n =? 0)%Z then S754_zero false
  else
    let a := Z.abs n in
    let s := Z.max 0 (64 + Z.log2 d - Z.log2 a) in
    let q := (a * 2 ^ s / d)%Z in
    let sticky := if (a * 2 ^ s mod d =? 0)%Z then 0%Z else 1%Z in
    let m := (2 * q + sticky)%Z in
    binary_normalize prec emax (if (n <? 0)%Z then (- m)%Z else m) (- s - 1) false.

Definition is_infinite (f : spec_float) : bool :=
  match f with S754_infinity _ => true | _ => false end.

Definition is_zero (f : spec_float) : bool :=
  match f with S754_zero _ => true | _ => false end.

(** [float(z)]: "int too large to convert to float" beyond the range. *)
Definition float_of_int (z : Z) : outcome spec_float :=
  let f := binary_normalize prec emax z 0 false in
  if is_infinite f then Raises OverflowError else Returns f.

Definition to_float (v : value) : outcome spec_float :=
  match v with
  | VInt z => float_of_int z
  | VFloat f => Returns f
  end.

(** [a / b] on two [int]s: the correctly rounded quotient. *)
Definition int_truediv (a b : Z) : outcome value :=
  if (b =? 0)%Z then Raises ZeroDivisionError
  else
    let f :=
      if (a =? 0)%Z then S754_zero (b <? 0)%Z
      else if (b <? 0)%Z then round_ratio (- a) (- b) else round_ratio a b in
    if is_infinite f then Raises OverflowError else Returns (VFloat f).

(** Operators on a pair of operands of which one at least is a float:
    both are taken to floats first. *)
Definition float_binop (op : spec_float -> spec_float -> outcome value)
    (x y : value) : outcome value :=
  a <- to_float x ;; b <- to_float y ;; op a b.

Definition arith (fz : Z -> Z -> Z)
    (ff : spec_float -> spec_float -> spec_float) (x y : value) : outcome value :=
  match x, y with
  | VInt a, VInt b => Returns (VInt (fz a b))
  | _, _ => float_binop (fun a b => Returns (VFloat (ff a b))) x y
  end.

(** [operator.add], [operator.sub], [operator.mul] *)
Definition op_add := arith Z.add (SFadd prec emax).
Definition op_sub := arith Z.sub (SFsub prec emax).
Definition op_mul := arith Z.mul (SFmul prec emax).

(** [operator.truediv] *)
Definition op_truediv (x y : value) : outcome value :=
  match x, y with
  | VInt a, VInt b => int_truediv a b
  | _, _ =>
      float_binop (fun a b =>
        if is_zero b then Raises ZeroDivisionError
        else Returns (VFloat (SFdiv prec emax a b))) x y
  end.

(** [operator.mod]: on [int]s the remainder has the sign of the divisor;
    on floats only the division by zero is described. *)
Definition op_mod (x y : value) : outcome value :=
  match x, y with
  | VInt a, VInt b =>
      if (b =? 0)%Z then Raises ZeroDivisionError
      else Returns (VInt (a mod b))
  | _, _ =>
      float_binop (fun a b =>
        if is_zero b then Raises ZeroDivisionError else Unmodelled) x y
  end.

(** [operator.pow]: exact on [int]s with an exponent that is not negative;
    every other case goes through the float power, of which only the
    conversions and "0.0 cannot be raised to a negative power" for an
    [int] base are described. *)
Definition op_pow (x y : value) : outcome value :=
  match x, y with
  | VInt a, VInt b =>
      if (0 <=? b)%Z then Returns (VInt (a ^ b))
      else float_binop (fun _ _ =>
             if (a =? 0)%Z then Raises ZeroDivisionError else Unmodelled) x y
  | _, _ => float_binop (fun _ _ => Unmodelled) x y
  end.

(** [operator.neg], [operator.pos] *)
Definition op_neg (x : value) : outcome value :=
  match x with
  | VInt a => Returns (VInt (- a))
  | VFloat f => Returns (VFloat (SFopp f))
  end.

Definition op_pos (x : value) : outcome value := Returns x.

(** The integer that a float is, if it is one ([float.is_integer] and
    [int(value)]). *)
Definition float_integer (f : spec_float) : option Z :=
  match f with
  | S754_zero _ => Some 0%Z
  | S754_finite s m e =>
      let z := if s then Z.neg m else Z.pos m in
      if (0 <=? e)%Z then Some (z * 2 ^ e)%Z
      else if (Z.pos m mod 2 ^ (- e) =? 0)%Z then Some (z / 2 ^ (- e))%Z
      else None
  | _ => None
  end.

End PyNum.

Import PyNum.

(** ** [ast.parse(expr, mode="eval")] on the characters of the gate

    The tokenizer and the expression grammar of Python, restricted to the
    nineteen characters [0123456789+-*/(). %]. Over these characters an
    expression is a number, an ellipsis, a parenthesised expression, an
    empty tuple, a call with at most one argument, or a unary or binary
    operation. *)

Module PyAst.

Inductive constant :=
| CInt (z : Z)
| CFloat (f : spec_float)
| CEllipsis.

(** [ast.operator] and [ast.unaryop], as far as the characters allow. *)
Inductive operator := Add | Sub | Mult | Div | FloorDiv | Mod | Pow.
Inductive unaryop := UAdd | USub.

Inductive expr :=
| Constant (value : constant)
| BinOp (left : expr) (op : operator) (right : expr)
| UnaryOp (op : unaryop) (operand : expr)
| Call (func : expr) (arg : argument)
| Tuple
with argument :=
| NoArgument
| Positional (e : expr)
| Starred (e : expr)
| DoubleStarred (e : expr).

Inductive token :=
| NUMBER (c : constant)
| ELLIPSIS | DOT
| PLUS | MINUS | STAR | DOUBLESTAR | SLASH | DOUBLESLASH | PERCENT
| LPAR | RPAR.

(** *** Tokenizer *)

Definition is_ascii_digit (c : ascii) : bool :=
  ((48 <=? code c) && (code c <=? 57))%N.

Definition digit_value (c : ascii) : Z := Z.of_N (code c) - 48.

(** The number written by decimal digits, first digit first. *)
Definition digits_value (ds : str) : Z :=
  fold_left (fun acc c => (10 * acc + digit_value c)%Z) ds 0%Z.

(** "leading zeros in decimal integer literals are not permitted": a
    literal that starts with [0] holds zeros only. *)
Definition valid_int_literal (ds : str) : bool :=
  match ds with
  | [] => false
  | c :: _ => negb (chr_eqb c "0") || forallb (fun d => chr_eqb d "0") ds
  end.

(** The float written as [ip.fp]. *)
Definition float_literal (ip fp : str) : spec_float :=
  round_ratio (digits_value (ip ++ fp)) (10 ^ Z.of_nat (List.length fp)).

(** What the tokenizer has read of a token that is not finished. Digits
    are kept last digit first. *)
Inductive lex_state :=
| LStart
| LInt (ds : str)
| LFrac (ip fp : str)
| LDot
| LDotDot
| LStar
| LSlash.

(** The tokens of a state at the end of its token; [None] is a
    [SyntaxError]. *)
Definition flush (st : lex_state) : option (list token) :=
  match st with
  | LStart => Some []
  | LInt ds =>
      if valid_int_literal (rev ds)
      then Some [NUMBER (CInt (digits_value (rev ds)))] else None
  | LFrac ip fp => Some [NUMBER (CFloat (float_literal (rev ip) (rev fp)))]
  | LDot => Some [DOT]
  | LDotDot => Some [DOT; DOT]
  | LStar => Some [STAR]
  | LSlash => Some [SLASH]
  end.

Definition emit (ts : option (list token)) (rest : option (list token))
  : option (list token) :=
  match ts, rest with
  | Some a, Some b => Some (a ++ b)
  | _, _ => None
  end.

(** One character: the tokens that it finishes and the state after it;
    [None] for a character that is not one of the nineteen. *)
Definition lex_step (st : lex_state) (c : ascii)
  : option (option (list token) * lex_state) :=
  if is_ascii_digit c then
    match st with
    | LInt ds => Some (Some [], LInt (c :: ds))
    | LFrac ip fp => Some (Some [], LFrac ip (c :: fp))
    | LDot => Some (Some [], LFrac [] [c])
    | LDotDot => Some (Some [DOT], LFrac [] [c])
    | _ => Some (flush st, LInt [c])
    end
  else if chr_eqb c "." then
    match st with
    | LInt ds => Some (Some [], LFrac ds [])
    | LDot => Some (Some [], LDotDot)
    | LDotDot => Some (Some [ELLIPSIS], LStart)
    | _ => Some (flush st, LDot)
    end
  else if chr_eqb c "*" then
    match st with
    | LStar => Some (Some [DOUBLESTAR], LStart)
    | _ => Some (flush st, LStar)
    end
  else if chr_eqb c "/" then
    match st with
    | LSlash => Some (Some [DOUBLESLASH], LStart)
    | _ => Some (flush st, LSlash)
    end
  else if chr_eqb c " " then Some (flush st, LStart)
  else if chr_eqb c "+" then Some (emit (flush st) (Some [PLUS]), LStart)
  else if chr_eqb c "-" then Some (emit (flush st) (Some [MINUS]), LStart)
  else if chr_eqb c "%" then Some (emit (flush st) (Some [PERCENT]), LStart)
  else if chr_eqb c "(" then Some (emit (flush st) (Some [LPAR]), LStart)
  else if chr_eqb c ")" then Some (emit (flush st) (Some [RPAR]), LStart)
  else None.

(** The tokens of a text: [Returns None] is a [SyntaxError] of the
    tokenizer. *)
Fixpoint tokenize_from (st : lex_state) (s : str) : outcome (option (list token)) :=
  match s with
  | [] => Returns (flush st)
  | c :: s' =>
      match lex_step st c with
      | None => Unmodelled
      | Some (ts, st') =>
          rest <- tokenize_from st' s' ;; Returns (emit ts rest)
      end
  end.

Definition tokenize (s : str) : outcome (option (list token)) :=
  tokenize_from LStart s.

(** *** Parser

    The grammar is the one of Python's expressions: [+] and [-] bind
    least and group to the left, then [*], [/], [//] and [%], then the
    unary [+] and [-], then [**], which groups to the right and takes a
    unary operation as its right operand; a call applies to the primary
    before its parenthesis. The parser keeps a stack of pending operators
    and opened parentheses and a stack of finished operands. *)

Inductive star_kind := NoStar | OneStar | TwoStars.

Inductive stack_item :=
| SBin (op : operator)
| SUn (op : unaryop)
| SGroup
| SCall (star : star_kind).

(** What came just before an expected operand. *)
Inductive opening := AfterGroupOpen | AfterCallOpen | AfterOther.

Inductive mode :=
| WantOperand (after : opening)
| WantOperator.

Definition binary_prec (op : operator) : nat :=
  match op with
  | Add | Sub => 1
  | Mult | Div | FloorDiv | Mod => 2
  | Pow => 4
  end.

Definition item_prec (i : stack_item) : option nat :=
  match i with
  | SBin op => Some (binary_prec op)
  | SUn _ => Some 3
  | SGroup | SCall _ => None
  end.

Definition apply_item (i : stack_item) (operands : list expr) : option (list expr) :=
  match i, operands with
  | SBin op, r :: l :: rest => Some (BinOp l op r :: rest)
  | SUn op, e :: rest => Some (UnaryOp op e :: rest)
  | _, _ => None
  end.

(** Builds the operations of the pending operators that bind at least as
    tightly as [p], down to the nearest opened parenthesis. *)
Fixpoint reduce (p : nat) (ops : list stack_item) (operands : list expr)
  : option (list stack_item * list expr) :=
  match ops with
  | [] => Some ([], operands)
  | i :: ops' =>
      match item_prec i with
      | None => Some (ops, operands)
      | Some q =>
          if (p <=? q)%nat
          then match apply_item i operands with
               | Some operands' => reduce p ops' operands'
               | None => None
               end
          else Some (ops, operands)
      end
  end.

Definition parser_state : Type := mode * list stack_item * list expr.

Definition push_binary (op : operator) (ops : list stack_item) (operands : list expr)
  : option parser_state :=
  let p := match op with Pow => 5 | _ => binary_prec op end in
  match reduce p ops operands with
  | Some (ops', operands') => Some (WantOperand AfterOther, SBin op :: ops', operands')
  | None => None
  end.

Definition make_argument (k : star_kind) (e : expr) : argument :=
  match k with
  | NoStar => Positional e
  | OneStar => Starred e
  | TwoStars => DoubleStarred e
  end.

(** One token; [None] is a [SyntaxError]. *)
Definition parse_step (st : parser_state) (t : token) : option parser_state :=
  match st with
  | (WantOperand after, ops, operands) =>
      match t with
      | NUMBER c => Some (WantOperator, ops, Constant c :: operands)
      | ELLIPSIS => Some (WantOperator, ops, Constant CEllipsis :: operands)
      | PLUS => Some (WantOperand AfterOther, SUn UAdd :: ops, operands)
      | MINUS => Some (WantOperand AfterOther, SUn USub :: ops, operands)
      | LPAR => Some (WantOperand AfterGroupOpen, SGroup :: ops, operands)
      | RPAR =>
          match after, ops, operands with
          | AfterGroupOpen, SGroup :: ops', _ =>
              Some (WantOperator, ops', Tuple :: operands)
          | AfterCallOpen, SCall NoStar :: ops', f :: rest =>
              Some (WantOperator, ops', Call f NoArgument :: rest)
          | _, _, _ => None
          end
      | STAR =>
          match after, ops with
          | AfterCallOpen, SCall NoStar :: ops' =>
              Some (WantOperand AfterOther, SCall OneStar :: ops', operands)
          | _, _ => None
          end
      | DOUBLESTAR =>
          match after, ops with
          | AfterCallOpen, SCall NoStar :: ops' =>
              Some (WantOperand AfterOther, SCall TwoStars :: ops', operands)
          | _, _ => None
          end
      | _ => None
      end
  | (WantOperator, ops, operands) =>
      match t with
      | PLUS => push_binary Add ops operands
      | MINUS => push_binary Sub ops operands
      | STAR => push_binary Mult ops operands
      | SLASH => push_binary Div ops operands
      | DOUBLESLASH => push_binary FloorDiv ops operands
      | PERCENT => push_binary Mod ops operands
      | DOUBLESTAR => push_binary Pow ops operands
      | LPAR => Some (WantOperand AfterCallOpen, SCall NoStar :: ops, operands)
      | RPAR =>
          match reduce 0 ops operands with
          | Some (SGroup :: ops', operands') => Some (WantOperator, ops', operands')
          | Some (SCall k :: ops', a :: f :: rest) =>
              Some (WantOperator, ops', Call f (make_argument k a) :: rest)
          | _ => None
          end
      | _ => None
      end
  end.

Fixpoint parse_tokens (st : parser_state) (ts : list token) : option expr :=
  match ts with
  | t :: ts' =>
      match parse_step st t with
      | Some st' => parse_tokens st' ts'
      | None => None
      end
  | [] =>
      match st with
      | (WantOperator, ops, operands) =>
          match reduce 0 ops operands with
          | Some ([], [e]) => Some e
          | _ => None
          end
      | _ => None
      end
  end.

(** [ast.parse(s, mode="eval").body]; [Returns None] is a [SyntaxError]. *)
Definition parse (s : str) : outcome (option expr) :=
  ts <- tokenize s ;;
  Returns match ts with
          | Some ts => parse_tokens (WantOperand AfterOther, [], []) ts
          | None => None
          end.

End PyAst.

Import PyAst.

(** ** The safe arithmetic evaluator (lines 86-135) *)

(** [type(node.op)]: the class of the operator of a [BinOp] or of a
    [UnaryOp] node. *)
Inductive op_type :=
| BinaryClass (op : operator)
| UnaryClass (op : unaryop).

Definition op_type_eqb (a b : op_type) : bool :=
  match a, b with
  | BinaryClass Add, BinaryClass Add
  | BinaryClass Sub, BinaryClass Sub
  | BinaryClass Mult, BinaryClass Mult
  | BinaryClass Div, BinaryClass Div
  | BinaryClass FloorDiv, BinaryClass FloorDiv
  | BinaryClass Mod, BinaryClass Mod
  | BinaryClass Pow, BinaryClass Pow
  | UnaryClass UAdd, UnaryClass UAdd
  | UnaryClass USub, UnaryClass USub => true
  | _, _ => false
  end.

(** The functions of the module [operator] that the table names. *)
Inductive op_function := add | sub | mul | truediv | pow | mod_ | neg | pos.

(** The dictionary [ALLOWED_OPERATORS], in the order of the source. *)
Definition ALLOWED_OPERATORS : list (op_type * op_function) :=
  [ (BinaryClass Add, add);
    (BinaryClass Sub, sub);
    (BinaryClass Mult, mul);
    (BinaryClass Div, truediv);
    (BinaryClass Pow, pow);
    (BinaryClass Mod, mod_);
    (UnaryClass USub, neg);
    (UnaryClass UAdd, pos) ].

(** [ALLOWED_OPERATORS[op_type]] when [op_type in ALLOWED_OPERATORS]. *)
Fixpoint lookup_operator (t : op_type) (table : list (op_type * op_function))
  : option op_function :=
  match table with
  | [] => None
  | (k, f) :: rest => if op_type_eqb t k then Some f else lookup_operator t rest
  end.

(** A call of a function of the table with two arguments, with one. *)
Definition call2 (f : op_function) (x y : value) : outcome value :=
  match f with
  | add => op_add x y
  | sub => op_sub x y
  | mul => op_mul x y
  | truediv => op_truediv x y
  | pow => op_pow x y
  | mod_ => op_mod x y
  | neg | pos => Raises TypeError
  end.

Definition call1 (f : op_function) (x : value) : outcome value :=
  match f with
  | neg => op_neg x
  | pos => op_pos x
  | _ => Raises TypeError
  end.

(** The inner function [_eval] of [safe_eval], on the body of the parsed
    [ast.Expression]. *)
Fixpoint _eval (node : expr) : outcome value :=
  match node with
  | Constant (CInt z) => Returns (VInt z)
  | Constant (CFloat f) => Returns (VFloat f)
  | Constant CEllipsis => Raises (ValueError OnlyNumericConstants)
  | BinOp l op r =>
      left <- _eval l ;;
      right <- _eval r ;;
      match lookup_operator (BinaryClass op) ALLOWED_OPERATORS with
      | Some f => call2 f left right
      | None => Raises (ValueError OperatorNotAllowed)
      end
  | UnaryOp op e =>
      operand <- _eval e ;;
      match lookup_operator (UnaryClass op) ALLOWED_OPERATORS with
      | Some f => call1 f operand
      | None => Raises (ValueError UnaryOperatorNotAllowed)
      end
  | Call _ _ | Tuple => Raises (ValueError DisallowedElements)
  end.

Definition safe_eval (expr : str) : outcome value :=
  let expr := strip (replace (lit ",") (lit "") expr) in
  match expr with
  | [] => Raises (ValueError EmptyExpression)
  | _ =>
      node <- parse expr ;;
      match node with
      | None => Raises (ValueError InvalidSyntax)
      | Some body => _eval body
      end
  end.

(** ** Natural language helpers (lines 189-206) *)

(** [str(z)] for an [int]. *)
Definition str_of_int (z : Z) : str :=
  list_ascii_of_string (DecimalString.NilZero.string_of_int (Z.to_int z)).

(** The text of a number: digits, or [str(f)] of a float [f], which is
    not spelled out. *)
Inductive number_text :=
| Digits (s : str)
| FloatStr (f : spec_float).

Definition prettify_number (v : value) : number_text :=
  match v with
  | VInt z => Digits (str_of_int z)
  | VFloat f =>
      match float_integer f with
      | Some z => Digits (str_of_int z)
      | None => FloatStr f
      end
  end.

Definition operators : list str :=
  map lit ["+"; "-"; "*"; "/"; "%"; "plus"; "minus"; "times"; "divided";
           "divide"; "over"; "mod"; "power"; "**"]%string.

Definition is_probably_arithmetic (text : str) : bool :=
  let tokenized := lower text in
  if existsb isdigit tokenized then true
  else if existsb (fun op => contains op tokenized) operators then true
  else false.

(** ** What the assistant says and does *)

(** The sentences of the source, one constructor per literal or f-string,
    with the line that holds it. The constructors keep the interpolated
    values as they are passed; [speak] prints and says the sentence with
    its runs of white space turned into single spaces. *)
Inductive message :=
| TroubleReachingService                (* 80 *)
| LetMeLookThatUp (term : str)          (* 178 *)
| DidntCatchThatPlease                  (* 217 *)
| Goodbye                               (* 224 *)
| OpeningYouTube                        (* 229 *)
| OpeningGoogle                         (* 233 *)
| TheResultIs (pretty : number_text)    (* 270 *)
| CouldntEvaluate (expr : str) (e : exn)  (* 273 *)
| UnsafeCharacters (expr : str)         (* 277 *)
| WhatToDefine                          (* 287 *)
| SearchingFor (term : str)             (* 289 *)
| Found (defn : str)                    (* 292, 302 *)
| NoShortDefinition                     (* 294 *)
| SorryDidntUnderstand                  (* 306 *)
| Greeting                              (* 313 *)
| YesWhatCanIHelpWith                   (* 329 *)
| DidntCatchThat                        (* 339 *)
| WakeWordNotPresent                    (* 347 *)
| ListeningReady                        (* 62 *)
| NoSpeechDetected                      (* 66 *)
| You (text : str)                      (* 72 *)
| CouldntUnderstand                     (* 75 *)
| SpeechServiceError.                   (* 79 *)

Inductive event :=
| Speak (m : message)         (* speak(m): printed and said aloud *)
| SpeakQuietly (m : message)  (* speak(m, say_aloud=False): printed only *)
| Print (m : message)         (* print(m) *)
| OpenBrowser (url : str).    (* webbrowser.open(url) *)

Definition is_spoken (e : event) : bool :=
  match e with Speak _ => true | _ => false end.

(** ** Configuration (lines 24-28) *)

Definition WAKE_WORD : str := lit "assistant".
Definition MAX_RETRIES : nat := 2.

(** ** Command handling (lines 211-307) *)

(** Python's truth value of a result that is [None] or a string. *)
Definition truthy (r : option str) : bool :=
  match r with
  | Some (_ :: _) => true
  | _ => false
  end.

(** Lines 241-244: the first trigger word that starts the text is cut
    off, and the rest is stripped. *)
Fixpoint strip_trigger (triggers : list str) (expr : str) : str :=
  match triggers with
  | [] => expr
  | trig :: rest =>
      if startswith trig expr then strip (drop (List.length trig) expr)
      else strip_trigger rest expr
  end.

(** The dictionary [replacements], in the order of the source, which is
    the order in which [replacements.items()] yields it. *)
Definition replacements : list (str * str) :=
  map (fun kv => (lit (fst kv), lit (snd kv)))
    [ (" plus ", " + ");
      (" minus ", " - ");
      (" times ", " * ");
      (" multiplied by ", " * ");
      (" divided by ", " / ");
      (" over ", " / ");
      (" mod ", " % ");
      (" modulo ", " % ");
      (" to the power of ", "**");
      (" power of ", "**") ]%string.

(** The loop of lines 260-261 over a table of replacements. *)
Definition replace_all (table : list (str * str)) (s : str) : str :=
  fold_left (fun acc kv => replace (fst kv) (snd kv) acc) table s.

(** Lines 259-262: spoken operator words to symbols. *)
Definition normalize (expr : str) : str :=
  strip (replace_all replacements (lit " " ++ expr ++ lit " ")).

Definition allowed_chars : str := lit "0123456789+-*/(). %".

(** How the attempt at arithmetic of lines 266-277 ends. *)
Inductive attempt :=
| Answered (pretty : number_text)   (* the result is spoken, line 270 *)
| Failed (e : exn)                  (* [except Exception], line 272 *)
| Unsafe.                           (* the [else] of line 275 *)

(** Lines 266-277, for any evaluator called at line 268. *)
Definition guarded_attempt (evaluate : str -> outcome value) (expr_for_eval : str)
  : outcome attempt :=
  if forallb (fun ch => mem ch allowed_chars) expr_for_eval
  then match evaluate expr_for_eval with
       | Returns result => Returns (Answered (prettify_number result))
       | Raises e => Returns (Failed e)
       | Unmodelled => Unmodelled
       end
  else Returns Unsafe.

Definition arithmetic_attempt : str -> outcome attempt :=
  guarded_attempt safe_eval.

Definition exit_words : list str :=
  map lit ["exit"; "quit"; "stop"; "goodbye"; "bye"]%string.

Definition arithmetic_triggers : list str :=
  map lit ["calculate"; "what is"; "evaluate"; "compute"]%string.

Definition leading_triggers : list str :=
  map lit ["calculate"; "evaluate"; "compute"; "what is"]%string.

Definition definition_prefixes : list str :=
  map lit ["define "; "definition of "; "what is "; "what's ";
           "tell me about "]%string.

Definition articles : list str := map lit ["a "; "an "; "the "]%string.

(** Line 238: is the arithmetic tried? *)
Definition looks_arithmetic (text : str) : bool :=
  is_probably_arithmetic text
  || existsb (fun k => startswith k text) arithmetic_triggers.

(** Lines 240-262: the expression handed to the gate. *)
Definition expression_of (text : str) : str :=
  normalize (strip_trigger leading_triggers text).

(** Lines 283-285: each article in turn is cut off if the term starts
    with it. *)
Definition strip_articles (term : str) : str :=
  fold_left (fun t art => if startswith art t then drop (List.length art) t else t)
            articles term.

(** Lines 280-282: the term of the first prefix that starts the text. *)
Fixpoint prefixed_term (prefixes : list str) (text : str) : option str :=
  match prefixes with
  | [] => None
  | prefix :: rest =>
      if startswith prefix text
      then Some (strip_articles (strip (drop (List.length prefix) text)))
      else prefixed_term rest text
  end.

Section Collaborators.

(** [wikipedia_summary] and [duckduckgo_instant_answer] (lines 140-171)
    answer from the network: a text, or [None]. *)
Variable wikipedia_summary : str -> option str.
Variable duckduckgo_instant_answer : str -> option str.

(** Lines 173-184. *)
Definition lookup_definition (term : str) : list event * option str :=
  let term := strip term in
  match term with
  | [] => ([], None)
  | _ =>
      let wiki := wikipedia_summary term in
      ([SpeakQuietly (LetMeLookThatUp term)],
       if truthy wiki then wiki else duckduckgo_instant_answer term)
  end.

(** Lines 279-307: what follows the attempt at arithmetic. *)
Definition definition_rules (text : str) : list event * option str :=
  match prefixed_term definition_prefixes text with
  | Some [] => ([Speak WhatToDefine], None)
  | Some term =>
      let (looked, defn) := lookup_definition term in
      (Speak (SearchingFor term) :: looked ++
         [Speak (match defn with
                 | Some (c :: d) => Found (c :: d)
                 | _ => NoShortDefinition
                 end)],
       None)
  | None =>
      if (List.length (split text) <=? 3)%nat
      then
        let (looked, defn) := lookup_definition text in
        match defn with
        | Some (c :: d) => (looked ++ [Speak (Found (c :: d))], None)
        | _ => (looked ++ [Speak SorryDidntUnderstand], None)
        end
      else ([Speak SorryDidntUnderstand], None)
  end.

Definition handle_user_command (command_text : str)
  : outcome (list event * option str) :=
  match command_text with
  | [] => Returns ([Speak DidntCatchThatPlease], None)
  | _ =>
      let text := lower (strip command_text) in
      if existsb (fun word => contains word text) exit_words
      then Returns ([Speak Goodbye], Some (lit "exit"))
      else if contains (lit "open youtube") text || str_eqb (lit "youtube") text
      then Returns ([Speak OpeningYouTube;
                     OpenBrowser (lit "https://www.youtube.com")], None)
      else if contains (lit "open google") text || str_eqb (lit "google") text
      then Returns ([Speak OpeningGoogle;
                     OpenBrowser (lit "https://www.google.com")], None)
      else if looks_arithmetic text
      then
        let expr_for_eval := expression_of text in
        tried <- arithmetic_attempt expr_for_eval ;;
        match tried with
        | Answered pretty => Returns ([Speak (TheResultIs pretty)], None)
        | Failed e =>
            let (evs, r) := definition_rules text in
            Returns (Print (CouldntEvaluate expr_for_eval e) :: evs, r)
        | Unsafe =>
            let (evs, r) := definition_rules text in
            Returns (Print (UnsafeCharacters expr_for_eval) :: evs, r)
        end
      else Returns (definition_rules text)
  end.

(** ** The microphone (lines 53-81) *)

(** What the recogniser does with one turn at the microphone. *)
Inductive heard :=
| WaitTimeout                (* [sr.WaitTimeoutError], line 65 *)
| Recognised (text : str)    (* [recognize_google] returns, line 71 *)
| UnknownValue               (* [sr.UnknownValueError], line 74 *)
| RequestError.              (* [sr.RequestError], line 77 *)

Definition listen_from_mic (h : heard) : list event * option str :=
  match h with
  | WaitTimeout => ([Print ListeningReady; Print NoSpeechDetected], None)
  | Recognised text => ([Print ListeningReady; Print (You text)], Some (lower text))
  | UnknownValue => ([Print ListeningReady; Print CouldntUnderstand], None)
  | RequestError =>
      ([Print ListeningReady; Print SpeechServiceError;
        Speak TroubleReachingService], None)
  end.

(** ** The main loop (lines 312-347)

    The loop is followed from one call of [listen_from_mic] to the next.
    [Idle] is the head of the [while True] loop (line 318);
    [AwaitingFollowup n] is the head of the body of the [for] loop
    (line 332) with [n] of its iterations left, this one included;
    [Stopped] is after a [return] (lines 336 and 345). The handler of
    [KeyboardInterrupt] (lines 349-352) is left out. *)

Inductive session :=
| Idle
| AwaitingFollowup (attempts_remaining : nat)
| Stopped.

(** The [for] loop with [n] iterations left: with none, the [continue]
    of line 340 leads back to the head of the [while] loop. *)
Definition for_loop (n : nat) : session :=
  match n with
  | O => Idle
  | S _ => AwaitingFollowup n
  end.

(** Lines 334-337 and 343-345: the command is handled, and [exit] ends
    [main]. *)
Definition dispatch (heard_events : list event) (command : str)
  : outcome (list event * session) :=
  r <- handle_user_command command ;;
  let (evs, result) := r in
  Returns (heard_events ++ evs,
           match result with
           | Some word => if str_eqb word (lit "exit") then Stopped else Idle
           | None => Idle
           end).

(** Lines 318-347, from the head of the [while] loop. *)
Definition idle_step (h : heard) : outcome (list event * session) :=
  let (evs, spoken) := listen_from_mic h in
  match spoken with
  | Some (c :: sp) =>
      let spoken := c :: sp in
      if contains WAKE_WORD spoken
      then
        let after := strip (nth 1 (split1 WAKE_WORD spoken) []) in
        match after with
        | [] => Returns (evs ++ [Speak YesWhatCanIHelpWith], for_loop MAX_RETRIES)
        | _ => dispatch evs after
        end
      else Returns (evs ++ [Print WakeWordNotPresent], Idle)
  | _ => Returns (evs, Idle)
  end.

Definition main_step (s : session) (h : heard) : outcome (list event * session) :=
  match s with
  | Stopped => Returns ([], Stopped)
  | Idle | AwaitingFollowup O => idle_step h
  | AwaitingFollowup (S n) =>
      let (evs, follow) := listen_from_mic h in
      match follow with
      | Some (c :: f) => dispatch evs (c :: f)
      | _ => Returns (evs ++ [Speak DidntCatchThat], for_loop n)
      end
  end.

(** The loop over the turns at the microphone that are given. *)
Fixpoint run (s : session) (turns : list heard) : outcome (list event * session) :=
  match turns with
  | [] => Returns ([], s)
  | h :: rest =>
      r <- main_step s h ;;
      let (evs, s') := r in
      r' <- run s' rest ;;
      let (evs', s'') := r' in
      Returns (evs ++ evs', s'')
  end.

(** [main()]: the greeting of line 313, then the loop. *)
Definition main (turns : list heard) : outcome (list event * session) :=
  r <- run Idle turns ;;
  let (evs, s) := r in
  Returns (Speak Greeting :: evs, s).

End Collaborators.

(** ** Notions used in the statements *)

(** A text is trimmed when stripping leaves it as it is. *)
Definition trimmed (s : str) : Prop := lstrip s = s /\ rstrip s = s.

(** The replacement table in the order in which the specification lists
    it. *)
Definition spec_replacements : list (str * str) :=
  map (fun kv => (lit (fst kv), lit (snd kv)))
    [ (" multiplied by ", " * ");
      (" divided by ", " / ");
      (" to the power of ", "**");
      (" power of ", "**");
      (" plus ", " + ");
      (" minus ", " - ");
      (" times ", " * ");
      (" over ", " / ");
      (" modulo ", " % ");
      (" mod ", " % ") ]%string.

(** The normaliser as the specification words it: the same padding and
    trimming, the replacements in the specification's order. *)
Definition spec_normalize (expr : str) : str :=
  strip (replace_all spec_replacements (lit " " ++ expr ++ lit " ")).

(** The text matches neither the exit rule (line 223) nor the rules that
    open a site (lines 228 and 232). *)
Definition no_exit_or_site (text : str) : bool :=
  negb (existsb (fun word => contains word text) exit_words)
  && negb (contains (lit "open youtube") text || str_eqb (lit "youtube") text)
  && negb (contains (lit "open google") text || str_eqb (lit "google") text).

(** The events of a call that returns. *)
Definition events_of (o : outcome (list event * option str)) : list event :=
  match o with
  | Returns (evs, _) => evs
  | _ => []
  end.


(** A collaborator that finds nothing, as when the network is down. *)
Definition offline (term : str) : option str := None.

(** A collaborator that knows one word. *)
Definition knows_xyzzy (term : str) : option str :=
  if str_eqb term (lit "xyzzy") then Some (lit "a magic word") else None.

(** A text that is not empty and does not end in white space. *)
Definition ends_well (t : str) : Prop := t <> [] /\ rstrip t = t.

Definition ends_with_space (a : str) : bool :=
  match rev a with
  | sp :: _ => isspace sp
  | [] => false
  end.

Definition asks_what_to_define (e : event) : bool :=
  match e with
  | Speak WhatToDefine => true
  | _ => false
  end.

(** A turn at the microphone that gives no speech to act on: a timeout,
    nothing understood, a service error, or an empty text. *)
Definition silent (h : heard) : bool := negb (truthy (snd (listen_from_mic h))).

(** What a silent turn of the [for] loop prints and says. *)
Definition unanswered (h : heard) : list event :=
  fst (listen_from_mic h) ++ [Speak DidntCatchThat].

(** The rational number that a float is. *)
Definition float_exact (f : spec_float) : option Q :=
  match f with
  | S754_zero _ => Some 0%Q
  | S754_finite s m e =>
      Some (inject_Z (if s then Z.neg m else Z.pos m) * 2 ^ e)%Q
  | _ => None
  end.




(** A closed term is replaced by its value. *)
Ltac evaluates t v := replace t with v by (vm_compute; reflexivity).


Definition operator_text (op : operator) : str :=
  lit match op with
      | Add => "+" | Sub => "-" | Mult => "*" | Div => "/"
      | FloorDiv => "//" | Mod => "%" | Pow => "**"
      end.

Definition sign_text (op : unaryop) : str :=
  lit match op with UAdd => "+" | USub => "-" end.




Definition operator_token (op : operator) : token :=
  match op with
  | Add => PLUS | Sub => MINUS | Mult => STAR | Div => SLASH
  | FloorDiv => DOUBLESLASH | Mod => PERCENT | Pow => DOUBLESTAR
  end.

Definition sign_token (op : unaryop) : token :=
  match op with UAdd => PLUS | USub => MINUS end.


(** Tokens in front of the tokens of the rest of a text. *)
Definition prepend (ts : list token) (rest : outcome (option (list token)))
  : outcome (option (list token)) :=
  r <- rest ;; Returns (emit (Some ts) r).

(** The rest of a text ends the token before it: it is empty or starts
    with a space or a closing parenthesis. *)
Definition closes (rest : str) : bool :=
  match rest with
  | [] => true
  | c :: _ => chr_eqb c " " || chr_eqb c ")"
  end.

(** ** Replacements of words that stand between spaces *)

Definition blank : ascii := " "%char.

(** Two texts differ at a place that both have. *)
Fixpoint differ (a b : str) : bool :=
  match a, b with
  | x :: a', y :: b' => negb (chr_eqb x y) || differ a' b'
  | _, _ => false
  end.

(** [s.replace(k, v)] for a key [k] that is not empty. *)
Definition substitute (k v s : str) : str := replace_go k v 0 s.

(** Keys and values of the table: a word between two spaces, a symbol
    between two spaces. *)
Definition spaced_word (w : str) : str := blank :: w ++ [blank].

Definition spaced_symbol (y : ascii) : str := [blank; y; blank].

(** The key matches at no place of [q ++ [blank]] that lies in [q]. *)
Fixpoint starts_nowhere (k q : str) : bool :=
  match q with
  | [] => true
  | _ :: q' => differ k (q ++ [blank]) && starts_nowhere k q'
  end.

(** The replacement of [w] by [y] makes no occurrence of the pattern
    [p]: wherever the pattern has a space before its end, what follows the
    space differs from the replaced word and from the symbol. *)
Fixpoint not_made (w : str) (y : ascii) (p : str) : bool :=
  match p with
  | [] => true
  | a :: p' =>
      (if chr_eqb a blank
       then match p' with
            | [] => true
            | _ => differ p' [y; blank] && differ p' (w ++ [blank])
            end
       else true)
      && not_made w y p'
  end.

(** Two replacements give the same text in either order; and the same
    when the text comes after a space that the first replacement has
    already used. *)
Definition commutes_plain (f g : str -> str) (s : str) : Prop :=
  f (g s) = g (f s).

Definition commutes_after_space (f g : str -> str) (s : str) : Prop :=
  f (blank :: g s) = blank :: g (tl (f (blank :: s))).

(** One entry of the table whose symbol keeps its spaces. *)
Definition word_replace (w : string) (y : ascii) : str -> str :=
  substitute (spaced_word (lit w)) (spaced_symbol y).

Definition power_phrase : str := lit " power of ".

(** ** Notions used in the further properties *)

(** The sentences that are said aloud. *)
Definition spoken (evs : list event) : list event := filter is_spoken evs.

Definition is_lookup (e : event) : bool :=
  match e with SpeakQuietly (LetMeLookThatUp _) => true | _ => false end.

Definition opens_browser (e : event) : bool :=
  match e with OpenBrowser _ => true | _ => false end.

Definition asks_for_youtube (text : str) : bool :=
  contains (lit "open youtube") text || str_eqb (lit "youtube") text.

Definition asks_for_google (text : str) : bool :=
  contains (lit "open google") text || str_eqb (lit "google") text.

Definition has_exit_word (text : str) : bool :=
  existsb (fun word => contains word text) exit_words.

(** [x] is a part of [s]. *)
Definition part_of (x s : str) : Prop := exists a b, s = a ++ x ++ b.

(** An utterance that holds an exit word. *)
Definition heard_exit_word (h : heard) : bool :=
  match h with
  | Recognised text => has_exit_word (lower text)
  | _ => false
  end.




(** A decimal integer literal of Python. *)
Definition int_literal (ds : str) : bool :=
  forallb is_ascii_digit ds && valid_int_literal ds.

(** The tree of an integer literal. *)
Definition literal (ds : str) : expr := Constant (CInt (digits_value ds)).

(** Of two binary operators in a row, the second takes the operand
    between them when it binds more tightly, and when both are [**]. *)
Definition groups_right (first second : operator) : bool :=
  (binary_prec first <? binary_prec second)%nat
  || match first, second with Pow, Pow => true | _, _ => false end.

(** ** [speak] (lines 36-46) *)

(** [sep.join(parts)] *)
Fixpoint join (sep : str) (parts : list str) : str :=
  match parts with
  | [] => []
  | [p] => p
  | p :: rest => p ++ sep ++ join sep rest
  end.

(** What reaches the console and the speech engine. *)
Inductive output :=
| Printed (line : str)   (* [print(line)] *)
| Said (text : str).     (* [tts_engine.say(text)] and [runAndWait()] *)

(** [speak(text, say_aloud)] for a text that is a [str]. *)
Definition speak (text : str) (say_aloud : bool) : list output :=
  let text := join (lit " ") (split text) in
  Printed (lit "[Assistant] " ++ text) :: (if say_aloud then [Said text] else []).

(** Every white-space character of the text is a space that is followed
    by a character that is not white space. *)
Fixpoint spaces_between (t : str) : bool :=
  match t with
  | [] => true
  | c :: r =>
      (if isspace c
       then chr_eqb c " " && match r with
                             | [] => false
                             | d :: _ => negb (isspace d)
                             end
       else true)
      && spaces_between r
  end.

(** Words with one space between them, and nothing else. *)
Definition single_spaced (t : str) : bool :=
  match t with
  | [] => true
  | c :: _ => negb (isspace c) && spaces_between t
  end.

(** A word: not empty and without white space. *)
Definition is_word (w : str) : bool :=
  match w with
  | [] => false
  | _ => forallb (fun c => negb (isspace c)) w
  end.

(** ** The instant answer of DuckDuckGo (lines 155-171) *)

Module Network.

(** A decoded JSON document, as [r.json()] gives it; the members of an
    object in the order of the document. *)
#[warnings="-register-all"]
Inductive json :=
| JNull
| JBool (b : bool)
| JInt (z : Z)
| JFloat (f : spec_float)
| JString (s : str)
| JArray (items : list json)
| JObject (members : list (str * json)).

(** Python's truth value of a decoded value. *)
Definition truth (v : json) : bool :=
  match v with
  | JNull => false
  | JBool b => b
  | JInt z => negb (z =? 0)%Z
  | JFloat f => negb (is_zero f)
  | JString s => match s with [] => false | _ => true end
  | JArray items => match items with [] => false | _ => true end
  | JObject members => match members with [] => false | _ => true end
  end.

(** [data.get(key)] on the [dict] of an object: of two members with the
    same key the later one is kept. *)
Fixpoint get (key : str) (members : list (str * json)) : option json :=
  match members with
  | [] => None
  | (k, v) :: rest =>
      match get key rest with
      | Some later => Some later
      | None => if str_eqb k key then Some v else None
      end
  end.

(** [data.get(key)] when it is true, as the tests of lines 160, 162 and
    167 take it. *)
Definition field (key : str) (members : list (str * json)) : option json :=
  match get key members with
  | Some v => if truth v then Some v else None
  | None => None
  end.

(** An item of the related topics that is a [dict] with a true ["Text"]. *)
Definition has_text (item : json) : bool :=
  match item with
  | JObject members =>
      match field (lit "Text") members with Some _ => true | None => false end
  | _ => false
  end.

(** The loop of lines 166-168 over a list. *)
Fixpoint first_text (related : list json) : option json :=
  match related with
  | [] => None
  | JObject item :: rest =>
      match field (lit "Text") item with
      | Some text => Some text
      | None => first_text rest
      end
  | _ :: rest => first_text rest
  end.

(** Lines 165-169. Only a list can hold a [dict]: the loop over a text or
    over the keys of an object finds none, and the loop over anything
    else raises [TypeError], which line 170 catches. *)
Definition related_text (related : json) : option json :=
  match related with
  | JArray items => first_text items
  | _ => None
  end.

(** [duckduckgo_instant_answer(term)]. [request term] is what lines
    157-159 give: the decoded document, or [None] when the request or the
    decoding raises. A document that is not an object has no [get]: the
    [AttributeError] is caught at line 170. *)
Definition duckduckgo_instant_answer (request : str -> option json) (term : str)
  : option json :=
  match request term with
  | Some (JObject data) =>
      match field (lit "Definition") data with
      | Some definition => Some definition
      | None =>
          match field (lit "AbstractText") data with
          | Some abstract => Some abstract
          | None =>
              related_text
                match get (lit "RelatedTopics") data with
                | Some related => related
                | None => JArray []
                end
          end
      end
  | _ => None
  end.

End Network.

(** ** Spoken operators between two numbers *)






(** ** Turns without the wake word *)

(** A turn at the microphone that does not hold the wake word. *)
Definition no_wake_word (h : heard) : bool :=
  match h with
  | Recognised text => negb (contains WAKE_WORD (lower text))
  | _ => true
  end.

(** What the loop does by itself: lines on the console, and the one
    sentence about the speech service. *)
Definition console_or_service (e : event) : bool :=
  match e with
  | Print _ => true
  | Speak TroubleReachingService => true
  | _ => false
  end.

(** * Properties *)

(** ** Strings *)

Lemma chr_eqb_true (a b : ascii) : chr_eqb a b = true <-> a = b.
Proof. unfold chr_eqb. apply Ascii.eqb_eq. Qed.

Lemma mem_true (c : ascii) (chars : str) : mem c chars = true <-> In c chars.
Proof.
  unfold mem. rewrite existsb_exists. split.
  - intros [x [Hin Heq]]. apply chr_eqb_true in Heq. now subst.
  - intros Hin. exists c. split; [assumption | now apply chr_eqb_true].
Qed.

Lemma startswith_app (p r : str) : startswith p (p ++ r) = true.
Proof.
  induction p as [|a p IH]; simpl; [reflexivity|].
  rewrite IH, andb_true_r. now apply chr_eqb_true.
Qed.

Lemma startswith_split (p s : str) :
  startswith p s = true -> s = p ++ drop (List.length p) s.
Proof.
  revert s. induction p as [|a p IH]; intros s H; simpl in *; [reflexivity|].
  destruct s as [|b s]; [discriminate|].
  apply andb_true_iff in H. destruct H as [Hab Hps].
  apply chr_eqb_true in Hab. subst b. simpl. f_equal. now apply IH.
Qed.

Lemma contains_cons_false (sub : str) (c : ascii) (s : str) :
  contains sub (c :: s) = false ->
  startswith sub (c :: s) = false /\ contains sub s = false.
Proof. simpl. intros H. now apply orb_false_iff in H. Qed.

(** A text that does not hold [old] is left as it is by the replacement. *)
Lemma replace_go_absent (old new s : str) :
  contains old s = false -> replace_go old new 0 s = s.
Proof.
  induction s as [|c s IH]; intros H; [reflexivity|].
  apply contains_cons_false in H. destruct H as [Hs Hc].
  cbn [replace_go]. rewrite Hs. f_equal. now apply IH.
Qed.

Lemma replace_absent (old new s : str) :
  contains old s = false -> replace old new s = s.
Proof.
  destruct old as [|a old].
  - destruct s; discriminate.
  - intros H. unfold replace. now apply replace_go_absent.
Qed.

Lemma replace_all_absent (table : list (str * str)) (s : str) :
  forallb (fun kv => negb (contains (fst kv) s)) table = true ->
  replace_all table s = s.
Proof.
  unfold replace_all. induction table as [|kv table IH]; intros H; [reflexivity|].
  simpl in H. apply andb_true_iff in H. destruct H as [Hk Ht].
  simpl. rewrite replace_absent by now apply negb_true_iff.
  now apply IH.
Qed.

(** *** Stripping *)

Lemma isspace_lower_chr (c : ascii) : isspace (lower_chr c) = isspace c.
Proof. destruct c as [[] [] [] [] [] [] [] []]; reflexivity. Qed.

Lemma rstrip_length (s : str) : (List.length (rstrip s) <= List.length s)%nat.
Proof.
  induction s as [|c s IH]; simpl; [lia|].
  destruct (rstrip s) as [|r rs]; [destruct (isspace c)|]; simpl in *; lia.
Qed.

Lemma rstrip_app (a b : str) :
  rstrip (a ++ b) = match rstrip b with [] => rstrip a | _ => a ++ rstrip b end.
Proof.
  induction a as [|c a IH]; simpl.
  - now destruct (rstrip b).
  - rewrite IH. destruct (rstrip b) as [|x xs]; [reflexivity|].
    now destruct a.
Qed.

Lemma rstrip_idem (s : str) : rstrip (rstrip s) = rstrip s.
Proof.
  induction s as [|c s IH]; simpl; [reflexivity|].
  destruct (rstrip s) as [|x xs] eqn:E.
  - destruct (isspace c) eqn:Ec; simpl; [reflexivity|now rewrite Ec].
  - change (rstrip (c :: x :: xs)) with
      (match rstrip (x :: xs) with [] => if isspace c then [] else [c] | r => c :: r end).
    rewrite IH. reflexivity.
Qed.

Lemma rstrip_lower (s : str) : rstrip (lower s) = lower (rstrip s).
Proof.
  unfold lower. induction s as [|c s IH]; simpl; [reflexivity|].
  rewrite IH, isspace_lower_chr.
  destruct (rstrip s); [destruct (isspace c)|]; reflexivity.
Qed.

Lemma lstrip_head (s : str) :
  lstrip s = [] \/ exists c r, lstrip s = c :: r /\ isspace c = false.
Proof.
  induction s as [|c s IH]; simpl; [now left|].
  destruct (isspace c) eqn:E; [assumption|].
  right. now exists c, s.
Qed.

Lemma lstrip_nonspace (c : ascii) (s : str) :
  isspace c = false -> lstrip (c :: s) = c :: s.
Proof. intros H. simpl. now rewrite H. Qed.

Lemma rstrip_head (c : ascii) (s : str) :
  isspace c = false -> exists r, rstrip (c :: s) = c :: r.
Proof.
  intros H. simpl. destruct (rstrip s) as [|x xs].
  - rewrite H. now exists [].
  - now exists (x :: xs).
Qed.

Lemma strip_trimmed (s : str) : trimmed (strip s).
Proof.
  unfold trimmed, strip. split; [|apply rstrip_idem].
  destruct (lstrip_head s) as [E | [c [r [E Hc]]]]; rewrite E; [reflexivity|].
  destruct (@rstrip_head c r Hc) as [r' Er]. rewrite Er.
  now apply lstrip_nonspace.
Qed.

Lemma strip_of_trimmed (s : str) : trimmed s -> strip s = s.
Proof. intros [Hl Hr]. unfold strip. now rewrite Hl. Qed.

Lemma strip_idem (s : str) : strip (strip s) = strip s.
Proof. apply strip_of_trimmed, strip_trimmed. Qed.

(** Padding a text with a space on either side does not change what
    stripping gives. *)
Lemma lstrip_pad_right (t : str) :
  lstrip (t ++ lit " ") = match lstrip t with [] => [] | r => r ++ lit " " end.
Proof.
  induction t as [|x t IH]; [reflexivity|]. simpl.
  destruct (isspace x); [exact IH | reflexivity].
Qed.

Lemma strip_pad (text : str) : strip (lit " " ++ text ++ lit " ") = strip text.
Proof.
  unfold strip.
  change (lstrip (lit " " ++ text ++ lit " ")) with (lstrip (text ++ lit " ")).
  rewrite lstrip_pad_right.
  destruct (lstrip text) as [|c r]; [reflexivity|].
  rewrite rstrip_app. reflexivity.
Qed.


(** ** The gate of characters *)

(** C1. A text that holds a character outside [0123456789+-*/(). %] does
    not pass the gate of line 266: the attempt ends in the [else] of
    line 275 ("unsafe characters"), whatever the evaluator of line 268
    would have done with the text, which is never handed to it; this
    holds for [safe_eval] in particular. *)
Theorem gate_rejects_disallowed_character
    (evaluate : str -> outcome value) (expr_for_eval : str) (ch : ascii) :
  In ch expr_for_eval ->
  mem ch allowed_chars = false ->
  guarded_attempt evaluate expr_for_eval = Returns Unsafe
  /\ arithmetic_attempt expr_for_eval = Returns Unsafe.
Proof.
  intros Hin Hch.
  assert (G : forallb (fun c => mem c allowed_chars) expr_for_eval = false).
  { destruct (forallb (fun c => mem c allowed_chars) expr_for_eval) eqn:E;
      [|reflexivity].
    rewrite forallb_forall in E. specialize (E ch Hin). congruence. }
  unfold arithmetic_attempt, guarded_attempt. rewrite G. now split.
Qed.

Lemma gate_rejects_disallowed_character_witness :
  In "t"%char (lit "the moon")
  /\ mem "t"%char allowed_chars = false
  /\ guarded_attempt (fun _ => Returns (VInt 0)) (lit "the moon") = Returns Unsafe
  /\ arithmetic_attempt (lit "the moon") = Returns Unsafe.
Proof.
  assert (Hin : In "t"%char (lit "the moon")) by (simpl; auto).
  assert (Hch : mem "t"%char allowed_chars = false) by reflexivity.
  split; [exact Hin|]. split; [exact Hch|].
  exact (gate_rejects_disallowed_character (fun _ => Returns (VInt 0)) _ _ Hin Hch).
Defined.

(** ** The normaliser *)

(** The order of the specification and the order of the source give
    different texts: the source replaces [" plus "] before [" power of "],
    whose symbol [**] carries no spaces. *)
Lemma normalize_differs_from_spec_order :
  normalize (lit "2 power of plus 3") = lit "2**+ 3"
  /\ spec_normalize (lit "2 power of plus 3") = lit "2**plus 3"
  /\ str_eqb (normalize (lit "2 power of plus 3"))
             (spec_normalize (lit "2 power of plus 3")) = false.
Proof. repeat split; vm_compute; reflexivity. Qed.

(** A text whose padding holds none of the phrases is only trimmed. *)
Lemma normalize_untouched (text : str) :
  forallb (fun kv => negb (contains (fst kv) (lit " " ++ text ++ lit " ")))
          replacements = true ->
  normalize text = strip text.
Proof.
  intros H. unfold normalize. rewrite replace_all_absent by exact H.
  apply strip_pad.
Qed.

(** *** Replacements that commute *)

Unset Implicit Arguments.

Local Abbreviation sub_word w y := (substitute (spaced_word w) (spaced_symbol y)).

(** Texts that differ are not a start of one another. *)
Lemma differ_startswith (a b t : str) :
  differ a b = true -> startswith a (b ++ t) = false.
Proof.
  revert b. induction a as [|x a IH]; intros b H; [discriminate|].
  destruct b as [|y b]; [discriminate|]. simpl in *.
  destruct (chr_eqb x y); simpl in *; [now apply IH | reflexivity].
Qed.

Lemma replace_go_skip (k v : str) (n : nat) (s : str) :
  replace_go k v n s = substitute k v (drop n s).
Proof.
  revert n. induction s as [|c s IH]; intros n.
  - now destruct n.
  - destruct n as [|n]; [reflexivity|]. simpl. apply IH.
Qed.

(** The two cases of [replace_go]: the key starts the text, or it does
    not. *)
Lemma substitute_match (k v t : str) :
  k <> [] -> substitute k v (k ++ t) = v ++ substitute k v t.
Proof.
  intros Hk. destruct k as [|a k]; [congruence|].
  unfold substitute at 1. cbn [app replace_go].
  change (startswith (a :: k) (a :: k ++ t)) with (startswith (a :: k) ((a :: k) ++ t)).
  rewrite startswith_app. f_equal. rewrite replace_go_skip.
  simpl. rewrite Nat.sub_0_r. unfold drop. now rewrite skipn_app, skipn_all, Nat.sub_diag.
Qed.

Lemma substitute_nomatch (k v : str) (c : ascii) (s : str) :
  startswith k (c :: s) = false -> substitute k v (c :: s) = c :: substitute k v s.
Proof. intros H. unfold substitute. cbn [replace_go]. now rewrite H. Qed.

Lemma substitute_nil (k v : str) : substitute k v [] = [].
Proof. reflexivity. Qed.

Lemma substitute_head_space (w : str) (y : ascii) (t : str) :
  exists r, sub_word w y (blank :: t) = blank :: r.
Proof.
  destruct (startswith (spaced_word w) (blank :: t)) eqn:E.
  - apply startswith_split in E. rewrite E, substitute_match by discriminate.
    eexists. reflexivity.
  - rewrite substitute_nomatch by assumption. eexists. reflexivity.
Qed.

Lemma substitute_other (k v : str) (c : ascii) (s : str) :
  chr_eqb c blank = false -> k <> [] -> hd blank k = blank ->
  substitute k v (c :: s) = c :: substitute k v s.
Proof.
  intros Hc Hk Hh. apply substitute_nomatch. destruct k as [|a k]; [congruence|].
  simpl in Hh. subst a. cbn [startswith].
  assert (H : chr_eqb blank c = false).
  { destruct (chr_eqb blank c) eqn:E; [|reflexivity]. apply chr_eqb_true in E. subst c.
    discriminate. }
  now rewrite H.
Qed.

(** The replacement passes over a text in which the key starts nowhere. *)
Lemma substitute_pass_over (k v q t : str) :
  starts_nowhere k q = true ->
  substitute k v (q ++ blank :: t) = q ++ substitute k v (blank :: t).
Proof.
  induction q as [|a q IH]; intros H; [reflexivity|].
  cbn [starts_nowhere] in H. apply andb_true_iff in H. destruct H as [Hc Hq].
  cbn [app]. rewrite substitute_nomatch.
  - now rewrite IH.
  - change (a :: q ++ blank :: t) with ((a :: q) ++ [blank] ++ t).
    rewrite app_assoc. now apply differ_startswith.
Qed.

Lemma spaced_word_app (w t : str) : spaced_word w ++ t = blank :: w ++ blank :: t.
Proof. unfold spaced_word. simpl. now rewrite <- app_assoc. Qed.

Lemma substitute_sp_match (w : str) (y : ascii) (t : str) :
  sub_word w y (blank :: w ++ blank :: t) = spaced_symbol y ++ sub_word w y t.
Proof. rewrite <- spaced_word_app. apply substitute_match. discriminate. Qed.

Lemma substitute_sp_nomatch (w : str) (y : ascii) (s : str) :
  startswith (w ++ [blank]) s = false ->
  sub_word w y (blank :: s) = blank :: sub_word w y s.
Proof.
  intros H. apply substitute_nomatch. unfold spaced_word. cbn [startswith].
  now rewrite H.
Qed.

Lemma substitute_not_space (w : str) (y c : ascii) (s : str) :
  chr_eqb c blank = false ->
  sub_word w y (c :: s) = c :: sub_word w y s.
Proof. intros H. apply substitute_other; [assumption | discriminate | reflexivity]. Qed.

Lemma startswith_word (w s : str) :
  startswith (w ++ [blank]) s = true -> exists t, s = w ++ blank :: t.
Proof.
  intros H. apply startswith_split in H. eexists. rewrite H at 1.
  rewrite <- app_assoc. reflexivity.
Qed.

(** The replacement changes no start of the text into the pattern, and
    no start away from it. *)
Lemma substitute_keeps_pattern (w : str) (y : ascii) (p : str) :
  not_made w y p = true ->
  forall u, startswith p (sub_word w y u) = startswith p u.
Proof.
  induction p as [|a p IH]; intros Hp u; [reflexivity|].
  cbn [not_made] in Hp. apply andb_true_iff in Hp. destruct Hp as [Ha Hp].
  destruct u as [|c u]; [reflexivity|].
  destruct (startswith (spaced_word w) (c :: u)) eqn:E.
  - apply startswith_split in E. rewrite E, substitute_match by discriminate.
    set (t := drop (List.length (spaced_word w)) (c :: u)).
    rewrite spaced_word_app. cbn [spaced_symbol app startswith].
    destruct (chr_eqb a blank); [|reflexivity]. cbn [andb].
    destruct p as [|b p]; [reflexivity|].
    apply andb_true_iff in Ha. destruct Ha as [H1 H2].
    change (y :: blank :: sub_word w y t) with ([y; blank] ++ sub_word w y t).
    change (w ++ blank :: t) with (w ++ [blank] ++ t). rewrite app_assoc.
    now rewrite !differ_startswith.
  - rewrite substitute_nomatch by assumption. cbn [startswith]. now rewrite IH.
Qed.

(** Two entries of the table: neither word is a start of the other or of
    the other's symbol, neither key starts inside the other's word or
    symbol, and neither replacement makes the other's word. *)
Section Pair.

Variables (w1 : str) (y1 : ascii) (w2 : str) (y2 : ascii).

Hypothesis H12 : differ (w1 ++ [blank]) (w2 ++ [blank]) = true.
Hypothesis H21 : differ (w2 ++ [blank]) (w1 ++ [blank]) = true.
Hypothesis Hy12 : differ (w1 ++ [blank]) [y2; blank] = true.
Hypothesis Hy21 : differ (w2 ++ [blank]) [y1; blank] = true.
Hypothesis N12 : starts_nowhere (spaced_word w1) w2 = true.
Hypothesis N21 : starts_nowhere (spaced_word w2) w1 = true.
Hypothesis Ny12 : starts_nowhere (spaced_word w1) [y2] = true.
Hypothesis Ny21 : starts_nowhere (spaced_word w2) [y1] = true.
Hypothesis P12 : not_made w1 y1 (w2 ++ [blank]) = true.
Hypothesis P21 : not_made w2 y2 (w1 ++ [blank]) = true.

Local Abbreviation R1 := (sub_word w1 y1).
Local Abbreviation R2 := (sub_word w2 y2).
Local Abbreviation Cff := (commutes_plain R1 R2).
Local Abbreviation Ctf := (commutes_after_space R1 R2).
Local Abbreviation Cft := (commutes_after_space R2 R1).

Lemma over_word_1 (t : str) :
  R2 (blank :: w1 ++ blank :: t) = blank :: w1 ++ R2 (blank :: t).
Proof.
  rewrite substitute_sp_nomatch.
  - now rewrite substitute_pass_over by assumption.
  - change (w1 ++ blank :: t) with (w1 ++ [blank] ++ t). rewrite app_assoc.
    now apply differ_startswith.
Qed.

Lemma over_word_2 (t : str) :
  R1 (blank :: w2 ++ blank :: t) = blank :: w2 ++ R1 (blank :: t).
Proof.
  rewrite substitute_sp_nomatch.
  - now rewrite substitute_pass_over by assumption.
  - change (w2 ++ blank :: t) with (w2 ++ [blank] ++ t). rewrite app_assoc.
    now apply differ_startswith.
Qed.

Lemma over_symbol_1 (z : str) : R2 (y1 :: blank :: z) = y1 :: R2 (blank :: z).
Proof. exact (@substitute_pass_over (spaced_word w2) (spaced_symbol y2) [y1] z Ny21). Qed.

Lemma over_symbol_2 (z : str) : R1 (y2 :: blank :: z) = y2 :: R1 (blank :: z).
Proof. exact (@substitute_pass_over (spaced_word w1) (spaced_symbol y1) [y2] z Ny12). Qed.

Lemma at_symbol_1 (z : str) :
  R2 (blank :: y1 :: blank :: z) = blank :: y1 :: R2 (blank :: z).
Proof.
  rewrite substitute_sp_nomatch; [now rewrite over_symbol_1|].
  change (y1 :: blank :: z) with ([y1; blank] ++ z). now apply differ_startswith.
Qed.

Lemma at_symbol_2 (z : str) :
  R1 (blank :: y2 :: blank :: z) = blank :: y2 :: R1 (blank :: z).
Proof.
  rewrite substitute_sp_nomatch; [now rewrite over_symbol_2|].
  change (y2 :: blank :: z) with ([y2; blank] ++ z). now apply differ_startswith.
Qed.

Lemma head_1 (t : str) : R1 (blank :: t) = blank :: tl (R1 (blank :: t)).
Proof. destruct (@substitute_head_space w1 y1 t) as [r Hr]. now rewrite Hr. Qed.

Lemma head_2 (t : str) : R2 (blank :: t) = blank :: tl (R2 (blank :: t)).
Proof. destruct (@substitute_head_space w2 y2 t) as [r Hr]. now rewrite Hr. Qed.

Lemma keeps_1 (u : str) :
  startswith (w2 ++ [blank]) (R1 u) = startswith (w2 ++ [blank]) u.
Proof. now apply substitute_keeps_pattern. Qed.

Lemma keeps_2 (u : str) :
  startswith (w1 ++ [blank]) (R2 u) = startswith (w1 ++ [blank]) u.
Proof. now apply substitute_keeps_pattern. Qed.

(** The three statements are proved together, each from the three on
    shorter texts. *)
Lemma Cff_step (s : str) :
  (forall t, (List.length t < List.length s)%nat -> Cff t /\ Ctf t /\ Cft t) ->
  Cff s.
Proof.
  intros IH. destruct s as [|c s']; [reflexivity|].
  destruct (chr_eqb c blank) eqn:Ec.
  - apply chr_eqb_true in Ec. subst c.
    destruct (startswith (w1 ++ [blank]) s') eqn:E1.
    + destruct (@startswith_word w1 s' E1) as [t Et]. subst s'.
      assert (Ht : (List.length t < List.length (blank :: w1 ++ blank :: t))%nat)
        by (simpl; rewrite length_app; simpl; lia).
      destruct (IH t Ht) as [_ [_ Hft]]. unfold commutes_plain, commutes_after_space in *.
      rewrite over_word_1, (head_2 t), !substitute_sp_match.
      cbn [spaced_symbol app]. rewrite at_symbol_1, Hft. reflexivity.
    + destruct (startswith (w2 ++ [blank]) s') eqn:E2.
      * destruct (@startswith_word w2 s' E2) as [t Et]. subst s'.
        assert (Ht : (List.length t < List.length (blank :: w2 ++ blank :: t))%nat)
          by (simpl; rewrite length_app; simpl; lia).
        destruct (IH t Ht) as [_ [Htf _]].
        unfold commutes_plain, commutes_after_space in *.
        rewrite over_word_2, (head_1 t), !substitute_sp_match.
        cbn [spaced_symbol app]. rewrite at_symbol_2, Htf. reflexivity.
      * assert (Hs : (List.length s' < List.length (blank :: s'))%nat) by (simpl; lia).
        destruct (IH s' Hs) as [Hff _]. unfold commutes_plain, commutes_after_space in *.
        rewrite (@substitute_sp_nomatch w2 y2 s' E2).
        rewrite (@substitute_sp_nomatch w1 y1 s' E1).
        rewrite (@substitute_sp_nomatch w1 y1 (R2 s')) by now rewrite keeps_2.
        rewrite (@substitute_sp_nomatch w2 y2 (R1 s')) by now rewrite keeps_1.
        now rewrite Hff.
  - assert (Hs : (List.length s' < List.length (c :: s'))%nat) by (simpl; lia).
    destruct (IH s' Hs) as [Hff _]. unfold commutes_plain, commutes_after_space in *.
    rewrite !(@substitute_not_space _ _ _ _ Ec). now rewrite Hff.
Qed.

Lemma Ctf_step (s : str) :
  (forall t, (List.length t < List.length s)%nat -> Cff t /\ Ctf t /\ Cft t) ->
  Cff s -> Ctf s.
Proof.
  intros IH Hff. unfold commutes_plain, commutes_after_space in *.
  destruct (startswith (w1 ++ [blank]) s) eqn:E1.
  - destruct (@startswith_word w1 s E1) as [t Et]. subst s.
    assert (Ht : (List.length t < List.length (w1 ++ blank :: t))%nat)
      by (rewrite length_app; simpl; lia).
    destruct (IH t Ht) as [_ [_ Hft]]. unfold commutes_plain, commutes_after_space in *.
    rewrite (@substitute_pass_over (spaced_word w2) (spaced_symbol y2) w1 t N21).
    rewrite (head_2 t), !substitute_sp_match.
    cbn [spaced_symbol app tl]. rewrite over_symbol_1, Hft. reflexivity.
  - rewrite (@substitute_sp_nomatch w1 y1 s E1). cbn [tl].
    rewrite (@substitute_sp_nomatch w1 y1 (R2 s)) by now rewrite keeps_2.
    now rewrite Hff.
Qed.

Lemma Cft_step (s : str) :
  (forall t, (List.length t < List.length s)%nat -> Cff t /\ Ctf t /\ Cft t) ->
  Cff s -> Cft s.
Proof.
  intros IH Hff. unfold commutes_plain, commutes_after_space in *.
  destruct (startswith (w2 ++ [blank]) s) eqn:E2.
  - destruct (@startswith_word w2 s E2) as [t Et]. subst s.
    assert (Ht : (List.length t < List.length (w2 ++ blank :: t))%nat)
      by (rewrite length_app; simpl; lia).
    destruct (IH t Ht) as [_ [Htf _]]. unfold commutes_plain, commutes_after_space in *.
    rewrite (@substitute_pass_over (spaced_word w1) (spaced_symbol y1) w2 t N12).
    rewrite (head_1 t), !substitute_sp_match.
    cbn [spaced_symbol app tl]. rewrite over_symbol_2, Htf. reflexivity.
  - rewrite (@substitute_sp_nomatch w2 y2 s E2). cbn [tl].
    rewrite (@substitute_sp_nomatch w2 y2 (R1 s)) by now rewrite keeps_1.
    now rewrite Hff.
Qed.

Lemma commute_all (n : nat) :
  forall s, (List.length s < n)%nat -> Cff s /\ Ctf s /\ Cft s.
Proof.
  induction n as [|n IH]; intros s Hn; [lia|].
  assert (Hsmall : forall t, (List.length t < List.length s)%nat ->
                             Cff t /\ Ctf t /\ Cft t)
    by (intros t Ht; apply IH; lia).
  pose proof (@Cff_step s Hsmall) as Hff.
  split; [exact Hff|]. split; [now apply Ctf_step | now apply Cft_step].
Qed.

(** Two replacements with keys and values bounded by spaces commute. *)
Lemma replacements_commute (s : str) : R1 (R2 s) = R2 (R1 s).
Proof. exact (proj1 (@commute_all (S (List.length s)) s (Nat.lt_succ_diag_r _))). Qed.

End Pair.

(** *** What a replacement cannot make *)

Lemma chr_eqb_refl (a : ascii) : chr_eqb a a = true.
Proof. now apply chr_eqb_true. Qed.

Lemma contains_here (p s : str) : startswith p s = true -> contains p s = true.
Proof. intros H. destruct s; simpl in *; now rewrite H. Qed.

Lemma contains_later (p q s : str) : contains p s = true -> contains p (q ++ s) = true.
Proof.
  intros H. induction q as [|a q IH]; [exact H|].
  cbn [app contains]. rewrite IH. apply orb_true_r.
Qed.

Lemma contains_suffix (a b s : str) :
  contains (a ++ b) s = true -> contains b s = true.
Proof.
  induction s as [|c s IH]; intros H; cbn [contains] in H.
  - rewrite orb_false_r in H. destruct a; [|discriminate].
    cbn [contains]. now rewrite orb_false_r.
  - apply orb_true_iff in H. destruct H as [H | H].
    + apply startswith_split in H. rewrite H, <- app_assoc.
      apply contains_later, contains_here, startswith_app.
    + apply (contains_later b [c]). now apply IH.
Qed.

Lemma not_made_tail (w : str) (y a : ascii) (p : str) :
  not_made w y (a :: p) = true -> not_made w y p = true.
Proof. cbn [not_made]. intros H. now apply andb_true_iff in H. Qed.

(** A replacement of a word between spaces by a symbol between spaces
    makes no occurrence of a pattern that starts with a space. *)
Lemma substitute_makes_no_pattern (w : str) (y b : ascii) (p : str) :
  not_made w y (blank :: b :: p) = true ->
  chr_eqb blank y = false ->
  forall n u, (List.length u < n)%nat ->
    contains (blank :: b :: p) (sub_word w y u) = true ->
    contains (blank :: b :: p) u = true.
Proof.
  intros Hp Hy. induction n as [|n IH]; intros u Hn H; [lia|].
  destruct u as [|c u]; [discriminate H|].
  destruct (startswith (spaced_word w) (c :: u)) eqn:E.
  - pose proof (startswith_split _ _ E) as Eu.
    set (t := drop (List.length (spaced_word w)) (c :: u)) in *.
    assert (Ht : (List.length t < n)%nat).
    { apply (f_equal (@List.length ascii)) in Eu. rewrite length_app in Eu.
      unfold spaced_word in Eu. simpl in Eu. simpl in Hn. lia. }
    rewrite Eu in H |- *. rewrite substitute_match in H by discriminate.
    cbn [spaced_symbol app contains] in H.
    apply orb_true_iff in H. destruct H as [H | H].
    + exfalso. cbn [startswith] in H. rewrite chr_eqb_refl in H. cbn [andb] in H.
      pose proof Hp as Hp'. cbn [not_made] in Hp'. rewrite chr_eqb_refl in Hp'.
      apply andb_true_iff in Hp'. destruct Hp' as [Hc _].
      apply andb_true_iff in Hc. destruct Hc as [Hc _].
      change (y :: blank :: sub_word w y t) with ([y; blank] ++ sub_word w y t) in H.
      change (chr_eqb b y && startswith p (blank :: sub_word w y t))
        with (startswith (b :: p) ([y; blank] ++ sub_word w y t)) in H.
      rewrite differ_startswith in H by assumption. discriminate.
    + apply orb_true_iff in H. destruct H as [H | H].
      * exfalso. cbn [startswith] in H. rewrite Hy in H. discriminate.
      * apply orb_true_iff in H. destruct H as [H | H].
        -- cbn [startswith] in H. rewrite chr_eqb_refl in H. cbn [andb] in H.
           change (chr_eqb b ?x && startswith p ?r)
             with (startswith (b :: p) (x :: r)) in H.
           rewrite spaced_word_app. apply (contains_later _ (blank :: w)).
           apply contains_here. cbn [startswith]. rewrite chr_eqb_refl. cbn [andb].
           rewrite <- H. symmetry.
           apply (substitute_keeps_pattern w y (b :: p) (not_made_tail _ _ _ _ Hp)).
        -- apply contains_later. now apply IH.
  - rewrite substitute_nomatch in H by assumption. cbn [contains] in H |- *.
    apply orb_true_iff in H. destruct H as [H | H].
    + rewrite <- (substitute_nomatch _ _ _ _ E) in H.
      rewrite (substitute_keeps_pattern w y _ Hp) in H. now rewrite H.
    + rewrite (IH u) by (simpl in Hn; lia || assumption). apply orb_true_r.
Qed.

(** *** The two orders *)

Lemma word_replace_commute (w1 : string) (y1 : ascii) (w2 : string) (y2 : ascii) :
  differ (lit w1 ++ [blank]) (lit w2 ++ [blank]) = true ->
  differ (lit w2 ++ [blank]) (lit w1 ++ [blank]) = true ->
  differ (lit w1 ++ [blank]) [y2; blank] = true ->
  differ (lit w2 ++ [blank]) [y1; blank] = true ->
  starts_nowhere (spaced_word (lit w1)) (lit w2) = true ->
  starts_nowhere (spaced_word (lit w2)) (lit w1) = true ->
  starts_nowhere (spaced_word (lit w1)) [y2] = true ->
  starts_nowhere (spaced_word (lit w2)) [y1] = true ->
  not_made (lit w1) y1 (lit w2 ++ [blank]) = true ->
  not_made (lit w2) y2 (lit w1 ++ [blank]) = true ->
  forall s, word_replace w1 y1 (word_replace w2 y2 s)
            = word_replace w2 y2 (word_replace w1 y1 s).
Proof. intros. unfold word_replace. now apply replacements_commute. Qed.

(** The entries with spaced symbols make no [" power of "]; and where
    there is none, the two entries for powers change nothing. *)
Lemma word_replace_no_power (w : string) (y : ascii) (s : str) :
  not_made (lit w) y power_phrase = true ->
  chr_eqb blank y = false ->
  contains power_phrase s = false ->
  contains power_phrase (word_replace w y s) = false.
Proof.
  intros Hp Hy Hs.
  destruct (contains power_phrase (word_replace w y s)) eqn:E; [|reflexivity].
  rewrite <- Hs. symmetry.
  exact (substitute_makes_no_pattern (lit w) y "p"%char (lit "ower of ") Hp Hy
           (S (List.length s)) s (Nat.lt_succ_diag_r _) E).
Qed.

Lemma power_replacements_absent (s : str) :
  contains power_phrase s = false ->
  replace power_phrase (lit "**") (replace (lit " to the power of ") (lit "**") s) = s.
Proof.
  intros H.
  assert (H' : contains (lit " to the power of ") s = false).
  { destruct (contains (lit " to the power of ") s) eqn:E; [|reflexivity].
    rewrite <- H. symmetry. exact (contains_suffix (lit " to the") power_phrase s E). }
  rewrite (replace_absent _ _ _ H'). now apply replace_absent.
Qed.

(** The two tables, entry by entry. *)
Lemma source_order (s : str) :
  replace_all replacements s =
    replace power_phrase (lit "**") (replace (lit " to the power of ") (lit "**")
      (word_replace "modulo" "%" (word_replace "mod" "%"
      (word_replace "over" "/" (word_replace "divided by" "/"
      (word_replace "multiplied by" "*" (word_replace "times" "*"
      (word_replace "minus" "-" (word_replace "plus" "+" s))))))))).
Proof. reflexivity. Qed.

Lemma spec_order (s : str) :
  replace_all spec_replacements s =
    word_replace "mod" "%" (word_replace "modulo" "%"
      (word_replace "over" "/" (word_replace "times" "*"
      (word_replace "minus" "-" (word_replace "plus" "+"
      (replace power_phrase (lit "**") (replace (lit " to the power of ") (lit "**")
      (word_replace "divided by" "/" (word_replace "multiplied by" "*" s))))))))).
Proof. reflexivity. Qed.

Ltac no_power := repeat (apply word_replace_no_power; [reflexivity | reflexivity |]).
Ltac commute w1 y1 w2 y2 :=
  rewrite (word_replace_commute w1 y1 w2 y2
             eq_refl eq_refl eq_refl eq_refl eq_refl
             eq_refl eq_refl eq_refl eq_refl eq_refl).

(** Where the padded text holds no [" power of "], the order of the
    source and the order of the specification give the same text. *)
Lemma orders_agree_without_power (s : str) :
  contains power_phrase s = false ->
  replace_all replacements s = replace_all spec_replacements s.
Proof.
  intros H. rewrite source_order, spec_order.
  rewrite !power_replacements_absent by (no_power; exact H).
  commute "multiplied by"%string "*"%char "times"%string "*"%char.
  commute "multiplied by"%string "*"%char "minus"%string "-"%char.
  commute "multiplied by"%string "*"%char "plus"%string "+"%char.
  commute "divided by"%string "/"%char "times"%string "*"%char.
  commute "divided by"%string "/"%char "minus"%string "-"%char.
  commute "divided by"%string "/"%char "plus"%string "+"%char.
  commute "modulo"%string "%"%char "mod"%string "%"%char.
  reflexivity.
Qed.

Lemma normalize_agrees_without_power (text : str) :
  contains (lit " power of ") (lit " " ++ text ++ lit " ") = false ->
  normalize text = spec_normalize text.
Proof.
  intros H. unfold normalize, spec_normalize.
  now rewrite orders_agree_without_power.
Qed.

Set Implicit Arguments.

(** C7, amended. The normaliser pads the text with one space on either
    side, applies the ten replacements one after the other in the order
    of the source's table (plus, minus, times, multiplied by, divided by,
    over, mod, modulo, to the power of, power of), each to the
    occurrences found from the left that do not overlap, and trims: the
    result is a trimmed text, and a text in which no phrase stands
    between spaces (or the ends of the text) is only trimmed. The order
    in which the specification lists the table gives the same text
    whenever the padded text holds no [" power of "]. *)
Theorem normalize_applies_source_order (text : str) :
  normalize text =
    strip
      (replace (lit " power of ") (lit "**")
      (replace (lit " to the power of ") (lit "**")
      (replace (lit " modulo ") (lit " % ")
      (replace (lit " mod ") (lit " % ")
      (replace (lit " over ") (lit " / ")
      (replace (lit " divided by ") (lit " / ")
      (replace (lit " multiplied by ") (lit " * ")
      (replace (lit " times ") (lit " * ")
      (replace (lit " minus ") (lit " - ")
      (replace (lit " plus ") (lit " + ")
         (lit " " ++ text ++ lit " ")))))))))))
  /\ trimmed (normalize text)
  /\ (forallb (fun kv => negb (contains (fst kv) (lit " " ++ text ++ lit " ")))
              replacements = true ->
      normalize text = strip text)
  /\ (contains (lit " power of ") (lit " " ++ text ++ lit " ") = false ->
      normalize text = spec_normalize text).
Proof.
  split; [reflexivity|]. split; [|split].
  - unfold normalize. apply strip_trimmed.
  - apply normalize_untouched.
  - apply normalize_agrees_without_power.
Qed.

Lemma normalize_applies_source_order_witness :
  forallb (fun kv => negb (contains (fst kv)
             (lit " " ++ lit " surplus overtime " ++ lit " ")))
          replacements = true
  /\ normalize (lit " surplus overtime ") = lit "surplus overtime"
  /\ normalize (lit "two plus 2 mod 3") = lit "two + 2 % 3"
  /\ contains (lit " power of ")
       (lit " " ++ lit "6 times 7 multiplied by 2 mod 3 modulo 4" ++ lit " ") = false
  /\ spec_normalize (lit "6 times 7 multiplied by 2 mod 3 modulo 4")
     = lit "6 * 7 * 2 % 3 % 4".
Proof.
  assert (H : forallb (fun kv => negb (contains (fst kv)
                 (lit " " ++ lit " surplus overtime " ++ lit " ")))
              replacements = true) by (vm_compute; reflexivity).
  assert (P : contains (lit " power of ")
                (lit " " ++ lit "6 times 7 multiplied by 2 mod 3 modulo 4" ++ lit " ")
              = false) by (vm_compute; reflexivity).
  split; [exact H|]. split; [|split; [|split; [exact P|]]].
  - rewrite (proj1 (proj2 (proj2 (normalize_applies_source_order
                                    (lit " surplus overtime ")))) H).
    vm_compute. reflexivity.
  - rewrite (proj1 (normalize_applies_source_order (lit "two plus 2 mod 3"))).
    vm_compute. reflexivity.
  - rewrite <- (proj2 (proj2 (proj2 (normalize_applies_source_order
                   (lit "6 times 7 multiplied by 2 mod 3 modulo 4")))) P).
    vm_compute. reflexivity.
Defined.

(** If [sub] occurs in [s], every character of [sub] is one of [s]. *)
Lemma contains_In (sub s : str) (c : ascii) :
  contains sub s = true -> In c sub -> In c s.
Proof.
  induction s as [|x s IH]; intros H Hc; cbn [contains] in H.
  - rewrite orb_false_r in H. destruct sub; [destruct Hc | discriminate].
  - apply orb_true_iff in H. destruct H as [H | H].
    + apply startswith_split in H. rewrite H. apply in_or_app. now left.
    + right. now apply IH.
Qed.

Lemma contains_foreign_char (sub s : str) :
  forallb (fun ch => mem ch allowed_chars) s = true ->
  existsb (fun ch => negb (mem ch allowed_chars)) sub = true ->
  contains sub s = false.
Proof.
  intros Hs Hsub. destruct (contains sub s) eqn:E; [|reflexivity].
  apply existsb_exists in Hsub. destruct Hsub as [c [Hc Hn]].
  rewrite forallb_forall in Hs.
  rewrite (Hs c (contains_In _ _ c E Hc)) in Hn. discriminate.
Qed.

Lemma padded_allowed (text : str) :
  forallb (fun ch => mem ch allowed_chars) text = true ->
  forallb (fun ch => mem ch allowed_chars) (lit " " ++ text ++ lit " ") = true.
Proof.
  intros H. rewrite !forallb_app, H. reflexivity.
Qed.

(** Every spoken phrase of the table holds a letter, which the gate does
    not let through. *)
Lemma phrases_hold_a_letter :
  forallb (fun kv => existsb (fun ch => negb (mem ch allowed_chars)) (fst kv))
          replacements = true.
Proof. reflexivity. Qed.

Lemma no_phrase_in_allowed (s : str) :
  forallb (fun ch => mem ch allowed_chars) s = true ->
  forallb (fun kv => negb (contains (fst kv) s)) replacements = true.
Proof.
  intros Hs. pose proof phrases_hold_a_letter as P.
  rewrite forallb_forall in P. apply forallb_forall. intros kv Hkv.
  rewrite (contains_foreign_char (fst kv) s Hs (P kv Hkv)). reflexivity.
Qed.

(** A text of allowed characters is only trimmed. *)
Lemma normalize_symbolic (text : str) :
  forallb (fun ch => mem ch allowed_chars) text = true ->
  normalize text = strip text.
Proof.
  intros H. apply normalize_untouched.
  now apply no_phrase_in_allowed, padded_allowed.
Qed.






(** ** The command handler *)

Section Handler.

Variable wikipedia_summary : str -> option str.
Variable duckduckgo_instant_answer : str -> option str.

Local Abbreviation handle := (handle_user_command wikipedia_summary duckduckgo_instant_answer).
Local Abbreviation rules := (definition_rules wikipedia_summary duckduckgo_instant_answer).
Local Abbreviation lookup := (lookup_definition wikipedia_summary duckduckgo_instant_answer).

Lemma definition_rules_result (text : str) : snd (rules text) = None.
Proof.
  unfold definition_rules.
  destruct (prefixed_term definition_prefixes text) as [[|c term]|].
  - reflexivity.
  - destruct (lookup (c :: term)). reflexivity.
  - destruct (List.length (split text) <=? 3)%nat; [|reflexivity].
    destruct (lookup text) as [looked [[|c d]|]]; reflexivity.
Qed.

Lemma definition_rules_eta (text : str) : rules text = (fst (rules text), None).
Proof.
  rewrite <- (definition_rules_result text). now destruct (rules text).
Qed.

(** The handler past its first three rules, when the arithmetic is
    tried (line 238). *)
Lemma handle_arithmetic (command_text : str) :
  command_text <> [] ->
  no_exit_or_site (lower (strip command_text)) = true ->
  looks_arithmetic (lower (strip command_text)) = true ->
  handle command_text =
    (tried <- arithmetic_attempt (expression_of (lower (strip command_text))) ;;
     match tried with
     | Answered pretty => Returns ([Speak (TheResultIs pretty)], None)
     | Failed e =>
         Returns (Print (CouldntEvaluate
                           (expression_of (lower (strip command_text))) e)
                    :: fst (rules (lower (strip command_text))), None)
     | Unsafe =>
         Returns (Print (UnsafeCharacters
                           (expression_of (lower (strip command_text))))
                    :: fst (rules (lower (strip command_text))), None)
     end).
Proof.
  intros Hne Hearly Harith. unfold handle_user_command.
  destruct command_text as [|c0 cs]; [congruence|].
  set (text := lower (strip (c0 :: cs))) in *.
  unfold no_exit_or_site in Hearly.
  apply andb_true_iff in Hearly. destruct Hearly as [Hearly Hg].
  apply andb_true_iff in Hearly. destruct Hearly as [He Hy].
  apply negb_true_iff in He, Hy, Hg. rewrite He, Hy, Hg, Harith.
  destruct (arithmetic_attempt (expression_of text)) as [[p|e|]|e|]; simpl;
    try reflexivity; rewrite (definition_rules_eta text); reflexivity.
Qed.

(** The handler when the arithmetic is not tried. *)
Lemma handle_no_arithmetic (command_text : str) :
  command_text <> [] ->
  no_exit_or_site (lower (strip command_text)) = true ->
  looks_arithmetic (lower (strip command_text)) = false ->
  handle command_text = Returns (rules (lower (strip command_text))).
Proof.
  intros Hne Hearly Harith. unfold handle_user_command.
  destruct command_text as [|c0 cs]; [congruence|].
  set (text := lower (strip (c0 :: cs))) in *.
  unfold no_exit_or_site in Hearly.
  apply andb_true_iff in Hearly. destruct Hearly as [Hearly Hg].
  apply andb_true_iff in Hearly. destruct Hearly as [He Hy].
  apply negb_true_iff in He, Hy, Hg. rewrite He, Hy, Hg, Harith.
  reflexivity.
Qed.


End Handler.

(** ** Division by zero *)

(** A division or a remainder by an [int] zero raises
    [ZeroDivisionError], whatever number the dividend is. *)
Lemma zero_divisor_raises (l r : expr) (v : value) :
  _eval l = Returns v ->
  _eval r = Returns (VInt 0) ->
  _eval (BinOp l Div r) = Raises ZeroDivisionError
  /\ _eval (BinOp l Mod r) = Raises ZeroDivisionError.
Proof.
  intros Hl Hr. cbn [_eval]. rewrite Hl, Hr. simpl.
  destruct v as [z|f]; simpl; [now split|].
  split; reflexivity.
Qed.


(** ** Arithmetic before definitions *)

(** C4. The arithmetic rule (line 238) comes before the definition
    prefixes (line 280): ["what is 23 times 7"] starts with the prefix
    ["what is "], whose term would be ["23 times 7"], but the handler
    evaluates ["23 * 7"] and says that the result is 161, with no lookup;
    and whenever the attempt at arithmetic gives an answer, the answer is
    all that the handler says. *)
Theorem arithmetic_before_definition
    (wikipedia_summary duckduckgo_instant_answer : str -> option str) :
  prefixed_term definition_prefixes (lit "what is 23 times 7")
    = Some (lit "23 times 7")
  /\ expression_of (lit "what is 23 times 7") = lit "23 * 7"
  /\ safe_eval (lit "23 * 7") = Returns (VInt 161)
  /\ handle_user_command wikipedia_summary duckduckgo_instant_answer
       (lit "what is 23 times 7")
     = Returns ([Speak (TheResultIs (Digits (lit "161")))], None)
  /\ (forall command_text pretty,
        command_text <> [] ->
        no_exit_or_site (lower (strip command_text)) = true ->
        looks_arithmetic (lower (strip command_text)) = true ->
        arithmetic_attempt (expression_of (lower (strip command_text)))
          = Returns (Answered pretty) ->
        handle_user_command wikipedia_summary duckduckgo_instant_answer command_text
          = Returns ([Speak (TheResultIs pretty)], None)).
Proof.
  split; [vm_compute; reflexivity|].
  split; [vm_compute; reflexivity|].
  split; [vm_compute; reflexivity|].
  assert (G : forall command_text pretty,
        command_text <> [] ->
        no_exit_or_site (lower (strip command_text)) = true ->
        looks_arithmetic (lower (strip command_text)) = true ->
        arithmetic_attempt (expression_of (lower (strip command_text)))
          = Returns (Answered pretty) ->
        handle_user_command wikipedia_summary duckduckgo_instant_answer command_text
          = Returns ([Speak (TheResultIs pretty)], None)).
  { intros command_text pretty Hne He Ha Hp.
    rewrite handle_arithmetic by assumption. rewrite Hp. reflexivity. }
  split; [|exact G].
  apply G; [discriminate | vm_compute; reflexivity ..].
Qed.

Lemma arithmetic_before_definition_witness :
  no_exit_or_site (lower (strip (lit "Calculate 6 times 7"))) = true
  /\ looks_arithmetic (lower (strip (lit "Calculate 6 times 7"))) = true
  /\ arithmetic_attempt (expression_of (lower (strip (lit "Calculate 6 times 7"))))
       = Returns (Answered (Digits (lit "42")))
  /\ handle_user_command offline offline (lit "Calculate 6 times 7")
       = Returns ([Speak (TheResultIs (Digits (lit "42")))], None).
Proof.
  assert (H1 : no_exit_or_site (lower (strip (lit "Calculate 6 times 7"))) = true)
    by (vm_compute; reflexivity).
  assert (H2 : looks_arithmetic (lower (strip (lit "Calculate 6 times 7"))) = true)
    by (vm_compute; reflexivity).
  assert (H3 : arithmetic_attempt
                 (expression_of (lower (strip (lit "Calculate 6 times 7"))))
               = Returns (Answered (Digits (lit "42"))))
    by (vm_compute; reflexivity).
  assert (H0 : lit "Calculate 6 times 7" <> []) by discriminate.
  split; [exact H1|]. split; [exact H2|]. split; [exact H3|].
  exact (proj2 (proj2 (proj2 (proj2
           (arithmetic_before_definition offline offline))))
           (lit "Calculate 6 times 7") (Digits (lit "42")) H0 H1 H2 H3).
Defined.

(** ** Falling through to the definition rules *)

(** C5. When the arithmetic is tried (line 238) and the expression does
    not pass the gate of characters, or passes it and [safe_eval] raises,
    the handler prints its report and goes on with the definition rules
    of lines 280-307 on the whole text. In particular
    ["what is the moon"] is tried as arithmetic, ["the moon"] does not
    pass the gate, the prefix ["what is "] and the article ["the "] are
    cut off and the term that is searched and looked up is ["moon"]. *)
Theorem failed_arithmetic_falls_through
    (wikipedia_summary duckduckgo_instant_answer : str -> option str) :
  (forall command_text,
      command_text <> [] ->
      no_exit_or_site (lower (strip command_text)) = true ->
      looks_arithmetic (lower (strip command_text)) = true ->
      (forallb (fun ch => mem ch allowed_chars)
               (expression_of (lower (strip command_text))) = false ->
       handle_user_command wikipedia_summary duckduckgo_instant_answer command_text
       = Returns
           (Print (UnsafeCharacters (expression_of (lower (strip command_text))))
              :: fst (definition_rules wikipedia_summary duckduckgo_instant_answer
                        (lower (strip command_text))),
            None))
      /\ (forall e,
           forallb (fun ch => mem ch allowed_chars)
                   (expression_of (lower (strip command_text))) = true ->
           safe_eval (expression_of (lower (strip command_text))) = Raises e ->
           handle_user_command wikipedia_summary duckduckgo_instant_answer command_text
           = Returns
               (Print (CouldntEvaluate (expression_of (lower (strip command_text))) e)
                  :: fst (definition_rules wikipedia_summary duckduckgo_instant_answer
                            (lower (strip command_text))),
                None)))
  /\ looks_arithmetic (lit "what is the moon") = true
  /\ prefixed_term definition_prefixes (lit "what is the moon") = Some (lit "moon")
  /\ handle_user_command wikipedia_summary duckduckgo_instant_answer
       (lit "what is the moon")
     = Returns
         ([ Print (UnsafeCharacters (lit "the moon"));
            Speak (SearchingFor (lit "moon"));
            SpeakQuietly (LetMeLookThatUp (lit "moon"));
            Speak (match (if truthy (wikipedia_summary (lit "moon"))
                          then wikipedia_summary (lit "moon")
                          else duckduckgo_instant_answer (lit "moon")) with
                   | Some (c :: d) => Found (c :: d)
                   | _ => NoShortDefinition
                   end) ],
          None).
Proof.
  assert (G : forall command_text,
      command_text <> [] ->
      no_exit_or_site (lower (strip command_text)) = true ->
      looks_arithmetic (lower (strip command_text)) = true ->
      (forallb (fun ch => mem ch allowed_chars)
               (expression_of (lower (strip command_text))) = false ->
       handle_user_command wikipedia_summary duckduckgo_instant_answer command_text
       = Returns
           (Print (UnsafeCharacters (expression_of (lower (strip command_text))))
              :: fst (definition_rules wikipedia_summary duckduckgo_instant_answer
                        (lower (strip command_text))),
            None))
      /\ (forall e,
           forallb (fun ch => mem ch allowed_chars)
                   (expression_of (lower (strip command_text))) = true ->
           safe_eval (expression_of (lower (strip command_text))) = Raises e ->
           handle_user_command wikipedia_summary duckduckgo_instant_answer command_text
           = Returns
               (Print (CouldntEvaluate (expression_of (lower (strip command_text))) e)
                  :: fst (definition_rules wikipedia_summary duckduckgo_instant_answer
                            (lower (strip command_text))),
                None))).
  { intros command_text Hne He Ha. split.
    - intros Hg. rewrite handle_arithmetic by assumption.
      unfold arithmetic_attempt, guarded_attempt. rewrite Hg. reflexivity.
    - intros e Hg Hs. rewrite handle_arithmetic by assumption.
      unfold arithmetic_attempt, guarded_attempt. rewrite Hg, Hs. reflexivity. }
  split; [exact G|].
  split; [vm_compute; reflexivity|].
  split; [vm_compute; reflexivity|].
  destruct (G (lit "what is the moon")) as [Hunsafe _];
    [discriminate | vm_compute; reflexivity | vm_compute; reflexivity |].
  rewrite Hunsafe by (vm_compute; reflexivity).
  evaluates (lower (strip (lit "what is the moon"))) (lit "what is the moon").
  evaluates (expression_of (lit "what is the moon")) (lit "the moon").
  unfold definition_rules.
  evaluates (prefixed_term definition_prefixes (lit "what is the moon"))
            (Some (lit "moon")).
  unfold lookup_definition.
  evaluates (strip (lit "moon")) (lit "moon").
  reflexivity.
Qed.

Lemma failed_arithmetic_falls_through_witness :
  no_exit_or_site (lower (strip (lit "What is the Moon"))) = true
  /\ looks_arithmetic (lower (strip (lit "What is the Moon"))) = true
  /\ forallb (fun ch => mem ch allowed_chars)
             (expression_of (lower (strip (lit "What is the Moon")))) = false
  /\ handle_user_command offline offline (lit "What is the Moon")
     = Returns
         (Print (UnsafeCharacters
                   (expression_of (lower (strip (lit "What is the Moon")))))
            :: fst (definition_rules offline offline
                      (lower (strip (lit "What is the Moon")))),
          None).
Proof.
  assert (H0 : lit "What is the Moon" <> []) by discriminate.
  assert (H1 : no_exit_or_site (lower (strip (lit "What is the Moon"))) = true)
    by (vm_compute; reflexivity).
  assert (H2 : looks_arithmetic (lower (strip (lit "What is the Moon"))) = true)
    by (vm_compute; reflexivity).
  assert (H3 : forallb (fun ch => mem ch allowed_chars)
                 (expression_of (lower (strip (lit "What is the Moon")))) = false)
    by (vm_compute; reflexivity).
  split; [exact H1|]. split; [exact H2|]. split; [exact H3|].
  exact (proj1 (proj1 (failed_arithmetic_falls_through offline offline)
                  (lit "What is the Moon") H0 H1 H2) H3).
Defined.

(** ** The short fallback *)

Lemma lstrip_lower (s : str) : lstrip (lower s) = lower (lstrip s).
Proof.
  unfold lower. induction s as [|c s IH]; simpl; [reflexivity|].
  rewrite isspace_lower_chr. now destruct (isspace c).
Qed.

(** The text that the handler works on is trimmed. *)
Lemma handled_text_trimmed (command_text : str) :
  trimmed (lower (strip command_text)).
Proof.
  destruct (strip_trimmed command_text) as [Hl Hr]. split.
  - now rewrite lstrip_lower, Hl.
  - now rewrite rstrip_lower, Hr.
Qed.

(** With lookups that find nothing, the one-word text ["xyzzy"], which
    matches none of the earlier rules, is looked up and then answered
    with the sentence of line 306, the reply to what is not understood. *)
Lemma short_phrase_can_end_unknown :
  no_exit_or_site (lit "xyzzy") = true
  /\ looks_arithmetic (lit "xyzzy") = false
  /\ prefixed_term definition_prefixes (lit "xyzzy") = None
  /\ List.length (split (lit "xyzzy")) = 1%nat
  /\ handle_user_command offline offline (lit "xyzzy")
     = Returns ([SpeakQuietly (LetMeLookThatUp (lit "xyzzy"));
                 Speak SorryDidntUnderstand], None).
Proof. repeat split; vm_compute; reflexivity. Qed.

(** C6, amended. A text that matches none of the exit, open-site,
    arithmetic and definition-prefix rules and has at most three words is
    looked up whole (line 300); the definition is spoken if the lookup
    finds one that is not empty, and otherwise the handler says the
    sentence of line 306, as for a text that it does not understand. An
    empty text is not looked up. *)
Theorem short_phrase_is_looked_up
    (wikipedia_summary duckduckgo_instant_answer : str -> option str)
    (command_text : str) :
  command_text <> [] ->
  no_exit_or_site (lower (strip command_text)) = true ->
  looks_arithmetic (lower (strip command_text)) = false ->
  prefixed_term definition_prefixes (lower (strip command_text)) = None ->
  (List.length (split (lower (strip command_text))) <= 3)%nat ->
  handle_user_command wikipedia_summary duckduckgo_instant_answer command_text
  = Returns
      (match lower (strip command_text) with
       | [] => [Speak SorryDidntUnderstand]
       | text =>
           [ SpeakQuietly (LetMeLookThatUp text);
             Speak (match (if truthy (wikipedia_summary text)
                           then wikipedia_summary text
                           else duckduckgo_instant_answer text) with
                    | Some (c :: d) => Found (c :: d)
                    | _ => SorryDidntUnderstand
                    end) ]
       end,
       None).
Proof.
  intros Hne Hearly Harith Hprefix Hwords.
  rewrite handle_no_arithmetic by assumption.
  pose proof (strip_of_trimmed (handled_text_trimmed command_text)) as Hstrip.
  unfold definition_rules. rewrite Hprefix.
  apply Nat.leb_le in Hwords. rewrite Hwords.
  unfold lookup_definition. rewrite Hstrip.
  destruct (lower (strip command_text)) as [|c0 text]; [reflexivity|].
  destruct (if truthy (wikipedia_summary (c0 :: text))
            then wikipedia_summary (c0 :: text)
            else duckduckgo_instant_answer (c0 :: text)) as [[|c d]|];
    reflexivity.
Qed.

Lemma short_phrase_is_looked_up_witness :
  no_exit_or_site (lower (strip (lit " Xyzzy "))) = true
  /\ looks_arithmetic (lower (strip (lit " Xyzzy "))) = false
  /\ prefixed_term definition_prefixes (lower (strip (lit " Xyzzy "))) = None
  /\ (List.length (split (lower (strip (lit " Xyzzy ")))) <= 3)%nat
  /\ handle_user_command offline knows_xyzzy (lit " Xyzzy ")
     = Returns ([SpeakQuietly (LetMeLookThatUp (lit "xyzzy"));
                 Speak (Found (lit "a magic word"))], None).
Proof.
  assert (H0 : lit " Xyzzy " <> []) by discriminate.
  assert (H1 : no_exit_or_site (lower (strip (lit " Xyzzy "))) = true)
    by (vm_compute; reflexivity).
  assert (H2 : looks_arithmetic (lower (strip (lit " Xyzzy "))) = false)
    by (vm_compute; reflexivity).
  assert (H3 : prefixed_term definition_prefixes (lower (strip (lit " Xyzzy "))) = None)
    by (vm_compute; reflexivity).
  assert (H4 : (List.length (split (lower (strip (lit " Xyzzy ")))) <= 3)%nat)
    by (vm_compute; lia).
  split; [exact H1|]. split; [exact H2|]. split; [exact H3|]. split; [exact H4|].
  exact (short_phrase_is_looked_up offline knows_xyzzy H0 H1 H2 H3 H4).
Defined.

(** ** The term of a prefixed definition is never empty *)

Lemma ends_with_space_split (a : str) :
  ends_with_space a = true ->
  exists p sp, a = p ++ [sp] /\ isspace sp = true.
Proof.
  unfold ends_with_space. intros H.
  destruct (rev a) as [|sp r] eqn:E; [discriminate|].
  exists (rev r), sp. split; [|assumption].
  rewrite <- (rev_involutive a), E. reflexivity.
Qed.

Lemma rstrip_space_end (p : str) (sp : ascii) :
  isspace sp = true -> rstrip (p ++ [sp]) = rstrip p.
Proof. intros H. rewrite rstrip_app. simpl. now rewrite H. Qed.

(** Cutting a prefix that ends in white space off a text that does not
    leaves a text that is not empty. *)
Lemma cut_prefix_ends_well (a t : str) :
  ends_with_space a = true ->
  rstrip t = t ->
  startswith a t = true ->
  ends_well (drop (List.length a) t).
Proof.
  intros Ha Ht Hs.
  destruct (ends_with_space_split a Ha) as [p [sp [Ea Hsp]]].
  pose proof (startswith_split a t Hs) as Et.
  set (r := drop (List.length a) t) in *.
  rewrite Et, rstrip_app in Ht.
  destruct (rstrip r) as [|x xs] eqn:Er.
  - exfalso. rewrite Ea, rstrip_space_end in Ht by assumption.
    pose proof (rstrip_length p) as L. rewrite Ht in L.
    rewrite !length_app in L. simpl in L. lia.
  - apply app_inv_head in Ht. split.
    + intros Hr. rewrite Hr in Ht. discriminate.
    + rewrite <- Ht at 2. exact Er.
Qed.

Lemma strip_ends_well (r : str) : ends_well r -> ends_well (strip r).
Proof.
  intros [Hne Hr]. unfold strip.
  assert (G : lstrip r <> [] /\ rstrip (lstrip r) = lstrip r).
  { induction r as [|c r IH]; [congruence|].
    simpl. destruct (isspace c) eqn:Ec.
    - simpl in Hr. destruct (rstrip r) as [|x xs] eqn:Er.
      + rewrite Ec in Hr. discriminate.
      + injection Hr as Hr. apply IH; [|exact Hr].
        intros E. rewrite E in Hr. discriminate.
    - split; [discriminate | exact Hr]. }
  destruct G as [G1 G2]. rewrite G2. split; [exact G1 | exact G2].
Qed.

Lemma cut_article_ends_well (art t : str) :
  ends_with_space art = true ->
  ends_well t ->
  ends_well (if startswith art t then drop (List.length art) t else t).
Proof.
  intros Ha Ht. destruct (startswith art t) eqn:E; [|exact Ht].
  apply cut_prefix_ends_well; [assumption | apply Ht | assumption].
Qed.

Lemma cut_articles_ends_well (arts : list str) (t : str) :
  forallb ends_with_space arts = true ->
  ends_well t ->
  ends_well (fold_left
               (fun t art => if startswith art t then drop (List.length art) t else t)
               arts t).
Proof.
  revert t. induction arts as [|art arts IH]; intros t Ha Ht; [exact Ht|].
  simpl in Ha. apply andb_true_iff in Ha. destruct Ha as [Ha Hrest].
  simpl. apply IH; [exact Hrest|]. now apply cut_article_ends_well.
Qed.

Lemma strip_articles_ends_well (t : str) : ends_well t -> ends_well (strip_articles t).
Proof. apply cut_articles_ends_well. reflexivity. Qed.

Lemma prefixed_term_not_empty (prefixes : list str) (text : str) :
  forallb ends_with_space prefixes = true ->
  rstrip text = text ->
  prefixed_term prefixes text = None
  \/ exists c term, prefixed_term prefixes text = Some (c :: term).
Proof.
  intros Hp Ht. induction prefixes as [|prefix rest IH]; [now left|].
  simpl in Hp. apply andb_true_iff in Hp. destruct Hp as [Hp Hrest].
  simpl. destruct (startswith prefix text) eqn:E; [|now apply IH].
  right.
  destruct (@strip_articles_ends_well _
              (@strip_ends_well _ (@cut_prefix_ends_well prefix text Hp Ht E)))
    as [Hne _].
  destruct (strip_articles (strip (drop (List.length prefix) text))) as [|c term];
    [congruence|].
  now exists c, term.
Qed.

Lemma lookup_never_asks (wikipedia_summary duckduckgo_instant_answer : str -> option str)
    (term : str) :
  existsb asks_what_to_define
    (fst (lookup_definition wikipedia_summary duckduckgo_instant_answer term)) = false.
Proof. unfold lookup_definition. now destruct (strip term). Qed.

Lemma definition_rules_never_ask
    (wikipedia_summary duckduckgo_instant_answer : str -> option str) (text : str) :
  rstrip text = text ->
  existsb asks_what_to_define
    (fst (definition_rules wikipedia_summary duckduckgo_instant_answer text)) = false.
Proof.
  intros Ht. unfold definition_rules.
  destruct (@prefixed_term_not_empty definition_prefixes text eq_refl Ht)
    as [E | [c [term E]]]; rewrite E.
  - destruct (List.length (split text) <=? 3)%nat; [|reflexivity].
    pose proof (lookup_never_asks wikipedia_summary duckduckgo_instant_answer text) as L.
    destruct (lookup_definition wikipedia_summary duckduckgo_instant_answer text)
      as [looked [[|x d]|]]; simpl in *;
      rewrite existsb_app, L; reflexivity.
  - pose proof (lookup_never_asks wikipedia_summary duckduckgo_instant_answer (c :: term)) as L.
    destruct (lookup_definition wikipedia_summary duckduckgo_instant_answer (c :: term))
      as [looked defn]; simpl in *.
    rewrite existsb_app, L. now destruct defn as [[|x d]|].
Qed.

(** C10. The text that the handler classifies is stripped and lowered,
    and every definition prefix and every article ends in a space;
    so when a prefix starts the text the term that is left after the
    prefix and the articles is not empty, and the handler never asks
    "What would you like me to define?" (line 287). *)
Theorem prefixed_definition_term_is_not_empty
    (wikipedia_summary duckduckgo_instant_answer : str -> option str)
    (command_text : str) :
  (prefixed_term definition_prefixes (lower (strip command_text)) = None
   \/ exists c term,
        prefixed_term definition_prefixes (lower (strip command_text))
        = Some (c :: term))
  /\ existsb asks_what_to_define
       (events_of (handle_user_command wikipedia_summary duckduckgo_instant_answer
                     command_text)) = false.
Proof.
  pose proof (proj2 (handled_text_trimmed command_text)) as Ht.
  split; [now apply prefixed_term_not_empty|].
  pose proof (@definition_rules_never_ask wikipedia_summary duckduckgo_instant_answer
                (lower (strip command_text)) Ht) as R.
  unfold handle_user_command.
  destruct command_text as [|c0 cs]; [reflexivity|].
  set (text := lower (strip (c0 :: cs))) in *.
  destruct (existsb _ exit_words); [reflexivity|].
  destruct (_ || _); [reflexivity|].
  destruct (_ || _); [reflexivity|].
  destruct (looks_arithmetic text).
  - destruct (arithmetic_attempt (expression_of text)) as [[p|e|]|e|]; simpl;
      try reflexivity;
      destruct (definition_rules wikipedia_summary duckduckgo_instant_answer text);
      exact R.
  - simpl.
    destruct (definition_rules wikipedia_summary duckduckgo_instant_answer text);
      exact R.
Qed.

(** ** The wake word alone, then silence *)

Section Session.

Variable wikipedia_summary : str -> option str.
Variable duckduckgo_instant_answer : str -> option str.

Local Abbreviation loop := (run wikipedia_summary duckduckgo_instant_answer).
Local Abbreviation step := (main_step wikipedia_summary duckduckgo_instant_answer).

Lemma silent_step (n : nat) (h : heard) :
  silent h = true ->
  step (AwaitingFollowup (S n)) h = Returns (unanswered h, for_loop n).
Proof.
  unfold silent, unanswered, main_step. intros H.
  destruct (listen_from_mic h) as [evs [[|c f]|]]; simpl in *;
    [reflexivity | discriminate | reflexivity].
Qed.

(** [k] silent turns of a [for] loop with [n] iterations left, [k <= n]:
    each is answered with the sentence of line 339, and [n - k]
    iterations are left. *)
Lemma silent_turns (turns : list heard) :
  forall n,
    forallb silent turns = true ->
    (List.length turns <= n)%nat ->
    loop (for_loop n) turns
    = Returns (flat_map unanswered turns, for_loop (n - List.length turns)).
Proof.
  induction turns as [|h turns IH]; intros n Hs Hn.
  - simpl. now rewrite Nat.sub_0_r.
  - simpl in Hs. apply andb_true_iff in Hs. destruct Hs as [Hh Hs].
    destruct n as [|n]; [simpl in Hn; lia|].
    cbn [for_loop run]. rewrite (@silent_step n h Hh). cbn [bind].
    rewrite (IH n Hs) by (simpl in Hn; lia). reflexivity.
Qed.

Lemma wake_word_alone_step (text : str) :
  contains WAKE_WORD (lower text) = true ->
  strip (nth 1 (split1 WAKE_WORD (lower text)) []) = [] ->
  step Idle (Recognised text)
  = Returns ([Print ListeningReady; Print (You text); Speak YesWhatCanIHelpWith],
             for_loop MAX_RETRIES).
Proof.
  intros Hw Hafter. unfold main_step, idle_step. cbn [listen_from_mic].
  destruct (lower text) as [|c sp] eqn:E; [discriminate|].
  rewrite Hw, Hafter. reflexivity.
Qed.

Lemma run_cons (s : session) (h : heard) (turns : list heard)
    (evs evs' : list event) (s' s'' : session) :
  step s h = Returns (evs, s') ->
  loop s' turns = Returns (evs', s'') ->
  loop s (h :: turns) = Returns (evs ++ evs', s'').
Proof. intros H1 H2. cbn [run]. rewrite H1. cbn [bind]. rewrite H2. reflexivity. Qed.

End Session.

(** C9. At the head of the main loop, a recognised text that holds the
    wake word and nothing but white space after it makes the assistant
    say the prompt of line 329 and enter the [for] loop with
    [MAX_RETRIES] iterations; while fewer than [MAX_RETRIES] silent turns
    have passed the loop is still waiting, each silent turn being
    answered with the sentence of line 339; after [MAX_RETRIES] silent
    turns the main loop is back at its head, and besides the prompt and
    these sentences nothing was said, no command was handled, and
    nothing more is said. *)
Theorem wake_word_alone_then_silence
    (wikipedia_summary duckduckgo_instant_answer : str -> option str)
    (text : str) (turns : list heard) :
  contains WAKE_WORD (lower text) = true ->
  strip (nth 1 (split1 WAKE_WORD (lower text)) []) = [] ->
  forallb silent turns = true ->
  (List.length turns <= MAX_RETRIES)%nat ->
  run wikipedia_summary duckduckgo_instant_answer Idle (Recognised text :: turns)
  = Returns
      ([Print ListeningReady; Print (You text); Speak YesWhatCanIHelpWith]
         ++ flat_map unanswered turns,
       for_loop (MAX_RETRIES - List.length turns))
  /\ (List.length turns = MAX_RETRIES ->
      run wikipedia_summary duckduckgo_instant_answer Idle (Recognised text :: turns)
      = Returns
          ([Print ListeningReady; Print (You text); Speak YesWhatCanIHelpWith]
             ++ flat_map unanswered turns,
           Idle))
  /\ filter is_spoken (flat_map unanswered turns)
     = flat_map (fun h => filter is_spoken (fst (listen_from_mic h))
                          ++ [Speak DidntCatchThat]) turns.
Proof.
  intros Hw Hafter Hs Hn.
  assert (G : run wikipedia_summary duckduckgo_instant_answer Idle
                (Recognised text :: turns)
              = Returns
                  ([Print ListeningReady; Print (You text); Speak YesWhatCanIHelpWith]
                     ++ flat_map unanswered turns,
                   for_loop (MAX_RETRIES - List.length turns))).
  { apply run_cons with (s' := for_loop MAX_RETRIES).
    - now apply wake_word_alone_step.
    - now apply silent_turns. }
  split; [exact G|]. split.
  - intros Hlen. rewrite G, Hlen, Nat.sub_diag. reflexivity.
  - clear. induction turns as [|h turns IH]; [reflexivity|].
    cbn [flat_map]. rewrite filter_app, IH. unfold unanswered.
    rewrite filter_app. reflexivity.
Qed.

Lemma wake_word_alone_then_silence_witness :
  contains WAKE_WORD (lower (lit "Assistant")) = true
  /\ strip (nth 1 (split1 WAKE_WORD (lower (lit "Assistant"))) []) = []
  /\ forallb silent [WaitTimeout; UnknownValue] = true
  /\ (List.length [WaitTimeout; UnknownValue] <= MAX_RETRIES)%nat
  /\ run offline offline Idle [Recognised (lit "Assistant"); WaitTimeout; UnknownValue]
     = Returns
         ([ Print ListeningReady; Print (You (lit "Assistant"));
            Speak YesWhatCanIHelpWith;
            Print ListeningReady; Print NoSpeechDetected; Speak DidntCatchThat;
            Print ListeningReady; Print CouldntUnderstand; Speak DidntCatchThat ],
          Idle).
Proof.
  assert (H1 : contains WAKE_WORD (lower (lit "Assistant")) = true)
    by (vm_compute; reflexivity).
  assert (H2 : strip (nth 1 (split1 WAKE_WORD (lower (lit "Assistant"))) []) = [])
    by (vm_compute; reflexivity).
  assert (H3 : forallb silent [WaitTimeout; UnknownValue] = true)
    by (vm_compute; reflexivity).
  assert (H4 : (List.length [WaitTimeout; UnknownValue] <= MAX_RETRIES)%nat)
    by (vm_compute; lia).
  split; [exact H1|]. split; [exact H2|]. split; [exact H3|]. split; [exact H4|].
  exact (proj1 (wake_word_alone_then_silence offline offline
                  (lit "Assistant") [WaitTimeout; UnknownValue] H1 H2 H3 H4)).
Defined.

(** ** Exact values of expressions

    First, the text of an expression written in full parses to the tree
    of the expression; then the evaluator is exact on expressions of
    integers and not on floats. *)

Lemma safe_eval_parsed (text : str) (e : expr) :
  parse (strip (replace (lit ",") (lit "") text)) = Returns (Some e) ->
  safe_eval text = _eval e.
Proof.
  intros H. unfold safe_eval.
  destruct (strip (replace (lit ",") (lit "") text)) as [|c expr];
    [discriminate|].
  rewrite H. reflexivity.
Qed.

Lemma bind_emit_nil (o : outcome (option (list token))) :
  (r <- o ;; Returns (emit (Some []) r)) = o.
Proof. destruct o as [[ts|]|e|]; reflexivity. Qed.


Lemma digits_run (ds acc rest : str) :
  forallb is_ascii_digit ds = true ->
  tokenize_from (LInt acc) (ds ++ rest) = tokenize_from (LInt (rev ds ++ acc)) rest.
Proof.
  revert acc. induction ds as [|c ds IH]; intros acc H; [reflexivity|].
  simpl in H. apply andb_true_iff in H. destruct H as [Hc Hds].
  cbn [app tokenize_from]. unfold lex_step. rewrite Hc.
  rewrite bind_emit_nil, (IH (c :: acc) Hds).
  simpl. now rewrite <- app_assoc.
Qed.

Lemma tokenize_number (ds rest : str) :
  forallb is_ascii_digit ds = true ->
  valid_int_literal ds = true ->
  closes rest = true ->
  tokenize_from LStart (ds ++ rest)
  = prepend [NUMBER (CInt (digits_value ds))] (tokenize_from LStart rest).
Proof.
  intros Hd Hv Hc. destruct ds as [|c ds]; [discriminate|].
  pose proof Hd as Hd'. simpl in Hd'. apply andb_true_iff in Hd'.
  destruct Hd' as [Hc0 Hds].
  cbn [app tokenize_from]. unfold lex_step at 1. rewrite Hc0.
  cbn [flush]. rewrite bind_emit_nil, (@digits_run ds [c] rest Hds).
  change (rev ds ++ [c]) with (rev (c :: ds)).
  set (n := c :: ds) in *.
  assert (F : flush (LInt (rev n)) = Some [NUMBER (CInt (digits_value n))]).
  { cbn [flush]. now rewrite rev_involutive, Hv. }
  destruct rest as [|x rest].
  - cbn [tokenize_from]. rewrite F. reflexivity.
  - simpl in Hc. apply orb_true_iff in Hc.
    destruct Hc as [Hx | Hx]; apply chr_eqb_true in Hx; subst x.
    + cbn [tokenize_from]. change (lex_step (LInt (rev n)) " ")
        with (Some (flush (LInt (rev n)), LStart)).
      change (lex_step LStart " ") with (Some (Some (@nil token), LStart)).
      rewrite F. destruct (tokenize_from LStart rest) as [[ts|]|e|]; reflexivity.
    + cbn [tokenize_from]. change (lex_step (LInt (rev n)) ")")
        with (Some (emit (flush (LInt (rev n))) (Some [RPAR]), LStart)).
      change (lex_step LStart ")") with (Some (Some [RPAR], LStart)).
      rewrite F. destruct (tokenize_from LStart rest) as [[ts|]|e|]; reflexivity.
Qed.

Lemma tokenize_operator (op : operator) (s : str) :
  tokenize_from LStart (lit " " ++ operator_text op ++ lit " " ++ s)
  = prepend [operator_token op] (tokenize_from LStart s).
Proof.
  destruct op; cbn; destruct (tokenize_from LStart s) as [[ts|]|e|]; reflexivity.
Qed.

Lemma tokenize_sign (op : unaryop) (s : str) :
  tokenize_from LStart (sign_text op ++ s)
  = prepend [sign_token op] (tokenize_from LStart s).
Proof.
  destruct op; cbn; destruct (tokenize_from LStart s) as [[ts|]|e|]; reflexivity.
Qed.






Lemma digit_allowed (c : ascii) :
  is_ascii_digit c = true -> mem c allowed_chars = true /\ isspace c = false.
Proof.
  destruct c as [[] [] [] [] [] [] [] []]; intros H;
    try discriminate H; split; reflexivity.
Qed.



Lemma rstrip_digits (ds : str) :
  forallb is_ascii_digit ds = true -> rstrip ds = ds.
Proof.
  induction ds as [|c ds IH]; intros H; [reflexivity|].
  simpl in H. apply andb_true_iff in H. destruct H as [Hc Hd].
  simpl. rewrite (IH Hd). destruct ds; [|reflexivity].
  now rewrite (proj2 (digit_allowed c Hc)).
Qed.










(** ** Further properties of the handler, the evaluator and the loop *)

(** X1. A command whose text holds one of the words exit, quit, stop,
    goodbye, bye, anywhere and in any case, makes the handler say goodbye
    and return ["exit"], before any other rule is looked at. *)
Theorem exit_words_end_the_session
    (wikipedia_summary duckduckgo_instant_answer : str -> option str) :
  (forall command_text,
      command_text <> [] ->
      existsb (fun word => contains word (lower (strip command_text))) exit_words
        = true ->
      handle_user_command wikipedia_summary duckduckgo_instant_answer command_text
      = Returns ([Speak Goodbye], Some (lit "exit")))
  /\ handle_user_command wikipedia_summary duckduckgo_instant_answer (lit "stop")
     = Returns ([Speak Goodbye], Some (lit "exit"))
  /\ handle_user_command wikipedia_summary duckduckgo_instant_answer (lit "exit now")
     = Returns ([Speak Goodbye], Some (lit "exit"))
  /\ handle_user_command wikipedia_summary duckduckgo_instant_answer (lit "goodbye")
     = Returns ([Speak Goodbye], Some (lit "exit"))
  /\ handle_user_command wikipedia_summary duckduckgo_instant_answer
       (lit "Calculate 2 plus 2 and stop")
     = Returns ([Speak Goodbye], Some (lit "exit")).
Proof.
  assert (G : forall command_text,
      command_text <> [] ->
      existsb (fun word => contains word (lower (strip command_text))) exit_words
        = true ->
      handle_user_command wikipedia_summary duckduckgo_instant_answer command_text
      = Returns ([Speak Goodbye], Some (lit "exit"))).
  { intros command_text Hne H. unfold handle_user_command.
    destruct command_text as [|c cs]; [congruence|]. now rewrite H. }
  split; [exact G|].
  repeat split; apply G; (discriminate || (vm_compute; reflexivity)).
Qed.

Lemma exit_words_end_the_session_witness :
  existsb (fun word => contains word (lower (strip (lit " Please QUIT "))))
          exit_words = true
  /\ handle_user_command offline offline (lit " Please QUIT ")
     = Returns ([Speak Goodbye], Some (lit "exit")).
Proof.
  assert (H0 : lit " Please QUIT " <> []) by discriminate.
  assert (H : existsb (fun word => contains word (lower (strip (lit " Please QUIT "))))
                exit_words = true) by (vm_compute; reflexivity).
  split; [exact H|].
  exact (proj1 (exit_words_end_the_session offline offline) _ H0 H).
Defined.

(** X8. An operator that is not in the table is refused once both
    operands are evaluated: floor division raises "Operator not
    allowed"; a call, an empty tuple and an ellipsis are refused as
    well. *)
Theorem only_the_table_is_executed (l r : expr) (a b : value) :
  _eval l = Returns a ->
  _eval r = Returns b ->
  _eval (BinOp l FloorDiv r) = Raises (ValueError OperatorNotAllowed)
  /\ (forall f x, _eval (Call f x) = Raises (ValueError DisallowedElements))
  /\ _eval Tuple = Raises (ValueError DisallowedElements)
  /\ _eval (Constant CEllipsis) = Raises (ValueError OnlyNumericConstants)
  /\ (forall op,
        lookup_operator (BinaryClass op) ALLOWED_OPERATORS = None <-> op = FloorDiv).
Proof.
  intros Hl Hr. split; [cbn [_eval]; rewrite Hl, Hr; reflexivity|].
  split; [reflexivity|]. split; [reflexivity|]. split; [reflexivity|].
  intros op. split.
  - destruct op; simpl; intros H; try discriminate H; reflexivity.
  - intros ->. reflexivity.
Qed.

Lemma only_the_table_is_executed_witness :
  safe_eval (lit "7 // 2") = Raises (ValueError OperatorNotAllowed)
  /\ safe_eval (lit "2(3)") = Raises (ValueError DisallowedElements)
  /\ safe_eval (lit "()") = Raises (ValueError DisallowedElements)
  /\ safe_eval (lit "...") = Raises (ValueError OnlyNumericConstants)
  /\ _eval (BinOp (Constant (CInt 7)) FloorDiv (Constant (CInt 2)))
     = Raises (ValueError OperatorNotAllowed).
Proof.
  split; [vm_compute; reflexivity|].
  split; [vm_compute; reflexivity|].
  split; [vm_compute; reflexivity|].
  split; [vm_compute; reflexivity|].
  exact (proj1 (@only_the_table_is_executed
                  (Constant (CInt 7)) (Constant (CInt 2)) (VInt 7) (VInt 2)
                  eq_refl eq_refl)).
Defined.

(** X13. At the head of the main loop a recognised text without the wake
    word is noted on the console and not handled, and a turn without
    speech changes nothing: the loop stays at its head and nothing is
    said by the loop itself. *)
Theorem without_wake_word_nothing_is_handled
    (wikipedia_summary duckduckgo_instant_answer : str -> option str)
    (text : str) (h : heard) :
  lower text <> [] ->
  contains WAKE_WORD (lower text) = false ->
  silent h = true ->
  main_step wikipedia_summary duckduckgo_instant_answer Idle (Recognised text)
  = Returns ([Print ListeningReady; Print (You text); Print WakeWordNotPresent], Idle)
  /\ main_step wikipedia_summary duckduckgo_instant_answer Idle h
     = Returns (fst (listen_from_mic h), Idle).
Proof.
  intros Hne Hw Hs. split.
  - unfold main_step, idle_step. cbn [listen_from_mic].
    destruct (lower text) as [|c sp]; [congruence|]. now rewrite Hw.
  - unfold main_step, idle_step, silent in *.
    destruct (listen_from_mic h) as [evs [[|c f]|]]; simpl in *;
      [reflexivity | discriminate | reflexivity].
Qed.

Lemma without_wake_word_nothing_is_handled_witness :
  lower (lit "What is 2 plus 2") <> []
  /\ contains WAKE_WORD (lower (lit "What is 2 plus 2")) = false
  /\ silent RequestError = true
  /\ main_step offline offline Idle (Recognised (lit "What is 2 plus 2"))
     = Returns ([Print ListeningReady; Print (You (lit "What is 2 plus 2"));
                 Print WakeWordNotPresent], Idle)
  /\ main_step offline offline Idle RequestError
     = Returns ([Print ListeningReady; Print SpeechServiceError;
                 Speak TroubleReachingService], Idle).
Proof.
  assert (H1 : lower (lit "What is 2 plus 2") <> []) by discriminate.
  assert (H2 : contains WAKE_WORD (lower (lit "What is 2 plus 2")) = false)
    by (vm_compute; reflexivity).
  assert (H3 : silent RequestError = true) by reflexivity.
  split; [exact H1|]. split; [exact H2|]. split; [exact H3|].
  exact (@without_wake_word_nothing_is_handled offline offline
           (lit "What is 2 plus 2") RequestError H1 H2 H3).
Defined.

Lemma lower_chr_idem (c : ascii) : lower_chr (lower_chr c) = lower_chr c.
Proof. destruct c as [[] [] [] [] [] [] [] []]; reflexivity. Qed.

Lemma lower_idem (s : str) : lower (lower s) = lower s.
Proof.
  unfold lower. rewrite map_map. apply map_ext. apply lower_chr_idem.
Qed.

Lemma strip_lower (s : str) : strip (lower s) = lower (strip s).
Proof. unfold strip. now rewrite lstrip_lower, rstrip_lower. Qed.

Lemma handled_text_fixed (command_text : str) :
  lower (strip (lower (strip command_text))) = lower (strip command_text).
Proof.
  rewrite (strip_of_trimmed (handled_text_trimmed command_text)).
  apply lower_idem.
Qed.

Section HandlerMore.

Variable wikipedia_summary : str -> option str.
Variable duckduckgo_instant_answer : str -> option str.

Local Abbreviation handle := (handle_user_command wikipedia_summary duckduckgo_instant_answer).
Local Abbreviation rules := (definition_rules wikipedia_summary duckduckgo_instant_answer).
Local Abbreviation lookup := (lookup_definition wikipedia_summary duckduckgo_instant_answer).

(** The handler on a command that is not empty, by the text it works
    on. *)
Lemma handle_by_text (command_text : str) :
  command_text <> [] ->
  handle command_text =
    let text := lower (strip command_text) in
    if has_exit_word text
    then Returns ([Speak Goodbye], Some (lit "exit"))
    else if asks_for_youtube text
    then Returns ([Speak OpeningYouTube; OpenBrowser (lit "https://www.youtube.com")], None)
    else if asks_for_google text
    then Returns ([Speak OpeningGoogle; OpenBrowser (lit "https://www.google.com")], None)
    else if looks_arithmetic text
    then tried <- arithmetic_attempt (expression_of text) ;;
         match tried with
         | Answered pretty => Returns ([Speak (TheResultIs pretty)], None)
         | Failed e =>
             Returns (Print (CouldntEvaluate (expression_of text) e) :: fst (rules text), None)
         | Unsafe =>
             Returns (Print (UnsafeCharacters (expression_of text)) :: fst (rules text), None)
         end
    else Returns (fst (rules text), None).
Proof.
  intros Hne. destruct command_text as [|c0 cs]; [congruence|].
  unfold handle_user_command, has_exit_word, asks_for_youtube, asks_for_google.
  cbv zeta. set (text := lower (strip (c0 :: cs))).
  destruct (existsb _ exit_words); [reflexivity|].
  destruct (_ || _); [reflexivity|].
  destruct (_ || _); [reflexivity|].
  destruct (looks_arithmetic text).
  - destruct (arithmetic_attempt (expression_of text)) as [[p|e|]|e|]; simpl;
      try reflexivity; rewrite (definition_rules_eta _ _ text); reflexivity.
  - rewrite (definition_rules_eta _ _ text). reflexivity.
Qed.

(** What the lookup prints: nothing for a blank term, the announcement
    otherwise. *)
Lemma lookup_events (term : str) :
  spoken (fst (lookup term)) = []
  /\ filter opens_browser (fst (lookup term)) = []
  /\ (List.length (filter is_lookup (fst (lookup term))) <= 1)%nat.
Proof. unfold lookup_definition. destruct (strip term); simpl; auto. Qed.

Lemma lookup_quiet (term : str) :
  fst (lookup term) = []
  \/ fst (lookup term) = [SpeakQuietly (LetMeLookThatUp (strip term))].
Proof. unfold lookup_definition. destruct (strip term); [now left | now right]. Qed.

Lemma rules_events (text : str) :
  (1 <= List.length (spoken (fst (rules text))) <= 2)%nat
  /\ filter opens_browser (fst (rules text)) = []
  /\ (List.length (filter is_lookup (fst (rules text))) <= 1)%nat.
Proof.
  unfold definition_rules, spoken.
  destruct (prefixed_term definition_prefixes text) as [[|c term]|].
  - simpl. repeat split; lia.
  - destruct (lookup_events (c :: term)) as [Hs [Hb Hl]].
    destruct (lookup (c :: term)) as [looked defn]. simpl in *.
    unfold spoken in *. rewrite !filter_app, Hs, Hb. simpl.
    rewrite !length_app. simpl.
    repeat split; lia.
  - destruct (List.length (split text) <=? 3)%nat; [|simpl; repeat split; lia].
    destruct (lookup_events text) as [Hs [Hb Hl]].
    destruct (lookup text) as [looked [[|c d]|]]; simpl in *;
      unfold spoken in *; rewrite !filter_app, Hs, Hb, !length_app; simpl;
      repeat split; lia.
Qed.


(** The handler returns ["exit"] for an exit word, and nothing else. *)
Lemma handler_exit (command_text : str) (evs : list event) (word : str) :
  handle command_text = Returns (evs, Some word) ->
  word = lit "exit" /\ evs = [Speak Goodbye]
  /\ has_exit_word (lower (strip command_text)) = true.
Proof.
  intros H. destruct command_text as [|c0 cs]; [discriminate H|].
  rewrite handle_by_text in H by discriminate. cbv zeta in H.
  set (text := lower (strip (c0 :: cs))) in *.
  destruct (has_exit_word text); [injection H as <- <-; now repeat split|].
  destruct (asks_for_youtube text); [discriminate H|].
  destruct (asks_for_google text); [discriminate H|].
  destruct (looks_arithmetic text); [|discriminate H].
  destruct (arithmetic_attempt (expression_of text)) as [[p|e|]|e|]; discriminate H.
Qed.

Lemma lower_nil (s : str) : lower s = [] -> s = [].
Proof. destruct s; [reflexivity | discriminate]. Qed.

End HandlerMore.

(** X5. Every command is answered aloud: whenever the handler returns, it
    has said one sentence or two (two when it announces a search), and it
    has looked up at most one term. *)
Theorem every_command_is_answered
    (wikipedia_summary duckduckgo_instant_answer : str -> option str)
    (command_text : str) (evs : list event) (result : option str) :
  handle_user_command wikipedia_summary duckduckgo_instant_answer command_text
    = Returns (evs, result) ->
  (1 <= List.length (spoken evs) <= 2)%nat
  /\ (List.length (filter is_lookup evs) <= 1)%nat.
Proof.
  intros H. destruct command_text as [|c0 cs].
  - injection H as <- _. simpl. lia.
  - rewrite handle_by_text in H by discriminate. cbv zeta in H.
    set (text := lower (strip (c0 :: cs))) in *.
    destruct (rules_events wikipedia_summary duckduckgo_instant_answer text)
      as [Hs [_ Hl]].
    destruct (has_exit_word text); [injection H as <- _; simpl; lia|].
    destruct (asks_for_youtube text); [injection H as <- _; simpl; lia|].
    destruct (asks_for_google text); [injection H as <- _; simpl; lia|].
    destruct (looks_arithmetic text).
    + destruct (arithmetic_attempt (expression_of text)) as [[p|e|]|e|];
        try discriminate H; simpl in H; injection H as <- _;
        unfold spoken in *; simpl; lia.
    + injection H as <- _. split; assumption.
Qed.

Lemma every_command_is_answered_witness :
  handle_user_command offline knows_xyzzy (lit "Tell me about XYZZY")
  = Returns ([Speak (SearchingFor (lit "xyzzy"));
              SpeakQuietly (LetMeLookThatUp (lit "xyzzy"));
              Speak (Found (lit "a magic word"))], None)
  /\ (1 <= 2 <= 2)%nat /\ (1 <= 1)%nat.
Proof.
  assert (H : handle_user_command offline knows_xyzzy (lit "Tell me about XYZZY")
              = Returns ([Speak (SearchingFor (lit "xyzzy"));
                          SpeakQuietly (LetMeLookThatUp (lit "xyzzy"));
                          Speak (Found (lit "a magic word"))], None))
    by (vm_compute; reflexivity).
  split; [exact H|].
  exact (every_command_is_answered offline knows_xyzzy _ H).
Defined.

(** X2. The handler returns ["exit"] only when the text holds an exit
    word, and then it has said goodbye and nothing else; in every other
    case it returns [None] and does not say goodbye. *)
Theorem exit_only_when_asked
    (wikipedia_summary duckduckgo_instant_answer : str -> option str)
    (command_text : str) (evs : list event) (result : option str) :
  handle_user_command wikipedia_summary duckduckgo_instant_answer command_text
    = Returns (evs, result) ->
  (result = Some (lit "exit")
   /\ evs = [Speak Goodbye]
   /\ existsb (fun word => contains word (lower (strip command_text))) exit_words = true)
  \/ (result = None
      /\ existsb (fun e => match e with Speak Goodbye => true | _ => false end) evs = false
      /\ (command_text = []
          \/ existsb (fun word => contains word (lower (strip command_text))) exit_words
             = false)).
Proof.
  intros H. destruct command_text as [|c0 cs].
  - injection H as <- <-. right. repeat split. now left.
  - rewrite handle_by_text in H by discriminate. cbv zeta in H.
    set (text := lower (strip (c0 :: cs))) in *.
    change (existsb (fun word => contains word text) exit_words)
      with (has_exit_word text).
    destruct (has_exit_word text) eqn:E; [injection H as <- <-; now left|].
    right.
    assert (G : existsb (fun e => match e with Speak Goodbye => true | _ => false end)
                  (fst (definition_rules wikipedia_summary duckduckgo_instant_answer text))
                = false).
    { unfold definition_rules.
      destruct (prefixed_term definition_prefixes text) as [[|c term]|].
      - reflexivity.
      - destruct (lookup_quiet wikipedia_summary duckduckgo_instant_answer (c :: term))
          as [L | L];
          destruct (lookup_definition _ _ (c :: term)) as [looked defn];
          simpl in L; subst looked; now destruct defn as [[|x d]|].
      - destruct (List.length (split text) <=? 3)%nat; [|reflexivity].
        destruct (lookup_quiet wikipedia_summary duckduckgo_instant_answer text)
          as [L | L];
          destruct (lookup_definition _ _ text) as [looked defn];
          simpl in L; subst looked; now destruct defn as [[|x d]|]. }
    destruct (asks_for_youtube text); [injection H as <- <-; repeat split; now right|].
    destruct (asks_for_google text); [injection H as <- <-; repeat split; now right|].
    destruct (looks_arithmetic text).
    + destruct (arithmetic_attempt (expression_of text)) as [[p|e|]|e|];
        try discriminate H; simpl in H; injection H as <- <-;
        (split; [reflexivity|]); (split; [|now right]); simpl; try reflexivity;
        exact G.
    + injection H as <- <-. split; [reflexivity|]. split; [exact G | now right].
Qed.

Lemma exit_only_when_asked_witness :
  handle_user_command offline offline (lit "Halt") 
  = Returns ([SpeakQuietly (LetMeLookThatUp (lit "halt")); Speak SorryDidntUnderstand],
             None)
  /\ ((@None str = Some (lit "exit")
       /\ [SpeakQuietly (LetMeLookThatUp (lit "halt")); Speak SorryDidntUnderstand]
          = [Speak Goodbye]
       /\ existsb (fun word => contains word (lower (strip (lit "Halt")))) exit_words
          = true)
      \/ (@None str = None
          /\ existsb (fun e => match e with Speak Goodbye => true | _ => false end)
               [SpeakQuietly (LetMeLookThatUp (lit "halt")); Speak SorryDidntUnderstand]
             = false
          /\ (lit "Halt" = []
              \/ existsb (fun word => contains word (lower (strip (lit "Halt"))))
                   exit_words = false))).
Proof.
  assert (H : handle_user_command offline offline (lit "Halt") 
              = Returns ([SpeakQuietly (LetMeLookThatUp (lit "halt"));
                          Speak SorryDidntUnderstand], None))
    by (vm_compute; reflexivity).
  split; [exact H|].
  exact (exit_only_when_asked offline offline _ H).
Defined.

(** X3. In a command without an exit word, ["open youtube"] anywhere in
    the text, or the text ["youtube"] alone, opens YouTube, whatever else
    the text holds; when YouTube is not asked for, ["open google"] or the
    text ["google"] opens Google. *)
Theorem sites_are_opened
    (wikipedia_summary duckduckgo_instant_answer : str -> option str)
    (command_text : str) :
  command_text <> [] ->
  existsb (fun word => contains word (lower (strip command_text))) exit_words = false ->
  (asks_for_youtube (lower (strip command_text)) = true ->
   handle_user_command wikipedia_summary duckduckgo_instant_answer command_text
   = Returns ([Speak OpeningYouTube; OpenBrowser (lit "https://www.youtube.com")], None))
  /\ (asks_for_youtube (lower (strip command_text)) = false ->
      asks_for_google (lower (strip command_text)) = true ->
      handle_user_command wikipedia_summary duckduckgo_instant_answer command_text
      = Returns ([Speak OpeningGoogle; OpenBrowser (lit "https://www.google.com")], None)).
Proof.
  intros Hne He. rewrite handle_by_text by assumption. cbv zeta.
  unfold has_exit_word. rewrite He. split.
  - intros ->. reflexivity.
  - intros -> ->. reflexivity.
Qed.

Lemma sites_are_opened_witness :
  existsb (fun word => contains word (lower (strip (lit "Open Google and open YouTube"))))
          exit_words = false
  /\ asks_for_youtube (lower (strip (lit "Open Google and open YouTube"))) = true
  /\ asks_for_google (lower (strip (lit "Open Google and open YouTube"))) = true
  /\ handle_user_command offline offline (lit "Open Google and open YouTube")
     = Returns ([Speak OpeningYouTube; OpenBrowser (lit "https://www.youtube.com")], None)
  /\ asks_for_youtube (lower (strip (lit " Google "))) = false
  /\ asks_for_google (lower (strip (lit " Google "))) = true
  /\ handle_user_command offline offline (lit " Google ")
     = Returns ([Speak OpeningGoogle; OpenBrowser (lit "https://www.google.com")], None).
Proof.
  assert (E1 : existsb (fun word => contains word
                          (lower (strip (lit "Open Google and open YouTube"))))
                 exit_words = false) by (vm_compute; reflexivity).
  assert (Y1 : asks_for_youtube (lower (strip (lit "Open Google and open YouTube")))
               = true) by (vm_compute; reflexivity).
  assert (G1 : asks_for_google (lower (strip (lit "Open Google and open YouTube")))
               = true) by (vm_compute; reflexivity).
  assert (E2 : existsb (fun word => contains word (lower (strip (lit " Google "))))
                 exit_words = false) by (vm_compute; reflexivity).
  assert (Y2 : asks_for_youtube (lower (strip (lit " Google "))) = false)
    by (vm_compute; reflexivity).
  assert (G2 : asks_for_google (lower (strip (lit " Google "))) = true)
    by (vm_compute; reflexivity).
  assert (N1 : lit "Open Google and open YouTube" <> []) by discriminate.
  assert (N2 : lit " Google " <> []) by discriminate.
  split; [exact E1|]. split; [exact Y1|]. split; [exact G1|].
  split; [exact (proj1 (sites_are_opened offline offline N1 E1) Y1)|].
  split; [exact Y2|]. split; [exact G2|].
  exact (proj2 (sites_are_opened offline offline N2 E2) Y2 G2).
Defined.

(** X4. The browser is opened only by the two rules for sites: whenever
    the handler returns, either no page was opened, or the one page of
    YouTube or of Google was opened for a text that asks for it. A
    definition that is not found opens nothing (line 295). *)
Theorem browser_only_on_request
    (wikipedia_summary duckduckgo_instant_answer : str -> option str)
    (command_text : str) (evs : list event) (result : option str) :
  handle_user_command wikipedia_summary duckduckgo_instant_answer command_text
    = Returns (evs, result) ->
  filter opens_browser evs = []
  \/ (evs = [Speak OpeningYouTube; OpenBrowser (lit "https://www.youtube.com")]
      /\ asks_for_youtube (lower (strip command_text)) = true)
  \/ (evs = [Speak OpeningGoogle; OpenBrowser (lit "https://www.google.com")]
      /\ asks_for_google (lower (strip command_text)) = true).
Proof.
  intros H. destruct command_text as [|c0 cs].
  - injection H as <- _. now left.
  - rewrite handle_by_text in H by discriminate. cbv zeta in H.
    set (text := lower (strip (c0 :: cs))) in *.
    destruct (rules_events wikipedia_summary duckduckgo_instant_answer text)
      as [_ [Hb _]].
    destruct (has_exit_word text); [injection H as <- _; now left|].
    destruct (asks_for_youtube text); [injection H as <- _; right; left; now split|].
    destruct (asks_for_google text); [injection H as <- _; right; right; now split|].
    left. destruct (looks_arithmetic text).
    + destruct (arithmetic_attempt (expression_of text)) as [[p|e|]|e|];
        try discriminate H; simpl in H; injection H as <- _; simpl;
        try reflexivity; exact Hb.
    + injection H as <- _. exact Hb.
Qed.

Lemma browser_only_on_request_witness :
  handle_user_command offline offline (lit "define youtube")
  = Returns ([Speak (SearchingFor (lit "youtube"));
              SpeakQuietly (LetMeLookThatUp (lit "youtube"));
              Speak NoShortDefinition], None)
  /\ filter opens_browser [Speak (SearchingFor (lit "youtube"));
                           SpeakQuietly (LetMeLookThatUp (lit "youtube"));
                           Speak NoShortDefinition] = [].
Proof.
  assert (H : handle_user_command offline offline (lit "define youtube")
              = Returns ([Speak (SearchingFor (lit "youtube"));
                          SpeakQuietly (LetMeLookThatUp (lit "youtube"));
                          Speak NoShortDefinition], None))
    by (vm_compute; reflexivity).
  split; [exact H|].
  destruct (browser_only_on_request offline offline _ H) as [E | [[E _] | [E _]]];
    [exact E | discriminate E | discriminate E].
Defined.

(** X6. The handler works on the stripped and lowered text only: a
    command and its stripped, lower-case form are handled alike. A
    command of white space only is not the empty command of line 216: it
    is answered with the sentence of line 306. *)
Theorem handler_ignores_case_and_margins
    (wikipedia_summary duckduckgo_instant_answer : str -> option str)
    (command_text : str) :
  (strip command_text <> [] ->
   handle_user_command wikipedia_summary duckduckgo_instant_answer command_text
   = handle_user_command wikipedia_summary duckduckgo_instant_answer
       (lower (strip command_text)))
  /\ (command_text <> [] -> strip command_text = [] ->
      handle_user_command wikipedia_summary duckduckgo_instant_answer command_text
      = Returns ([Speak SorryDidntUnderstand], None)).
Proof.
  split.
  - intros Hs.
    assert (H1 : command_text <> []) by (intros E; apply Hs; now rewrite E).
    assert (H2 : lower (strip command_text) <> [])
      by (intros E; apply Hs; now apply lower_nil).
    rewrite (handle_by_text _ _ H1), (handle_by_text _ _ H2). cbv zeta.
    rewrite handled_text_fixed. reflexivity.
  - intros Hne Hs. rewrite handle_by_text by assumption. rewrite Hs. reflexivity.
Qed.

Lemma handler_ignores_case_and_margins_witness :
  strip (lit "  What is 6 TIMES 7 ") <> []
  /\ handle_user_command offline offline (lit "  What is 6 TIMES 7 ")
     = handle_user_command offline offline (lit "what is 6 times 7")
  /\ lit "   " <> [] /\ strip (lit "   ") = []
  /\ handle_user_command offline offline (lit "   ")
     = Returns ([Speak SorryDidntUnderstand], None).
Proof.
  assert (H1 : strip (lit "  What is 6 TIMES 7 ") <> []) by discriminate.
  assert (H2 : lit "   " <> []) by discriminate.
  assert (H3 : strip (lit "   ") = []) by reflexivity.
  split; [exact H1|].
  split; [exact (proj1 (handler_ignores_case_and_margins offline offline _) H1)|].
  split; [exact H2|]. split; [exact H3|].
  exact (proj2 (handler_ignores_case_and_margins offline offline _) H2 H3).
Defined.

Lemma prefixed_term_ends_well (prefixes : list str) (text term : str) :
  forallb ends_with_space prefixes = true ->
  rstrip text = text ->
  prefixed_term prefixes text = Some term ->
  ends_well term.
Proof.
  intros Hp Ht. induction prefixes as [|prefix rest IH]; [discriminate|].
  simpl in Hp. apply andb_true_iff in Hp. destruct Hp as [Hp Hrest].
  simpl. destruct (startswith prefix text) eqn:E; [|now apply IH].
  intros [= <-].
  exact (@strip_articles_ends_well _
           (@strip_ends_well _ (@cut_prefix_ends_well prefix text Hp Ht E))).
Qed.

(** X7. A text that starts with a definition prefix and is not tried as
    arithmetic is answered by one search: the term left after the prefix
    and the articles is announced, its stripped form, which is not empty,
    is looked up, and the handler says what was found or that no short
    definition was found. *)
Theorem prefixed_definition_is_looked_up
    (wikipedia_summary duckduckgo_instant_answer : str -> option str)
    (command_text term : str) :
  command_text <> [] ->
  no_exit_or_site (lower (strip command_text)) = true ->
  looks_arithmetic (lower (strip command_text)) = false ->
  prefixed_term definition_prefixes (lower (strip command_text)) = Some term ->
  strip term <> []
  /\ handle_user_command wikipedia_summary duckduckgo_instant_answer command_text
     = Returns
         ([ Speak (SearchingFor term);
            SpeakQuietly (LetMeLookThatUp (strip term));
            Speak (match (if truthy (wikipedia_summary (strip term))
                          then wikipedia_summary (strip term)
                          else duckduckgo_instant_answer (strip term)) with
                   | Some (c :: d) => Found (c :: d)
                   | _ => NoShortDefinition
                   end) ],
          None).
Proof.
  intros Hne Hearly Harith Hterm.
  pose proof (proj2 (handled_text_trimmed command_text)) as Ht.
  pose proof (@prefixed_term_ends_well definition_prefixes _ _ eq_refl Ht Hterm) as Hw.
  destruct (strip_ends_well Hw) as [Hs _]. split; [exact Hs|].
  rewrite handle_no_arithmetic by assumption.
  unfold definition_rules. rewrite Hterm.
  destruct Hw as [Hn _]. destruct term as [|c term]; [congruence|].
  unfold lookup_definition. destruct (strip (c :: term)) as [|x xs]; [congruence|].
  reflexivity.
Qed.

Lemma prefixed_definition_is_looked_up_witness :
  no_exit_or_site (lower (strip (lit "Define a  XYZZY"))) = true
  /\ looks_arithmetic (lower (strip (lit "Define a  XYZZY"))) = false
  /\ prefixed_term definition_prefixes (lower (strip (lit "Define a  XYZZY")))
     = Some (lit " xyzzy")
  /\ handle_user_command offline knows_xyzzy (lit "Define a  XYZZY")
     = Returns ([Speak (SearchingFor (lit " xyzzy"));
                 SpeakQuietly (LetMeLookThatUp (lit "xyzzy"));
                 Speak (Found (lit "a magic word"))], None).
Proof.
  assert (H0 : lit "Define a  XYZZY" <> []) by discriminate.
  assert (H1 : no_exit_or_site (lower (strip (lit "Define a  XYZZY"))) = true)
    by (vm_compute; reflexivity).
  assert (H2 : looks_arithmetic (lower (strip (lit "Define a  XYZZY"))) = false)
    by (vm_compute; reflexivity).
  assert (H3 : prefixed_term definition_prefixes (lower (strip (lit "Define a  XYZZY")))
               = Some (lit " xyzzy")) by (vm_compute; reflexivity).
  split; [exact H1|]. split; [exact H2|]. split; [exact H3|].
  exact (proj2 (@prefixed_definition_is_looked_up offline knows_xyzzy _ _ H0 H1 H2 H3)).
Defined.

(** *** Splitting at the wake word *)

Lemma split1_go_eq (sep before s : str) :
  split1_go sep before s =
    if startswith sep s then [rev before; drop (List.length sep) s]
    else match s with
         | [] => [rev before]
         | c :: s' => split1_go sep (c :: before) s'
         end.
Proof. destruct s; reflexivity. Qed.

Lemma startswith_long (p u v : str) :
  (List.length p <= List.length u)%nat -> startswith p (u ++ v) = startswith p u.
Proof.
  revert u. induction p as [|a p IH]; intros u H; [reflexivity|].
  destruct u as [|b u]; [simpl in H; lia|].
  simpl. rewrite IH by (simpl in H; lia). reflexivity.
Qed.

Lemma drop_app_length (p r : str) : drop (List.length p) (p ++ r) = r.
Proof. unfold drop. induction p; simpl; auto. Qed.

(** [s.split(sep, 1)] cuts at the first place where [sep] starts. *)
Lemma split1_go_first (sep acc before after : str) :
  sep <> [] ->
  contains sep (before ++ removelast sep) = false ->
  split1_go sep acc (before ++ sep ++ after) = [rev acc ++ before; after].
Proof.
  intros Hsep. revert acc. induction before as [|c b IH]; intros acc H.
  - rewrite split1_go_eq. cbn [app]. rewrite startswith_app, drop_app_length.
    now rewrite app_nil_r.
  - cbn [app] in H. apply contains_cons_false in H. destruct H as [Hs Hc].
    rewrite split1_go_eq.
    change (c :: b ++ removelast sep) with ((c :: b) ++ removelast sep) in Hs.
    assert (E : (c :: b) ++ sep ++ after
                = ((c :: b) ++ removelast sep) ++ [last sep " "%char] ++ after).
    { rewrite <- app_assoc. f_equal. rewrite app_assoc. f_equal.
      now apply app_removelast_last. }
    rewrite E, startswith_long, Hs.
    + rewrite <- E. cbn [app]. rewrite IH by assumption.
      cbn [rev]. now rewrite <- app_assoc.
    + rewrite length_app. simpl.
      assert (L : List.length sep = S (List.length (removelast sep))).
      { rewrite (app_removelast_last " "%char Hsep) at 1.
        rewrite length_app. simpl. lia. }
      lia.
Qed.

Lemma split1_first (sep before after : str) :
  sep <> [] ->
  contains sep (before ++ removelast sep) = false ->
  split1 sep (before ++ sep ++ after) = [before; after].
Proof. intros. unfold split1. now rewrite split1_go_first. Qed.


(** X14. At the head of the loop, an utterance that holds the wake word is
    cut at its first occurrence: what stands before it is dropped, and
    what follows it, stripped, is handled as the command; when nothing
    follows, the assistant asks what it can help with and waits for a
    follow-up. *)
Theorem command_follows_wake_word
    (wikipedia_summary duckduckgo_instant_answer : str -> option str)
    (text before after : str) :
  lower text = before ++ WAKE_WORD ++ after ->
  contains WAKE_WORD (before ++ removelast WAKE_WORD) = false ->
  main_step wikipedia_summary duckduckgo_instant_answer Idle (Recognised text)
  = match strip after with
    | [] => Returns ([Print ListeningReady; Print (You text); Speak YesWhatCanIHelpWith],
                     AwaitingFollowup MAX_RETRIES)
    | command =>
        dispatch wikipedia_summary duckduckgo_instant_answer
          [Print ListeningReady; Print (You text)] command
    end.
Proof.
  intros Ht Hfirst. unfold main_step, idle_step. cbn [listen_from_mic].
  rewrite Ht.
  assert (Hc : contains WAKE_WORD (before ++ WAKE_WORD ++ after) = true).
  { apply contains_later, contains_here, startswith_app. }
  destruct (before ++ WAKE_WORD ++ after) as [|c sp] eqn:E.
  - destruct before; discriminate E.
  - rewrite Hc, <- E, split1_first by (assumption || discriminate).
    cbn [nth]. destruct (strip after); reflexivity.
Qed.

Lemma command_follows_wake_word_witness :
  lower (lit "Hey Assistant, what is 6 times 7") 
  = lit "hey " ++ WAKE_WORD ++ lit ", what is 6 times 7"
  /\ contains WAKE_WORD (lit "hey " ++ removelast WAKE_WORD) = false
  /\ main_step offline offline Idle (Recognised (lit "Hey Assistant, what is 6 times 7"))
     = dispatch offline offline
         [Print ListeningReady; Print (You (lit "Hey Assistant, what is 6 times 7"))]
         (lit ", what is 6 times 7").
Proof.
  assert (H1 : lower (lit "Hey Assistant, what is 6 times 7") 
               = lit "hey " ++ WAKE_WORD ++ lit ", what is 6 times 7") by reflexivity.
  assert (H2 : contains WAKE_WORD (lit "hey " ++ removelast WAKE_WORD) = false)
    by reflexivity.
  split; [exact H1|]. split; [exact H2|].
  exact (@command_follows_wake_word offline offline _ _ _ H1 H2).
Defined.

(** *** Parts of a text *)

Lemma part_of_refl (s : str) : part_of s s.
Proof. exists [], []. now rewrite app_nil_r. Qed.

Lemma part_of_trans (x y z : str) : part_of x y -> part_of y z -> part_of x z.
Proof.
  intros [a [b ->]] [c [d ->]]. exists (c ++ a), (b ++ d).
  now rewrite <- !app_assoc.
Qed.

Lemma contains_earlier (p s r : str) : contains p s = true -> contains p (s ++ r) = true.
Proof.
  induction s as [|c s IH]; cbn [contains app]; intros H.
  - rewrite orb_false_r in H. destruct p; [|discriminate].
    destruct r; reflexivity.
  - apply orb_true_iff in H. destruct H as [H | H].
    + apply startswith_split in H.
      change (c :: s ++ r) with ((c :: s) ++ r). rewrite H, <- app_assoc.
      now rewrite startswith_app.
    + rewrite IH by assumption. apply orb_true_r.
Qed.

Lemma contains_part (p x s : str) :
  part_of x s -> contains p x = true -> contains p s = true.
Proof.
  intros [a [b ->]] H. apply contains_later. now apply contains_earlier.
Qed.

Lemma lstrip_part (s : str) : part_of (lstrip s) s.
Proof.
  induction s as [|c s IH]; [apply part_of_refl|].
  simpl. destruct (isspace c); [|apply part_of_refl].
  destruct IH as [a [b E]]. exists (c :: a), b. simpl. now rewrite <- E.
Qed.

Lemma rstrip_prefix (s : str) : exists b, s = rstrip s ++ b.
Proof.
  induction s as [|c s [b IH]]; [now exists []|].
  simpl. destruct (rstrip s) as [|x xs].
  - destruct (isspace c).
    + now exists (c :: s).
    + exists s. reflexivity.
  - exists b. simpl in *. now rewrite <- IH.
Qed.

Lemma rstrip_part (s : str) : part_of (rstrip s) s.
Proof. destruct (rstrip_prefix s) as [b E]. now exists [], b. Qed.

Lemma strip_part (s : str) : part_of (strip s) s.
Proof.
  unfold strip. eapply part_of_trans; [apply rstrip_part | apply lstrip_part].
Qed.

Lemma lower_part (x s : str) : part_of x s -> part_of (lower x) (lower s).
Proof.
  intros [a [b ->]]. exists (lower a), (lower b). unfold lower.
  now rewrite !map_app.
Qed.

(** What [s.split(sep, 1)] leaves after the separator is the end of the
    text. *)
Lemma split1_go_suffix (sep acc s : str) :
  exists a, s = a ++ nth 1 (split1_go sep acc s) [].
Proof.
  revert acc. induction s as [|c s IH]; intros acc; rewrite split1_go_eq.
  - destruct (startswith sep []) eqn:E.
    + exists []. destruct sep; [reflexivity | discriminate].
    + now exists [].
  - destruct (startswith sep (c :: s)) eqn:E.
    + exists sep. cbn [nth]. now apply startswith_split.
    + destruct (IH (c :: acc)) as [a Ea]. exists (c :: a). simpl. now rewrite <- Ea.
Qed.

Lemma split1_part (sep s : str) : part_of (nth 1 (split1 sep s) []) s.
Proof.
  destruct (split1_go_suffix sep [] s) as [a E]. exists a, [].
  now rewrite app_nil_r.
Qed.

(** *** The loop ends on an exit word only *)

Lemma has_exit_word_part (x s : str) :
  part_of x s -> has_exit_word x = true -> has_exit_word s = true.
Proof.
  intros P H. unfold has_exit_word in *. apply existsb_exists in H.
  destruct H as [w [Hw Hc]]. apply existsb_exists. exists w. split; [assumption|].
  exact (@contains_part w x s P Hc).
Qed.

Section LoopEnds.

Variable wikipedia_summary : str -> option str.
Variable duckduckgo_instant_answer : str -> option str.

Local Abbreviation step := (main_step wikipedia_summary duckduckgo_instant_answer).
Local Abbreviation loop := (run wikipedia_summary duckduckgo_instant_answer).
Local Abbreviation handed := (dispatch wikipedia_summary duckduckgo_instant_answer).

Lemma dispatch_stopped (heard_events evs : list event) (command : str) :
  handed heard_events command = Returns (evs, Stopped) ->
  has_exit_word (lower (strip command)) = true /\ In (Speak Goodbye) evs.
Proof.
  unfold dispatch. intros H.
  destruct (handle_user_command wikipedia_summary duckduckgo_instant_answer command)
    as [[hevs result]| |] eqn:E; try discriminate H.
  cbn [bind] in H.
  destruct result as [word|]; [|discriminate H].
  destruct (@handler_exit _ _ _ _ _ E) as [-> [-> Hw]].
  injection H as <-. split; [exact Hw|]. apply in_or_app. right. now left.
Qed.

Lemma step_stopped (s : session) (h : heard) (evs : list event) :
  s <> Stopped ->
  step s h = Returns (evs, Stopped) ->
  heard_exit_word h = true /\ In (Speak Goodbye) evs.
Proof.
  intros Hs H.
  assert (Idle_case : idle_step wikipedia_summary duckduckgo_instant_answer h
                      = Returns (evs, Stopped) ->
                      heard_exit_word h = true /\ In (Speak Goodbye) evs).
  { clear H. unfold idle_step. destruct h as [|text| |]; cbn [listen_from_mic];
      try discriminate.
    destruct (lower text) as [|c sp] eqn:Et; [discriminate|]. rewrite <- Et.
    destruct (contains WAKE_WORD (lower text)); [|discriminate].
    pose proof (split1_part WAKE_WORD (lower text)) as P.
    destruct (strip (nth 1 (split1 WAKE_WORD (lower text)) [])) as [|a after] eqn:Ea.
    - unfold for_loop, MAX_RETRIES. discriminate.
    - intros H. apply dispatch_stopped in H. destruct H as [Hw Hg]. split; [|exact Hg].
      cbn [heard_exit_word].
      apply (@has_exit_word_part (lower (strip (a :: after))) (lower text)); [|exact Hw].
      rewrite <- (lower_idem text).
      apply lower_part. rewrite <- Ea.
      eapply part_of_trans; [apply strip_part|].
      eapply part_of_trans; [apply strip_part | exact P]. }
  destruct s as [| [|n] |]; [exact (Idle_case H) | exact (Idle_case H) | | congruence].
  cbn [main_step] in H. destruct h as [|text| |]; cbn [listen_from_mic] in H;
    try (destruct n; discriminate H).
  destruct (lower text) as [|c f] eqn:Et; [destruct n; discriminate H|].
  apply dispatch_stopped in H. destruct H as [Hw Hg]. split; [|exact Hg].
  cbn [heard_exit_word]. rewrite <- Et in Hw.
  apply (@has_exit_word_part (lower (strip (lower text))) (lower text)); [|exact Hw].
  rewrite <- (lower_idem text) at 2. apply lower_part, strip_part.
Qed.

Lemma run_stopped (turns : list heard) :
  forall s evs,
    s <> Stopped ->
    loop s turns = Returns (evs, Stopped) ->
    existsb heard_exit_word turns = true /\ In (Speak Goodbye) evs.
Proof.
  induction turns as [|h turns IH]; intros s evs Hs H.
  - injection H as _ ->. congruence.
  - cbn [run] in H.
    destruct (step s h) as [[evs1 s1]| |] eqn:E1; try discriminate H.
    cbn [bind] in H.
    destruct (loop s1 turns) as [[evs2 s2]| |] eqn:E2; try discriminate H.
    cbn [bind] in H. injection H as <- ->.
    cbn [existsb].
    destruct s1 as [|n|].
    + destruct (IH Idle evs2 ltac:(discriminate) E2) as [Hw Hg].
      rewrite Hw, orb_true_r. split; [reflexivity|]. apply in_or_app. now right.
    + destruct (IH (AwaitingFollowup n) evs2 ltac:(discriminate) E2) as [Hw Hg].
      rewrite Hw, orb_true_r. split; [reflexivity|]. apply in_or_app. now right.
    + destruct (@step_stopped _ _ _ Hs E1) as [Hw Hg]. rewrite Hw.
      split; [reflexivity|]. apply in_or_app. now left.
Qed.

End LoopEnds.

(** X16. [main] returns only on an exit word: when the loop has stopped,
    one of the utterances heard held an exit word, and the assistant has
    said goodbye. *)
Theorem main_returns_only_on_exit_word
    (wikipedia_summary duckduckgo_instant_answer : str -> option str)
    (turns : list heard) (evs : list event) :
  main wikipedia_summary duckduckgo_instant_answer turns = Returns (evs, Stopped) ->
  existsb heard_exit_word turns = true /\ In (Speak Goodbye) evs.
Proof.
  unfold main. intros H.
  destruct (run wikipedia_summary duckduckgo_instant_answer Idle turns)
    as [[evs' s]| |] eqn:E; try discriminate H.
  cbn [bind] in H. injection H as <- ->.
  destruct (@run_stopped wikipedia_summary duckduckgo_instant_answer turns Idle evs'
              ltac:(discriminate) E) as [Hw Hg].
  split; [exact Hw | now right].
Qed.

Lemma main_returns_only_on_exit_word_witness :
  main offline offline [WaitTimeout; Recognised (lit "Assistant"); UnknownValue;
                        Recognised (lit "Goodbye"); Recognised (lit "assistant hello")]
  = Returns ([Speak Greeting;
              Print ListeningReady; Print NoSpeechDetected;
              Print ListeningReady; Print (You (lit "Assistant"));
              Speak YesWhatCanIHelpWith;
              Print ListeningReady; Print CouldntUnderstand; Speak DidntCatchThat;
              Print ListeningReady; Print (You (lit "Goodbye")); Speak Goodbye],
             Stopped)
  /\ existsb heard_exit_word
       [WaitTimeout; Recognised (lit "Assistant"); UnknownValue;
        Recognised (lit "Goodbye"); Recognised (lit "assistant hello")] = true.
Proof.
  assert (H : main offline offline
                [WaitTimeout; Recognised (lit "Assistant"); UnknownValue;
                 Recognised (lit "Goodbye"); Recognised (lit "assistant hello")]
              = Returns ([Speak Greeting;
                          Print ListeningReady; Print NoSpeechDetected;
                          Print ListeningReady; Print (You (lit "Assistant"));
                          Speak YesWhatCanIHelpWith;
                          Print ListeningReady; Print CouldntUnderstand;
                          Speak DidntCatchThat;
                          Print ListeningReady; Print (You (lit "Goodbye"));
                          Speak Goodbye],
                         Stopped)) by (vm_compute; reflexivity).
  split; [exact H|].
  exact (proj1 (main_returns_only_on_exit_word offline offline _ H)).
Defined.







(** Removing the commas. *)
Lemma replace_char (c : ascii) (s : str) :
  replace [c] [] s = filter (fun x => negb (chr_eqb c x)) s.
Proof.
  unfold replace. induction s as [|x s IH]; [reflexivity|].
  cbn [replace_go startswith filter List.length Nat.sub app].
  rewrite andb_true_r. destruct (chr_eqb c x); cbn [negb]; now rewrite IH.
Qed.







(** *** Commas *)

Lemma filter_idem (A : Type) (f : A -> bool) (l : list A) :
  filter f (filter f l) = filter f l.
Proof.
  induction l as [|a l IH]; [reflexivity|]. cbn [filter].
  destruct (f a) eqn:E; [|exact IH]. cbn [filter]. now rewrite E, IH.
Qed.

Lemma safe_eval_without_commas (text : str) :
  safe_eval text = safe_eval (filter (fun x => negb (chr_eqb "," x)) text).
Proof.
  unfold safe_eval. change (lit ",") with [","%char]. change (lit "") with (@nil ascii).
  now rewrite !replace_char, filter_idem.
Qed.

(** X10. [safe_eval] takes a text with commas as the text without them,
    wherever they stand; but a text with a comma does not pass the gate
    of the handler, which never hands it to [safe_eval]. *)
Theorem commas_stop_at_the_gate (before after : str) :
  safe_eval (before ++ lit "," ++ after) = safe_eval (before ++ after)
  /\ arithmetic_attempt (before ++ lit "," ++ after) = Returns Unsafe.
Proof.
  split.
  - rewrite safe_eval_without_commas, (safe_eval_without_commas (before ++ after)).
    now rewrite !filter_app.
  - unfold arithmetic_attempt, guarded_attempt.
    rewrite !forallb_app. cbn [lit list_ascii_of_string forallb].
    replace (mem "," allowed_chars) with false by reflexivity.
    now rewrite andb_false_r.
Qed.

(** *** Integer literals *)

Lemma digits_trimmed (ds : str) :
  forallb is_ascii_digit ds = true -> strip ds = ds.
Proof.
  intros H. unfold strip. destruct ds as [|c ds]; [reflexivity|].
  pose proof H as H'. simpl in H'. apply andb_true_iff in H'. destruct H' as [Hc _].
  rewrite lstrip_nonspace by (now apply digit_allowed).
  now apply rstrip_digits.
Qed.

Lemma digits_allowed (ds : str) :
  forallb is_ascii_digit ds = true -> forallb (fun ch => mem ch allowed_chars) ds = true.
Proof.
  intros H. apply forallb_forall. intros c Hc. rewrite forallb_forall in H.
  now apply digit_allowed, H.
Qed.




(** *** Grouping *)

Lemma safe_eval_of_tokens (text : str) (ts : list token) (e : expr) :
  forallb (fun ch => mem ch allowed_chars) text = true ->
  strip text = text ->
  tokenize text = Returns (Some ts) ->
  parse_tokens (WantOperand AfterOther, [], []) ts = Some e ->
  safe_eval text = _eval e.
Proof.
  intros Ha Hs Ht Hp. apply safe_eval_parsed.
  rewrite replace_absent by (apply contains_foreign_char; [exact Ha | reflexivity]).
  rewrite Hs. unfold parse. rewrite Ht. cbn [bind]. now rewrite Hp.
Qed.

Lemma int_literal_inv (ds : str) :
  int_literal ds = true ->
  forallb is_ascii_digit ds = true /\ valid_int_literal ds = true /\ ds <> [].
Proof.
  unfold int_literal. intros H. apply andb_true_iff in H. destruct H as [Hd Hv].
  repeat split; try assumption. intros ->. discriminate.
Qed.

Lemma tokenize_literal (ds rest : str) :
  int_literal ds = true ->
  closes rest = true ->
  tokenize_from LStart (ds ++ rest)
  = prepend [NUMBER (CInt (digits_value ds))] (tokenize_from LStart rest).
Proof.
  intros H Hc. destruct (@int_literal_inv _ H) as [Hd [Hv _]].
  now apply tokenize_number.
Qed.

Lemma tokenize_last_literal (ds : str) :
  int_literal ds = true ->
  tokenize_from LStart ds = Returns (Some [NUMBER (CInt (digits_value ds))]).
Proof.
  intros H. pose proof (@tokenize_literal ds [] H eq_refl) as T.
  now rewrite app_nil_r in T.
Qed.

Lemma literal_first (ds rest : str) :
  int_literal ds = true -> lstrip (ds ++ rest) = ds ++ rest.
Proof.
  intros H. destruct (@int_literal_inv _ H) as [Hd [_ Hne]].
  destruct ds as [|c ds]; [congruence|].
  simpl in Hd. apply andb_true_iff in Hd. destruct Hd as [Hc _].
  cbn [app]. apply lstrip_nonspace. now apply digit_allowed.
Qed.

Lemma literal_last (before ds : str) :
  int_literal ds = true -> rstrip (before ++ ds) = before ++ ds.
Proof.
  intros H. destruct (@int_literal_inv _ H) as [Hd [_ Hne]].
  rewrite rstrip_app, (@rstrip_digits _ Hd). destruct ds; [congruence | reflexivity].
Qed.

Lemma operator_allowed (op : operator) :
  forallb (fun ch => mem ch allowed_chars) (lit " " ++ operator_text op ++ lit " ") = true.
Proof. destruct op; reflexivity. Qed.

Lemma two_operators (x y z : str) (first second : operator) :
  int_literal x = true -> int_literal y = true -> int_literal z = true ->
  safe_eval (x ++ lit " " ++ operator_text first ++ lit " " ++ y
               ++ lit " " ++ operator_text second ++ lit " " ++ z)
  = _eval (if groups_right first second
           then BinOp (literal x) first (BinOp (literal y) second (literal z))
           else BinOp (BinOp (literal x) first (literal y)) second (literal z)).
Proof.
  intros Hx Hy Hz.
  apply safe_eval_of_tokens
    with (ts := [NUMBER (CInt (digits_value x)); operator_token first;
                 NUMBER (CInt (digits_value y)); operator_token second;
                 NUMBER (CInt (digits_value z))]).
  - destruct (@int_literal_inv _ Hx) as [Dx _], (@int_literal_inv _ Hy) as [Dy _],
      (@int_literal_inv _ Hz) as [Dz _].
    pose proof (operator_allowed first) as A1. pose proof (operator_allowed second) as A2.
    rewrite !forallb_app in *.
    rewrite (@digits_allowed _ Dx), (@digits_allowed _ Dy), (@digits_allowed _ Dz).
    apply andb_true_iff in A1, A2. destruct A1 as [_ A1], A2 as [_ A2].
    apply andb_true_iff in A1, A2. destruct A1 as [A1 _], A2 as [A2 _].
    rewrite A1, A2. reflexivity.
  - unfold strip. rewrite (@literal_first _ _ Hx).
    rewrite !app_assoc. now apply literal_last.
  - unfold tokenize.
    rewrite (@tokenize_literal _ _ Hx) by reflexivity.
    rewrite tokenize_operator.
    rewrite (@tokenize_literal _ _ Hy) by reflexivity.
    rewrite tokenize_operator.
    rewrite (@tokenize_last_literal _ Hz).
    reflexivity.
  - destruct first, second; reflexivity.
Qed.

Lemma sign_and_operator (x y : str) (sign : unaryop) (op : operator) :
  int_literal x = true -> int_literal y = true ->
  safe_eval (sign_text sign ++ x ++ lit " " ++ operator_text op ++ lit " " ++ y)
  = _eval (match op with
           | Pow => UnaryOp sign (BinOp (literal x) Pow (literal y))
           | _ => BinOp (UnaryOp sign (literal x)) op (literal y)
           end).
Proof.
  intros Hx Hy.
  apply safe_eval_of_tokens
    with (ts := [sign_token sign; NUMBER (CInt (digits_value x)); operator_token op;
                 NUMBER (CInt (digits_value y))]).
  - destruct (@int_literal_inv _ Hx) as [Dx _], (@int_literal_inv _ Hy) as [Dy _].
    pose proof (operator_allowed op) as A1.
    rewrite !forallb_app in *.
    rewrite (@digits_allowed _ Dx), (@digits_allowed _ Dy).
    apply andb_true_iff in A1. destruct A1 as [_ A1].
    apply andb_true_iff in A1. destruct A1 as [A1 _].
    rewrite A1. destruct sign; reflexivity.
  - unfold strip.
    assert (L : lstrip (sign_text sign ++ x ++ lit " " ++ operator_text op ++ lit " " ++ y)
                = sign_text sign ++ x ++ lit " " ++ operator_text op ++ lit " " ++ y)
      by (destruct sign; reflexivity).
    rewrite L, !app_assoc. now apply literal_last.
  - unfold tokenize.
    rewrite tokenize_sign.
    rewrite (@tokenize_literal _ _ Hx) by reflexivity.
    rewrite tokenize_operator.
    rewrite (@tokenize_last_literal _ Hy).
    destruct sign; reflexivity.
  - destruct sign, op; reflexivity.
Qed.

(** X12. Python's grouping, for any integer literals: of two binary
    operators in a row the second takes the middle operand when it binds
    more tightly ([*], [/], [//] and [%] before [+] and [-], [**] before
    all) and when both are [**]; otherwise the first takes it. A sign in
    front binds more tightly than every operator but [**]. *)
Theorem python_grouping (x y z : str) :
  int_literal x = true -> int_literal y = true -> int_literal z = true ->
  (forall first second,
      safe_eval (x ++ lit " " ++ operator_text first ++ lit " " ++ y
                   ++ lit " " ++ operator_text second ++ lit " " ++ z)
      = _eval (if groups_right first second
               then BinOp (literal x) first (BinOp (literal y) second (literal z))
               else BinOp (BinOp (literal x) first (literal y)) second (literal z)))
  /\ (forall sign op,
        safe_eval (sign_text sign ++ x ++ lit " " ++ operator_text op ++ lit " " ++ y)
        = _eval (match op with
                 | Pow => UnaryOp sign (BinOp (literal x) Pow (literal y))
                 | _ => BinOp (UnaryOp sign (literal x)) op (literal y)
                 end)).
Proof.
  intros Hx Hy Hz. split.
  - intros first second. now apply two_operators.
  - intros sign op. now apply sign_and_operator.
Qed.

Lemma python_grouping_witness :
  safe_eval (lit "2 ** 3 ** 2") = Returns (VInt 512)
  /\ safe_eval (lit "2 - 3 - 2") = Returns (VInt (-3))
  /\ safe_eval (lit "2 + 3 * 2") = Returns (VInt 8)
  /\ safe_eval (lit "-2 ** 3") = Returns (VInt (-8))
  /\ safe_eval (lit "-2 % 3") = Returns (VInt 1).
Proof.
  pose proof (@python_grouping (lit "2") (lit "3") (lit "2") eq_refl eq_refl eq_refl)
    as [G _].
  pose proof (@python_grouping (lit "2") (lit "3") (lit "2") eq_refl eq_refl eq_refl)
    as [_ S].
  split; [exact (G Pow Pow)|]. split; [exact (G Sub Sub)|]. split; [exact (G Add Mult)|].
  split; [exact (S USub Pow) | exact (S USub Mod)].
Defined.

(** ** What [speak] says *)

Lemma split_go_word (acc w rest : str) :
  forallb (fun c => negb (isspace c)) w = true ->
  split_go acc (w ++ rest) = split_go (rev w ++ acc) rest.
Proof.
  revert acc. induction w as [|c w IH]; intros acc H; [reflexivity|].
  simpl in H. apply andb_true_iff in H. destruct H as [Hc Hw].
  apply negb_true_iff in Hc. cbn [app split_go]. rewrite Hc, (IH _ Hw).
  cbn [rev]. now rewrite <- app_assoc.
Qed.

Lemma split_go_whole_word (acc w : str) :
  forallb (fun c => negb (isspace c)) w = true ->
  split_go acc w = split_go (rev w ++ acc) [].
Proof.
  intros H. pose proof (@split_go_word acc w [] H) as E.
  now rewrite app_nil_r in E.
Qed.

Lemma split_go_words (s acc : str) :
  forallb (fun c => negb (isspace c)) acc = true ->
  forallb is_word (split_go acc s) = true.
Proof.
  revert acc. induction s as [|c s IH]; intros acc H.
  - cbn [split_go]. destruct acc as [|a acc]; [reflexivity|].
    cbn [forallb]. rewrite andb_true_r. unfold is_word.
    destruct (rev (a :: acc)) as [|x xs] eqn:E.
    + apply (f_equal (@List.length ascii)) in E. rewrite length_rev in E. discriminate.
    + rewrite <- E. rewrite forallb_forall in *. intros y Hy. apply H.
      now apply in_rev.
  - cbn [split_go]. destruct (isspace c) eqn:Ec.
    + destruct acc as [|a acc]; [now apply IH|].
      cbn [forallb]. rewrite (IH [] eq_refl), andb_true_r. unfold is_word.
      destruct (rev (a :: acc)) as [|x xs] eqn:E.
      * apply (f_equal (@List.length ascii)) in E. rewrite length_rev in E.
        discriminate.
      * rewrite <- E. rewrite forallb_forall in *. intros y Hy. apply H.
        now apply in_rev.
    + apply IH. cbn [forallb]. now rewrite Ec, H.
Qed.

Lemma split_words (s : str) : forallb is_word (split s) = true.
Proof. now apply split_go_words. Qed.

Lemma is_word_inv (w : str) :
  is_word w = true -> w <> [] /\ forallb (fun c => negb (isspace c)) w = true.
Proof. destruct w; [discriminate|]. intros H. split; [discriminate | exact H]. Qed.

Lemma split_word_end (w : str) : is_word w = true -> split_go (rev w) [] = [w].
Proof.
  intros H. destruct (@is_word_inv _ H) as [Hne _]. cbn [split_go].
  destruct (rev w) as [|x xs] eqn:E.
  - apply (f_equal (@List.length ascii)) in E. rewrite length_rev in E.
    destruct w; [congruence | discriminate].
  - now rewrite <- E, rev_involutive.
Qed.

(** Splitting what was joined gives the words back. *)
Lemma split_join (ws : list str) :
  forallb is_word ws = true -> split (join (lit " ") ws) = ws.
Proof.
  induction ws as [|w ws IH]; intros H; [reflexivity|].
  cbn [forallb] in H. apply andb_true_iff in H. destruct H as [Hw Hws].
  destruct (@is_word_inv _ Hw) as [Hne Hc]. unfold split in *.
  destruct ws as [|w' ws].
  - cbn [join]. rewrite (@split_go_whole_word [] w Hc), app_nil_r.
    now apply split_word_end.
  - change (join (lit " ") (w :: w' :: ws))
      with (w ++ " "%char :: join (lit " ") (w' :: ws)).
    rewrite (@split_go_word [] w _ Hc), app_nil_r. cbn [split_go].
    change (isspace " ") with true. cbv iota.
    destruct (rev w) as [|x xs] eqn:E.
    + apply (f_equal (@List.length ascii)) in E. rewrite length_rev in E.
      destruct w; [congruence | discriminate].
    + rewrite <- E, rev_involutive. f_equal. now apply IH.
Qed.

Lemma spaces_between_word (w rest : str) :
  forallb (fun c => negb (isspace c)) w = true ->
  spaces_between (w ++ rest) = spaces_between rest.
Proof.
  induction w as [|c w IH]; intros H; [reflexivity|].
  simpl in H. apply andb_true_iff in H. destruct H as [Hc Hw].
  apply negb_true_iff in Hc. cbn [app spaces_between]. now rewrite Hc, (IH Hw).
Qed.

Lemma spaces_between_whole_word (w : str) :
  forallb (fun c => negb (isspace c)) w = true -> spaces_between w = true.
Proof.
  intros H. pose proof (@spaces_between_word w [] H) as E.
  now rewrite app_nil_r in E.
Qed.

Lemma join_head (w : str) (ws : list str) :
  exists r, join (lit " ") (w :: ws) = w ++ r.
Proof.
  destruct ws as [|w' ws]; [exists []; cbn [join]; now rewrite app_nil_r|].
  eexists. reflexivity.
Qed.

Lemma join_spaced (ws : list str) :
  forallb is_word ws = true -> single_spaced (join (lit " ") ws) = true.
Proof.
  induction ws as [|w ws IH]; intros H; [reflexivity|].
  cbn [forallb] in H. apply andb_true_iff in H. destruct H as [Hw Hws].
  destruct (@is_word_inv _ Hw) as [Hne Hc].
  assert (B : spaces_between (join (lit " ") (w :: ws)) = true).
  { destruct ws as [|w' ws].
    - cbn [join]. now apply spaces_between_whole_word.
    - change (join (lit " ") (w :: w' :: ws))
        with (w ++ " "%char :: join (lit " ") (w' :: ws)).
      rewrite spaces_between_word by assumption.
      specialize (IH Hws). unfold single_spaced in IH.
      destruct (join (lit " ") (w' :: ws)) as [|d r] eqn:E.
      + cbn [forallb] in Hws. apply andb_true_iff in Hws. destruct Hws as [Hw' _].
        destruct (@is_word_inv _ Hw') as [Hne' _].
        destruct (join_head w' ws) as [r Er]. rewrite Er in E.
        destruct w'; [congruence | discriminate].
      + apply andb_true_iff in IH. destruct IH as [Hd Hr].
        cbn [spaces_between]. change (isspace " ") with true. cbv iota.
        change (chr_eqb " " " ") with true. cbn [andb]. rewrite Hd. exact Hr. }
  destruct (join_head w ws) as [r Er]. unfold single_spaced.
  rewrite Er in B |- *. destruct w as [|c w]; [congruence|]. cbn [app] in B |- *.
  simpl in Hc. apply andb_true_iff in Hc. destruct Hc as [Hc _]. now rewrite Hc, B.
Qed.

(** A text that is single-spaced already is what the words joined give. *)
Lemma join_split_go (t acc : str) :
  spaces_between t = true ->
  (acc = [] -> match t with [] => True | c :: _ => isspace c = false end) ->
  join (lit " ") (split_go acc t) = rev acc ++ t.
Proof.
  revert acc. induction t as [|c r IH]; intros acc Hb Hfirst.
  - cbn [split_go]. destruct acc as [|a acc]; [reflexivity|].
    cbn [join]. now rewrite app_nil_r.
  - cbn [spaces_between] in Hb. apply andb_true_iff in Hb. destruct Hb as [Hc Hr].
    cbn [split_go]. destruct (isspace c) eqn:Ec.
    + apply andb_true_iff in Hc. destruct Hc as [Hsp Hnext].
      apply chr_eqb_true in Hsp. subst c.
      destruct acc as [|a acc]; [now specialize (Hfirst eq_refl)|].
      destruct r as [|d r]; [discriminate|]. apply negb_true_iff in Hnext.
      pose proof (IH [] Hr (fun _ => Hnext)) as J. cbn [rev app] in J.
      destruct (split_go [] (d :: r)) as [|x xs] eqn:E; [discriminate J|].
      change (join (lit " ") (rev (a :: acc) :: x :: xs))
        with (rev (a :: acc) ++ " "%char :: join (lit " ") (x :: xs)).
      now rewrite J.
    + rewrite (IH (c :: acc) Hr) by discriminate.
      cbn [rev]. now rewrite <- app_assoc.
Qed.

Lemma join_split (t : str) : single_spaced t = true -> join (lit " ") (split t) = t.
Proof.
  intros H. unfold split. destruct t as [|c r]; [reflexivity|].
  unfold single_spaced in H. apply andb_true_iff in H. destruct H as [Hc Hb].
  apply negb_true_iff in Hc. exact (@join_split_go (c :: r) [] Hb (fun _ => Hc)).
Qed.

(** X17. [speak] prints and says the words of the text with one space
    between them: runs of white space (line breaks of a summary, say)
    become single spaces and the margins are dropped, the words are kept
    in their order, and a text that is single-spaced already is said as
    it is. What is said is what is printed after ["[Assistant] "], and
    nothing is said when [say_aloud] is false. *)
Theorem speak_single_spaces (text : str) (say_aloud : bool) :
  exists said,
    speak text say_aloud
    = Printed (lit "[Assistant] " ++ said) :: (if say_aloud then [Said said] else [])
    /\ split said = split text
    /\ single_spaced said = true
    /\ speak said say_aloud = speak text say_aloud
    /\ (single_spaced text = true -> said = text).
Proof.
  exists (join (lit " ") (split text)).
  pose proof (split_words text) as W.
  split; [reflexivity|]. split; [now apply split_join|].
  split; [now apply join_spaced|]. split.
  - unfold speak. now rewrite (split_join _ W).
  - apply join_split.
Qed.

Lemma speak_single_spaces_witness :
  single_spaced (lit "Hello there") = true
  /\ speak (lit "Hello there") true
     = [Printed (lit "[Assistant] Hello there"); Said (lit "Hello there")].
Proof.
  assert (H : single_spaced (lit "Hello there") = true) by reflexivity.
  split; [exact H|].
  destruct (speak_single_spaces (lit "Hello there") true) as [said [E [_ [_ [_ F]]]]].
  rewrite E, (F H). reflexivity.
Defined.

(** ** The instant answer *)

Lemma field_true (key : str) (members : list (str * Network.json)) (v : Network.json) :
  Network.field key members = Some v ->
  Network.get key members = Some v /\ Network.truth v = true.
Proof.
  unfold Network.field. destruct (Network.get key members) as [x|]; [|discriminate].
  destruct (Network.truth x) eqn:E; [|discriminate]. intros [= <-]. now split.
Qed.

Lemma field_of_get (key : str) (members : list (str * Network.json)) (v : Network.json) :
  Network.get key members = Some v -> Network.truth v = true ->
  Network.field key members = Some v.
Proof. unfold Network.field. now intros -> ->. Qed.

Lemma first_text_true (related : list Network.json) (v : Network.json) :
  Network.first_text related = Some v -> Network.truth v = true.
Proof.
  induction related as [|item rest IH]; [discriminate|].
  destruct item; cbn [Network.first_text]; try exact IH.
  destruct (Network.field (lit "Text") members) as [x|] eqn:E; [|exact IH].
  intros [= <-]. now apply (field_true _ _ E).
Qed.

Lemma first_text_first (before after : list Network.json)
    (item : list (str * Network.json)) (v : Network.json) :
  forallb (fun i => negb (Network.has_text i)) before = true ->
  Network.field (lit "Text") item = Some v ->
  Network.first_text (before ++ Network.JObject item :: after) = Some v.
Proof.
  intros Hb Hv. induction before as [|i before IH].
  - cbn [app Network.first_text]. now rewrite Hv.
  - cbn [forallb] in Hb. apply andb_true_iff in Hb. destruct Hb as [Hi Hb].
    apply negb_true_iff in Hi. specialize (IH Hb).
    destruct i; cbn [app Network.first_text]; try exact IH.
    unfold Network.has_text in Hi.
    destruct (Network.field (lit "Text") members); [discriminate | exact IH].
Qed.

(** X18. The instant answer of DuckDuckGo is never an empty one: whatever
    the service sends, the answer is [None] or a value that Python takes
    for true, and there is an answer only when the service sent an
    object. The ["Definition"] is the answer when it is true; otherwise
    the ["AbstractText"] when it is true; otherwise the ["Text"] of the
    first related topic that is an object with a true ["Text"]. *)
Theorem instant_answer_is_never_empty
    (request : str -> option Network.json) (term : str) :
  (forall v,
      Network.duckduckgo_instant_answer request term = Some v ->
      Network.truth v = true
      /\ exists data, request term = Some (Network.JObject data))
  /\ (forall data v,
        request term = Some (Network.JObject data) ->
        Network.get (lit "Definition") data = Some v ->
        Network.truth v = true ->
        Network.duckduckgo_instant_answer request term = Some v)
  /\ (forall data v,
        request term = Some (Network.JObject data) ->
        Network.field (lit "Definition") data = None ->
        Network.get (lit "AbstractText") data = Some v ->
        Network.truth v = true ->
        Network.duckduckgo_instant_answer request term = Some v)
  /\ (forall data before item after v,
        request term = Some (Network.JObject data) ->
        Network.field (lit "Definition") data = None ->
        Network.field (lit "AbstractText") data = None ->
        Network.get (lit "RelatedTopics") data
          = Some (Network.JArray (before ++ Network.JObject item :: after)) ->
        forallb (fun i => negb (Network.has_text i)) before = true ->
        Network.get (lit "Text") item = Some v ->
        Network.truth v = true ->
        Network.duckduckgo_instant_answer request term = Some v).
Proof.
  unfold Network.duckduckgo_instant_answer. split; [|split; [|split]].
  - intros v H. destruct (request term) as [[| | | | | |data]|]; try discriminate H.
    split; [|now exists data].
    destruct (Network.field (lit "Definition") data) as [d|] eqn:Ed.
    + injection H as <-. now apply (field_true _ _ Ed).
    + destruct (Network.field (lit "AbstractText") data) as [a|] eqn:Ea.
      * injection H as <-. now apply (field_true _ _ Ea).
      * destruct (Network.get (lit "RelatedTopics") data) as [[| | | | |items|]|];
          try discriminate H; now apply (@first_text_true _ _ H).
  - intros data v -> Hg Ht. now rewrite (field_of_get _ _ Hg Ht).
  - intros data v -> Hd Hg Ht. now rewrite Hd, (field_of_get _ _ Hg Ht).
  - intros data before item after v -> Hd Ha Hr Hb Hg Ht.
    rewrite Hd, Ha, Hr. cbn [Network.related_text].
    apply first_text_first; [exact Hb | now apply field_of_get].
Qed.

Lemma instant_answer_is_never_empty_witness :
  Network.duckduckgo_instant_answer
    (fun _ => Some (Network.JObject
                      [ (lit "Definition", Network.JString []);
                        (lit "AbstractText", Network.JString (lit "a magic word")) ]))
    (lit "xyzzy")
  = Some (Network.JString (lit "a magic word"))
  /\ Network.truth (Network.JString (lit "a magic word")) = true.
Proof.
  pose proof (instant_answer_is_never_empty
                (fun _ => Some (Network.JObject
                      [ (lit "Definition", Network.JString []);
                        (lit "AbstractText", Network.JString (lit "a magic word")) ]))
                (lit "xyzzy")) as [A [_ [B _]]].
  assert (E : Network.duckduckgo_instant_answer
                (fun _ => Some (Network.JObject
                      [ (lit "Definition", Network.JString []);
                        (lit "AbstractText", Network.JString (lit "a magic word")) ]))
                (lit "xyzzy")
              = Some (Network.JString (lit "a magic word")))
    by (apply (B _ _ eq_refl); reflexivity).
  split; [exact E | exact (proj1 (A _ E))].
Defined.

(** ** The heuristic and the lookup *)

Lemma existsb_contains_part (words : list str) (x s : str) :
  part_of x s ->
  existsb (fun w => contains w x) words = true ->
  existsb (fun w => contains w s) words = true.
Proof.
  intros P H. apply existsb_exists in H. destruct H as [w [Hw Hc]].
  apply existsb_exists. exists w. split; [assumption|].
  exact (@contains_part w x s P Hc).
Qed.

(** X19. The heuristic of line 238 looks at the lower-cased text only, and
    a text looks like arithmetic as soon as a part of it does: a digit or
    an operator word anywhere, inside a longer word as well, is
    enough. *)
Theorem heuristic_looks_at_parts (text before after : str) :
  is_probably_arithmetic (lower text) = is_probably_arithmetic text
  /\ (is_probably_arithmetic text = true ->
      is_probably_arithmetic (before ++ text ++ after) = true).
Proof.
  unfold is_probably_arithmetic. split; [now rewrite lower_idem|].
  intros H.
  assert (P : part_of (lower text) (lower (before ++ text ++ after)))
    by (apply lower_part; now exists before, after).
  destruct (existsb isdigit (lower text)) eqn:Ed.
  - assert (D : existsb isdigit (lower (before ++ text ++ after)) = true).
    { destruct P as [a [b ->]]. rewrite !existsb_app, Ed. now rewrite orb_true_r. }
    now rewrite D.
  - destruct (existsb (fun op => contains op (lower text)) operators) eqn:Eo;
      [|discriminate].
    rewrite (existsb_contains_part _ P Eo).
    now destruct (existsb isdigit (lower (before ++ text ++ after))).
Qed.

Lemma heuristic_looks_at_parts_witness :
  is_probably_arithmetic (lit "over") = true
  /\ is_probably_arithmetic (lit "Disc" ++ lit "over" ++ lit "y") = true
  /\ is_probably_arithmetic (lit "well-being") = true.
Proof.
  assert (H : is_probably_arithmetic (lit "over") = true) by reflexivity.
  assert (G : is_probably_arithmetic (lit "-") = true) by reflexivity.
  split; [exact H|].
  split; [exact (proj2 (heuristic_looks_at_parts (lit "over") (lit "Disc") (lit "y")) H)|].
  exact (proj2 (heuristic_looks_at_parts (lit "-") (lit "well") (lit "being")) G).
Defined.

(** X20. [lookup_definition] works on the stripped term. A term of white
    space is answered with [None] without a word and without the
    network; any other term is announced on the console, and DuckDuckGo
    is a fallback only: the answer is that of Wikipedia when it is not
    empty, whatever DuckDuckGo would say, and that of DuckDuckGo
    otherwise. *)
Theorem lookup_falls_back_in_order
    (wikipedia_summary duckduckgo_instant_answer : str -> option str) (term : str) :
  lookup_definition wikipedia_summary duckduckgo_instant_answer (strip term)
  = lookup_definition wikipedia_summary duckduckgo_instant_answer term
  /\ (strip term = [] ->
      forall wikipedia duckduckgo,
        lookup_definition wikipedia duckduckgo term = ([], None))
  /\ (strip term <> [] ->
      fst (lookup_definition wikipedia_summary duckduckgo_instant_answer term)
      = [SpeakQuietly (LetMeLookThatUp (strip term))]
      /\ (truthy (wikipedia_summary (strip term)) = true ->
          forall duckduckgo,
            snd (lookup_definition wikipedia_summary duckduckgo term)
            = wikipedia_summary (strip term))
      /\ (truthy (wikipedia_summary (strip term)) = false ->
          snd (lookup_definition wikipedia_summary duckduckgo_instant_answer term)
          = duckduckgo_instant_answer (strip term))).
Proof.
  unfold lookup_definition. rewrite strip_idem. split; [reflexivity|]. split.
  - intros -> wikipedia duckduckgo. reflexivity.
  - intros Hne. destruct (strip term) as [|c r]; [congruence|].
    cbn [fst snd]. split; [reflexivity|]. split.
    + intros -> duckduckgo. reflexivity.
    + intros ->. reflexivity.
Qed.

Lemma lookup_falls_back_in_order_witness :
  strip (lit " xyzzy ") <> []
  /\ lookup_definition knows_xyzzy offline (lit " xyzzy ")
     = ([SpeakQuietly (LetMeLookThatUp (lit "xyzzy"))], Some (lit "a magic word"))
  /\ lookup_definition offline knows_xyzzy (lit " xyzzy ")
     = ([SpeakQuietly (LetMeLookThatUp (lit "xyzzy"))], Some (lit "a magic word"))
  /\ lookup_definition knows_xyzzy knows_xyzzy (lit "  ") = ([], None).
Proof.
  assert (H : strip (lit " xyzzy ") <> []) by discriminate.
  split; [exact H|].
  destruct (proj2 (proj2 (lookup_falls_back_in_order knows_xyzzy offline (lit " xyzzy ")))
              H) as [E1 [W1 _]].
  destruct (proj2 (proj2 (lookup_falls_back_in_order offline knows_xyzzy (lit " xyzzy ")))
              H) as [E2 [_ D2]].
  split; [|split].
  - rewrite (surjective_pairing (lookup_definition knows_xyzzy offline (lit " xyzzy "))).
    rewrite E1, (W1 eq_refl offline). reflexivity.
  - rewrite (surjective_pairing (lookup_definition offline knows_xyzzy (lit " xyzzy "))).
    rewrite E2, (D2 eq_refl). reflexivity.
  - exact (proj1 (proj2 (lookup_falls_back_in_order knows_xyzzy knows_xyzzy (lit "  ")))
             eq_refl knows_xyzzy knows_xyzzy).
Defined.

(** ** An exit word after the wake word *)

Lemma contains_is_part (p s : str) : contains p s = true -> part_of p s.
Proof.
  induction s as [|c s IH]; cbn [contains]; intros H.
  - rewrite orb_false_r in H. destruct p; [|discriminate]. now exists [], [].
  - apply orb_true_iff in H. destruct H as [H | H].
    + apply startswith_split in H. exists [], (drop (List.length p) (c :: s)).
      exact H.
    + destruct (IH H) as [a [b E]]. exists (c :: a), b. cbn [app]. now rewrite <- E.
Qed.

Lemma lstrip_keeps_word (w s : str) :
  w <> [] -> lstrip w = w -> part_of w s -> part_of w (lstrip s).
Proof.
  intros Hne Hw [a [b ->]]. induction a as [|x a IH].
  - cbn [app]. destruct w as [|c w]; [congruence|].
    assert (Hc : isspace c = false).
    { destruct (isspace c) eqn:E; [|reflexivity]. exfalso.
      simpl in Hw. rewrite E in Hw.
      destruct (lstrip_part w) as [u [v Ew]]. rewrite Hw in Ew.
      apply (f_equal (@List.length ascii)) in Ew.
      rewrite !length_app in Ew. simpl in Ew. lia. }
    cbn [app]. rewrite lstrip_nonspace by assumption. now exists [], b.
  - cbn [app lstrip]. destruct (isspace x); [exact IH|].
    now exists (x :: a), b.
Qed.

Lemma rstrip_keeps_word (w s : str) :
  w <> [] -> rstrip w = w -> part_of w s -> part_of w (rstrip s).
Proof.
  intros Hne Hw [a [b ->]]. rewrite !rstrip_app, Hw.
  destruct (rstrip b) as [|y r].
  - destruct w as [|c w]; [congruence|]. exists a, []. now rewrite app_nil_r.
  - destruct w as [|c w]; [congruence|]. cbn [app]. now exists a, (y :: r).
Qed.

Lemma exit_words_trimmed (w : str) :
  In w exit_words -> w <> [] /\ lstrip w = w /\ rstrip w = w.
Proof.
  intros H. repeat (destruct H as [<- | H]; [repeat split; discriminate || reflexivity|]).
  destruct H.
Qed.

Lemma startswith_refl (w : str) : startswith w w = true.
Proof. induction w as [|c w IH]; [reflexivity|]. simpl. rewrite IH. now rewrite (proj2 (chr_eqb_true c c) eq_refl). Qed.

(** Stripping a text does not take an exit word from it. *)
Lemma has_exit_word_strip (s : str) :
  has_exit_word s = true -> has_exit_word (strip s) = true.
Proof.
  unfold has_exit_word. intros H. apply existsb_exists in H.
  destruct H as [w [Hw Hc]]. apply existsb_exists. exists w. split; [assumption|].
  destruct (@exit_words_trimmed w Hw) as [Hne [Hl Hr]].
  apply (@contains_part w w (strip s)).
  - exact (@rstrip_keeps_word w (lstrip s) Hne Hr
             (@lstrip_keeps_word w s Hne Hl (@contains_is_part w s Hc))).
  - apply contains_here, startswith_refl.
Qed.

Lemma app_same_length (A : Type) (a a' b b' : list A) :
  List.length a = List.length a' -> a ++ b = a' ++ b' -> b = b'.
Proof.
  revert a'. induction a as [|x a IH]; intros [|y a'] L E; try discriminate L.
  - exact E.
  - simpl in L, E. injection E as _ E. injection L as L. exact (IH a' L E).
Qed.

(** What follows the wake word in a lowered text is lowered. *)
Lemma lower_after (text before sep after : str) :
  lower text = before ++ sep ++ after -> lower after = after.
Proof.
  intros H. pose proof (lower_idem text) as I. rewrite H in I.
  unfold lower in I. rewrite !map_app in I.
  apply app_same_length in I; [|now rewrite length_map].
  apply app_same_length in I; [|now rewrite length_map].
  exact I.
Qed.

Section ExitStops.

Variable wikipedia_summary : str -> option str.
Variable duckduckgo_instant_answer : str -> option str.

Local Abbreviation step := (main_step wikipedia_summary duckduckgo_instant_answer).
Local Abbreviation loop := (run wikipedia_summary duckduckgo_instant_answer).
Local Abbreviation handed := (dispatch wikipedia_summary duckduckgo_instant_answer).

Lemma loop_stopped (turns : list heard) : loop Stopped turns = Returns ([], Stopped).
Proof.
  induction turns as [|h turns IH]; [reflexivity|].
  cbn [run main_step bind]. rewrite IH. reflexivity.
Qed.

(** A command with an exit word ends the loop. *)
Lemma dispatch_exit (heard_events : list event) (command : str) :
  command <> [] ->
  has_exit_word (lower (strip command)) = true ->
  handed heard_events command = Returns (heard_events ++ [Speak Goodbye], Stopped).
Proof.
  intros Hne H. unfold dispatch. rewrite handle_by_text by assumption.
  cbv zeta. rewrite H. reflexivity.
Qed.

Lemma has_exit_word_nonempty (s : str) : has_exit_word s = true -> s <> [].
Proof. intros H ->. discriminate H. Qed.

Lemma step_then_stopped (s : session) (h : heard) (evs : list event)
    (turns : list heard) :
  step s h = Returns (evs, Stopped) ->
  loop s (h :: turns) = Returns (evs, Stopped).
Proof.
  intros H. cbn [run]. rewrite H. cbn [bind]. rewrite loop_stopped. cbn [bind].
  now rewrite app_nil_r.
Qed.

End ExitStops.

(** X15. An exit word ends the loop at once. An utterance that holds an
    exit word after its first wake word is answered with goodbye and
    [main] returns: no later turn at the microphone is listened to. The
    same holds for a follow-up that holds an exit word, which needs no
    wake word. *)
Theorem exit_stops_the_loop
    (wikipedia_summary duckduckgo_instant_answer : str -> option str)
    (turns : list heard) (text before after : str) :
  lower text = before ++ WAKE_WORD ++ after ->
  contains WAKE_WORD (before ++ removelast WAKE_WORD) = false ->
  has_exit_word after = true ->
  run wikipedia_summary duckduckgo_instant_answer Idle (Recognised text :: turns)
  = Returns ([Print ListeningReady; Print (You text); Speak Goodbye], Stopped)
  /\ (forall n follow,
        has_exit_word (lower follow) = true ->
        run wikipedia_summary duckduckgo_instant_answer (AwaitingFollowup (S n))
          (Recognised follow :: turns)
        = Returns ([Print ListeningReady; Print (You follow); Speak Goodbye], Stopped)).
Proof.
  intros Ht Hfirst Hexit.
  pose proof (@lower_after text before WAKE_WORD after Ht) as La. split.
  - apply step_then_stopped. unfold main_step, idle_step. cbn [listen_from_mic].
    rewrite Ht.
    assert (Hc : contains WAKE_WORD (before ++ WAKE_WORD ++ after) = true)
      by (apply contains_later, contains_here, startswith_app).
    destruct (before ++ WAKE_WORD ++ after) as [|c sp] eqn:E;
      [destruct before; discriminate E|].
    rewrite Hc, <- E, split1_first by (assumption || discriminate).
    cbn [nth].
    pose proof (@has_exit_word_strip after Hexit) as Hs.
    pose proof (@has_exit_word_nonempty _ Hs) as Hne.
    destruct (strip after) as [|a r] eqn:Ea; [congruence|]. rewrite <- Ea in *.
    apply dispatch_exit; [exact Hne|].
    rewrite strip_idem, <- strip_lower, La. exact Hs.
  - intros n follow Hf. apply step_then_stopped. cbn [main_step listen_from_mic].
    pose proof (@has_exit_word_nonempty _ Hf) as Hne.
    destruct (lower follow) as [|c f] eqn:E; [congruence|]. rewrite <- E in *.
    apply dispatch_exit; [exact Hne|].
    rewrite strip_lower, lower_idem, <- strip_lower. now apply has_exit_word_strip.
Qed.

Lemma exit_stops_the_loop_witness :
  lower (lit "OK Assistant, that is all, goodbye")
  = lit "ok " ++ WAKE_WORD ++ lit ", that is all, goodbye"
  /\ contains WAKE_WORD (lit "ok " ++ removelast WAKE_WORD) = false
  /\ has_exit_word (lit ", that is all, goodbye") = true
  /\ run offline offline Idle
       [Recognised (lit "OK Assistant, that is all, goodbye");
        Recognised (lit "assistant what is 2 plus 2")]
     = Returns ([Print ListeningReady;
                 Print (You (lit "OK Assistant, that is all, goodbye"));
                 Speak Goodbye], Stopped).
Proof.
  assert (H1 : lower (lit "OK Assistant, that is all, goodbye")
               = lit "ok " ++ WAKE_WORD ++ lit ", that is all, goodbye") by reflexivity.
  assert (H2 : contains WAKE_WORD (lit "ok " ++ removelast WAKE_WORD) = false)
    by reflexivity.
  assert (H3 : has_exit_word (lit ", that is all, goodbye") = true) by reflexivity.
  split; [exact H1|]. split; [exact H2|]. split; [exact H3|].
  exact (proj1 (@exit_stops_the_loop offline offline
                  [Recognised (lit "assistant what is 2 plus 2")] _ _ _ H1 H2 H3)).
Defined.

(** ** The text of a number *)

Lemma two_power_nonneg (z e : Z) :
  (0 <= e)%Z -> (inject_Z z * 2 ^ e == inject_Z (z * 2 ^ e))%Q.
Proof.
  intros He. rewrite inject_Z_mult, (Zpower_Qpower 2 e He). reflexivity.
Qed.

Lemma two_power_neg (z : Z) (p : positive) :
  (inject_Z z * 2 ^ Z.neg p == inject_Z z / inject_Z (2 ^ Z.pos p))%Q.
Proof.
  unfold Qdiv. apply Qmult_comp; [reflexivity|].
  rewrite (Zpower_Qpower 2 (Z.pos p)) by discriminate. reflexivity.
Qed.

Lemma two_power_pos (p : positive) : (0 < 2 ^ Z.pos p)%Z.
Proof. apply Z.pow_pos_nonneg; lia. Qed.

Lemma power_not_zero (p : positive) : ~ (inject_Z (2 ^ Z.pos p) == 0)%Q.
Proof.
  intros H. apply (inject_Z_injective (2 ^ Z.pos p) 0) in H.
  pose proof (two_power_pos p). lia.
Qed.

Lemma quotient_is_integer (z k : Z) (p : positive) :
  (inject_Z z / inject_Z (2 ^ Z.pos p) == inject_Z k)%Q <-> z = (k * 2 ^ Z.pos p)%Z.
Proof.
  pose proof (power_not_zero p) as N. split.
  - intros H. apply inject_Z_injective. rewrite inject_Z_mult, <- H.
    unfold Qdiv. rewrite <- Qmult_assoc, (Qmult_comm (/ _)), Qmult_inv_r by exact N.
    now rewrite Qmult_1_r.
  - intros ->. rewrite inject_Z_mult. now apply Qdiv_mult_l.
Qed.

(** [float.is_integer] and [int] agree with the number that the float
    is. *)
Lemma float_integer_exact (f : spec_float) :
  match float_integer f with
  | Some z => exists q, float_exact f = Some q /\ (q == inject_Z z)%Q
  | None => forall q z, float_exact f = Some q -> ~ (q == inject_Z z)%Q
  end.
Proof.
  destruct f as [s| s| |s m e]; cbn [float_integer float_exact].
  - exists 0%Q. split; reflexivity.
  - discriminate.
  - discriminate.
  - set (z := if s then Z.neg m else Z.pos m).
    destruct (0 <=? e)%Z eqn:E.
    + apply Z.leb_le in E. eexists. split; [reflexivity|].
      now apply two_power_nonneg.
    + apply Z.leb_gt in E. destruct e as [|p|p]; try lia. cbn [Z.opp].
      assert (M : (z mod 2 ^ Z.pos p = 0 <-> Z.pos m mod 2 ^ Z.pos p = 0)%Z).
      { unfold z. destruct s; [|reflexivity].
        change (Z.neg m) with (- Z.pos m)%Z. split; intros H.
        - apply Z.mod_opp_l_z in H; [|pose proof (two_power_pos p); lia].
          now rewrite Z.opp_involutive in H.
        - apply Z.mod_opp_l_z; [pose proof (two_power_pos p); lia|exact H]. }
      destruct (Z.pos m mod 2 ^ Z.pos p =? 0)%Z eqn:D.
      * apply Z.eqb_eq in D. apply M in D. eexists. split; [reflexivity|].
        rewrite two_power_neg. apply quotient_is_integer.
        pose proof (two_power_pos p).
        rewrite Z.mul_comm. apply Z.div_exact; lia.
      * apply Z.eqb_neq in D. intros q k [= <-] H.
        assert (H' : (inject_Z z / inject_Z (2 ^ Z.pos p) == inject_Z k)%Q)
          by (rewrite <- H; symmetry; apply two_power_neg).
        apply quotient_is_integer in H'.
        apply D, M. rewrite H'. apply Z.mod_mul.
        pose proof (two_power_pos p). lia.
Qed.

(** X21. [prettify_number] changes the notation of a number, never the
    number: an [int] is written with its digits; a float that is exactly
    an integer is written with the digits of that integer, as the [int]
    would be (the [.0] is dropped); every other float, one with a
    fraction as well as [inf] and [nan], is left to [str]. *)
Theorem prettify_keeps_the_value :
  (forall z, prettify_number (VInt z) = Digits (str_of_int z))
  /\ (forall f z q,
        float_exact f = Some q -> (q == inject_Z z)%Q ->
        prettify_number (VFloat f) = prettify_number (VInt z))
  /\ (forall f,
        (forall q z, float_exact f = Some q -> ~ (q == inject_Z z)%Q) ->
        prettify_number (VFloat f) = FloatStr f)
  /\ (forall f text,
        prettify_number (VFloat f) = Digits text ->
        exists z q,
          text = str_of_int z /\ float_exact f = Some q /\ (q == inject_Z z)%Q).
Proof.
  split; [reflexivity|]. split; [|split].
  - intros f z q Hq Hz. pose proof (float_integer_exact f) as S.
    cbn [prettify_number]. destruct (float_integer f) as [k|].
    + destruct S as [q' [Hq' Hk]]. rewrite Hq in Hq'. injection Hq' as <-.
      rewrite Hz in Hk. apply (inject_Z_injective z k) in Hk. now subst k.
    + exfalso. exact (S q z Hq Hz).
  - intros f H. pose proof (float_integer_exact f) as S.
    cbn [prettify_number]. destruct (float_integer f) as [k|]; [|reflexivity].
    destruct S as [q [Hq Hk]]. exfalso. exact (H q k Hq Hk).
  - intros f text H. pose proof (float_integer_exact f) as S.
    cbn [prettify_number] in H. destruct (float_integer f) as [k|]; [|discriminate].
    injection H as <-. destruct S as [q [Hq Hk]]. now exists k, q.
Qed.

Lemma prettify_keeps_the_value_witness :
  (exists q, float_exact (S754_finite false 4503599627370496 (-51)) = Some q
             /\ (q == inject_Z 2)%Q)
  /\ prettify_number (VFloat (S754_finite false 4503599627370496 (-51)))
     = Digits (lit "2")
  /\ prettify_number (VFloat (S754_finite true 5629499534213120 (-51)))
     = FloatStr (S754_finite true 5629499534213120 (-51))
  /\ prettify_number (VFloat (S754_infinity false)) = FloatStr (S754_infinity false).
Proof.
  assert (H : float_exact (S754_finite false 4503599627370496 (-51))
              = Some (inject_Z 4503599627370496 * 2 ^ (-51))%Q) by reflexivity.
  assert (E : (inject_Z 4503599627370496 * 2 ^ (-51) == inject_Z 2)%Q)
    by (vm_compute; reflexivity).
  split; [eexists; split; [exact H | exact E]|].
  split; [exact (proj1 (proj2 prettify_keeps_the_value) _ 2%Z _ H E)|].
  split; [vm_compute; reflexivity|].
  apply (proj1 (proj2 (proj2 prettify_keeps_the_value))). discriminate.
Defined.

(** ** Spoken operators between two numbers *)







Section Between.

Variables x y : str.
Hypothesis Hx : int_literal x = true.
Hypothesis Hy : int_literal y = true.

(** The padded text of a phrase between two numbers. *)
Local Abbreviation padded phrase := (blank :: x ++ phrase ++ y ++ [blank]).








End Between.










(** ** Without the wake word *)

Section Quiet.

Variable wikipedia_summary : str -> option str.
Variable duckduckgo_instant_answer : str -> option str.

Local Abbreviation step := (main_step wikipedia_summary duckduckgo_instant_answer).
Local Abbreviation loop := (run wikipedia_summary duckduckgo_instant_answer).

Lemma quiet_step (h : heard) :
  no_wake_word h = true ->
  exists evs, step Idle h = Returns (evs, Idle)
              /\ forallb console_or_service evs = true.
Proof.
  intros H. unfold main_step, idle_step.
  destruct h as [|text| |]; cbn [listen_from_mic]; try (eexists; split; reflexivity).
  cbn [no_wake_word] in H. apply negb_true_iff in H.
  destruct (lower text) as [|c sp]; [eexists; split; reflexivity|].
  rewrite H. eexists. split; reflexivity.
Qed.

Lemma quiet_loop (turns : list heard) :
  forallb no_wake_word turns = true ->
  exists evs, loop Idle turns = Returns (evs, Idle)
              /\ forallb console_or_service evs = true.
Proof.
  induction turns as [|h turns IH]; intros H; [now exists []|].
  cbn [forallb] in H. apply andb_true_iff in H. destruct H as [Hh Ht].
  destruct (quiet_step h Hh) as [evs1 [E1 C1]].
  destruct (IH Ht) as [evs2 [E2 C2]].
  exists (evs1 ++ evs2). cbn [run]. rewrite E1. cbn [bind]. rewrite E2. cbn [bind].
  split; [reflexivity|]. now rewrite forallb_app, C1, C2.
Qed.

End Quiet.

(** X23. Without the wake word the assistant does nothing, however many
    turns there are: after the greeting the loop only writes on the
    console (and says that the speech service cannot be reached, when
    that is the case); no command is handled, nothing is looked up, no
    page is opened, and the loop is at its head again. *)
Theorem nothing_happens_without_wake_word
    (wikipedia_summary duckduckgo_instant_answer : str -> option str)
    (turns : list heard) :
  forallb no_wake_word turns = true ->
  exists evs,
    main wikipedia_summary duckduckgo_instant_answer turns
    = Returns (Speak Greeting :: evs, Idle)
    /\ forallb console_or_service evs = true.
Proof.
  intros H.
  destruct (@quiet_loop wikipedia_summary duckduckgo_instant_answer turns H)
    as [evs [E C]].
  exists evs. unfold main. rewrite E. split; [reflexivity | exact C].
Qed.

Lemma nothing_happens_without_wake_word_witness :
  forallb no_wake_word
    [Recognised (lit "what is 2 plus 2"); WaitTimeout; RequestError;
     Recognised (lit "stop"); UnknownValue] = true
  /\ exists evs,
       main offline offline
         [Recognised (lit "what is 2 plus 2"); WaitTimeout; RequestError;
          Recognised (lit "stop"); UnknownValue]
       = Returns (Speak Greeting :: evs, Idle)
       /\ forallb console_or_service evs = true.
Proof.
  assert (H : forallb no_wake_word
                [Recognised (lit "what is 2 plus 2"); WaitTimeout; RequestError;
                 Recognised (lit "stop"); UnknownValue] = true) by reflexivity.
  split; [exact H|].
  exact (@nothing_happens_without_wake_word offline offline _ H).
Defined.

(** ** Commands written with the characters of the gate *)

Lemma allowed_lower_chr (c : ascii) :
  mem c allowed_chars = true -> lower_chr c = c.
Proof.
  destruct c as [[] [] [] [] [] [] [] []]; intros H;
    first [reflexivity | discriminate H].
Qed.

Lemma allowed_lower (s : str) :
  forallb (fun ch => mem ch allowed_chars) s = true -> lower s = s.
Proof.
  induction s as [|c s IH]; intros H; [reflexivity|].
  simpl in H. apply andb_true_iff in H. destruct H as [Hc Hs].
  unfold lower in *. cbn [map]. now rewrite (allowed_lower_chr c Hc), IH.
Qed.


Lemma str_eqb_startswith (w s : str) : str_eqb w s = true -> startswith w s = true.
Proof.
  revert s. induction w as [|a w IH]; intros [|b s] H; simpl in *;
    try reflexivity; try discriminate.
  apply andb_true_iff in H. destruct H as [Hab Hw]. now rewrite Hab, IH.
Qed.

(** A word with a character that the gate refuses is nowhere in a text
    that the gate lets through. *)
Lemma foreign_word_absent (w s : str) :
  forallb (fun ch => mem ch allowed_chars) s = true ->
  existsb (fun ch => negb (mem ch allowed_chars)) w = true ->
  contains w s = false /\ startswith w s = false /\ str_eqb w s = false.
Proof.
  intros Hs Hw. pose proof (contains_foreign_char w s Hs Hw) as C.
  split; [exact C|]. split.
  - destruct (startswith w s) eqn:E; [|reflexivity].
    now rewrite (contains_here w s E) in C.
  - destruct (str_eqb w s) eqn:E; [|reflexivity].
    now rewrite (contains_here w s (str_eqb_startswith w s E)) in C.
Qed.

Lemma symbolic_no_exit_or_site (s : str) :
  forallb (fun ch => mem ch allowed_chars) s = true ->
  no_exit_or_site s = true.
Proof.
  intros Hs. unfold no_exit_or_site, exit_words. cbn [map existsb].
  repeat match goal with
  | |- context [contains (lit ?w) s] =>
      rewrite (proj1 (foreign_word_absent (lit w) s Hs eq_refl))
  | |- context [str_eqb (lit ?w) s] =>
      rewrite (proj2 (proj2 (foreign_word_absent (lit w) s Hs eq_refl)))
  end.
  reflexivity.
Qed.

Lemma symbolic_no_trigger (s : str) :
  forallb (fun ch => mem ch allowed_chars) s = true ->
  strip_trigger leading_triggers s = s.
Proof.
  intros Hs. unfold leading_triggers. cbn [map strip_trigger].
  repeat match goal with
  | |- context [startswith (lit ?w) s] =>
      rewrite (proj1 (proj2 (foreign_word_absent (lit w) s Hs eq_refl)))
  end.
  reflexivity.
Qed.


Lemma symbolic_expression (s : str) :
  forallb (fun ch => mem ch allowed_chars) s = true ->
  strip s = s ->
  expression_of s = s.
Proof.
  intros Hs Ht. unfold expression_of.
  now rewrite (symbolic_no_trigger s Hs), (normalize_symbolic s Hs).
Qed.




Lemma contains_one (c : ascii) (s : str) : In c s -> contains [c] s = true.
Proof.
  induction s as [|x s IH]; intros H; [destruct H|].
  cbn [contains startswith]. destruct H as [-> | H].
  - now rewrite chr_eqb_refl.
  - rewrite (IH H). apply orb_true_r.
Qed.


Lemma sign_is_digit_or_operator (c : ascii) :
  mem c (lit "0123456789+-*/%") = true ->
  isdigit c = true \/ In [c] operators.
Proof.
  destruct c as [[] [] [] [] [] [] [] []]; intros H;
    first [discriminate H | left; reflexivity | right; cbv; tauto].
Qed.

Lemma symbolic_looks_arithmetic (s : str) :
  forallb (fun ch => mem ch allowed_chars) s = true ->
  existsb (fun ch => mem ch (lit "0123456789+-*/%")) s = true ->
  looks_arithmetic s = true.
Proof.
  intros Hs H. unfold looks_arithmetic, is_probably_arithmetic.
  rewrite (allowed_lower s Hs).
  apply existsb_exists in H. destruct H as [c [Hin Hc]].
  destruct (sign_is_digit_or_operator c Hc) as [Hd | Hop].
  - assert (E : existsb isdigit s = true)
      by (apply existsb_exists; now exists c).
    now rewrite E.
  - assert (E : existsb (fun op => contains op s) operators = true).
    { apply existsb_exists. exists [c]. split; [exact Hop|]. now apply contains_one. }
    rewrite E. now destruct (existsb isdigit s).
Qed.

Section Symbols.

Variable wikipedia_summary : str -> option str.
Variable duckduckgo_instant_answer : str -> option str.

Local Abbreviation handle := (handle_user_command wikipedia_summary duckduckgo_instant_answer).
Local Abbreviation rules := (definition_rules wikipedia_summary duckduckgo_instant_answer).


(** The handler on a command whose text, stripped and in lower case, is
    of the gate's characters. *)
Lemma handle_symbolic (command_text s : str) :
  command_text <> [] ->
  lower (strip command_text) = s ->
  forallb (fun ch => mem ch allowed_chars) s = true ->
  existsb (fun ch => mem ch (lit "0123456789+-*/%")) s = true ->
  strip s = s ->
  handle command_text =
    match safe_eval s with
    | Returns v => Returns ([Speak (TheResultIs (prettify_number v))], None)
    | Raises e => Returns (Print (CouldntEvaluate s e) :: fst (rules s), None)
    | Unmodelled => Unmodelled
    end.
Proof.
  intros Hne Hl Hs Hd Ht.
  rewrite handle_arithmetic; rewrite ?Hl;
    [ | exact Hne | now apply symbolic_no_exit_or_site
      | now apply symbolic_looks_arithmetic ].
  rewrite (symbolic_expression Hs Ht).
  unfold arithmetic_attempt, guarded_attempt. rewrite Hs.
  destruct (safe_eval s); reflexivity.
Qed.

End Symbols.



(** ** The digits of an [int], read back *)

(** The characters of a decimal number of the standard library. *)
Local Abbreviation chars d :=
  (list_ascii_of_string (DecimalString.NilEmpty.string_of_uint d)).

Lemma chars_digits (d : Decimal.uint) : forallb is_ascii_digit (chars d) = true.
Proof. induction d; cbn; auto. Qed.

Lemma chars_value_from (d : Decimal.uint) (acc : positive) :
  fold_left (fun a c => (10 * a + digit_value c)%Z) (chars d) (Z.pos acc)
  = Z.pos (Pos.of_uint_acc d acc).
Proof.
  revert acc. induction d; intros acc;
    cbn [DecimalString.NilEmpty.string_of_uint list_ascii_of_string fold_left
         Pos.of_uint_acc];
    try reflexivity; rewrite <- IHd; f_equal;
    match goal with
    | |- context [digit_value ?c] =>
        let v := eval vm_compute in (digit_value c) in
        change (digit_value c) with v
    end; lia.
Qed.

Lemma chars_value (d : Decimal.uint) :
  digits_value (chars d) = Z.of_N (Pos.of_uint d).
Proof.
  unfold digits_value.
  induction d;
    cbn [DecimalString.NilEmpty.string_of_uint list_ascii_of_string fold_left
         Pos.of_uint];
    try reflexivity; try exact IHd;
    match goal with
    | |- context [digit_value ?c] =>
        let v := eval vm_compute in (10 * 0 + digit_value c)%Z in
        change (10 * 0 + digit_value c)%Z with v
    end; apply chars_value_from.
Qed.

Lemma to_uint_normal (p : positive) : Decimal.unorm (Pos.to_uint p) = Pos.to_uint p.
Proof.
  rewrite <- (DecimalPos.Unsigned.to_of (Pos.to_uint p)).
  now rewrite DecimalPos.Unsigned.of_to.
Qed.

Lemma chars_normal (d : Decimal.uint) :
  Decimal.unorm d = d -> valid_int_literal (chars d) = true.
Proof.
  intros H. destruct d; try reflexivity.
  - discriminate H.
  - rewrite DecimalFacts.unorm_D0 in H. unfold Decimal.unorm in H.
    destruct (Decimal.nzhead d) eqn:E; try discriminate H.
    + injection H as <-. reflexivity.
    + exfalso. apply (DecimalFacts.nzhead_nonzero d d). now rewrite E, H.
Qed.

(** The digits of a positive number are a literal that writes it. *)
Lemma positive_digits (p : positive) :
  int_literal (chars (Pos.to_uint p)) = true
  /\ digits_value (chars (Pos.to_uint p)) = Z.pos p.
Proof.
  split.
  - unfold int_literal.
    now rewrite chars_digits, (chars_normal (to_uint_normal p)).
  - now rewrite chars_value, DecimalPos.Unsigned.of_to.
Qed.

Lemma str_of_positive (p : positive) :
  str_of_int (Z.pos p) = chars (Pos.to_uint p).
Proof.
  unfold str_of_int.
  cbn [Z.to_int DecimalString.NilZero.string_of_int
       DecimalString.NilZero.string_of_uint].
  pose proof (DecimalPos.Unsigned.to_uint_nonnil p) as N.
  unfold DecimalString.NilZero.string_of_uint. now destruct (Pos.to_uint p).
Qed.

Lemma str_of_negative (p : positive) :
  str_of_int (Z.neg p) = lit "-" ++ chars (Pos.to_uint p).
Proof.
  unfold str_of_int.
  cbn [Z.to_int DecimalString.NilZero.string_of_int list_ascii_of_string].
  pose proof (DecimalPos.Unsigned.to_uint_nonnil p) as N.
  unfold DecimalString.NilZero.string_of_uint. now destruct (Pos.to_uint p).
Qed.

Lemma safe_eval_literal (ds : str) :
  int_literal ds = true -> safe_eval ds = Returns (VInt (digits_value ds)).
Proof.
  intros H. destruct (@int_literal_inv _ H) as [Hd [_ _]].
  rewrite (@safe_eval_of_tokens ds [NUMBER (CInt (digits_value ds))] (literal ds));
    [ reflexivity | now apply digits_allowed | now apply digits_trimmed
    | now apply tokenize_last_literal | reflexivity ].
Qed.

Lemma safe_eval_negative (ds : str) :
  int_literal ds = true ->
  safe_eval (lit "-" ++ ds) = Returns (VInt (- digits_value ds)).
Proof.
  intros H. destruct (@int_literal_inv _ H) as [Hd [_ _]].
  rewrite (@safe_eval_of_tokens (lit "-" ++ ds)
             [sign_token USub; NUMBER (CInt (digits_value ds))]
             (UnaryOp USub (literal ds)));
    [ reflexivity
    | rewrite forallb_app, (digits_allowed _ Hd); reflexivity
    | unfold strip; change (lstrip (lit "-" ++ ds)) with (lit "-" ++ ds);
      now apply literal_last
    | unfold tokenize; change (lit "-") with (sign_text USub);
      rewrite tokenize_sign, (@tokenize_last_literal _ H); reflexivity
    | reflexivity ].
Qed.

(** The digits of an [int]: a text of the gate's characters with a digit,
    with no white space, that [safe_eval] reads as that [int]. *)
Lemma str_of_int_reads (z : Z) :
  forallb (fun ch => mem ch allowed_chars) (str_of_int z) = true
  /\ existsb (fun ch => mem ch (lit "0123456789+-*/%")) (str_of_int z) = true
  /\ strip (str_of_int z) = str_of_int z
  /\ safe_eval (str_of_int z) = Returns (VInt z).
Proof.
  destruct z as [|p|p].
  - repeat split; reflexivity.
  - rewrite str_of_positive. destruct (positive_digits p) as [L V].
    destruct (@int_literal_inv _ L) as [Hd [_ Hne]].
    split; [now apply digits_allowed|]. split; [|split].
    + destruct (chars (Pos.to_uint p)) as [|c ds]; [congruence|].
      simpl in Hd. apply andb_true_iff in Hd. destruct Hd as [Hc _].
      cbn [existsb]. apply orb_true_iff. left.
      destruct c as [[] [] [] [] [] [] [] []];
        first [reflexivity | discriminate Hc].
    + now apply digits_trimmed.
    + now rewrite (@safe_eval_literal _ L), V.
  - rewrite str_of_negative. destruct (positive_digits p) as [L V].
    destruct (@int_literal_inv _ L) as [Hd [_ Hne]].
    split; [rewrite forallb_app, (digits_allowed _ Hd); reflexivity|].
    split; [reflexivity|]. split.
    + unfold strip. change (lstrip (lit "-" ++ chars (Pos.to_uint p)))
        with (lit "-" ++ chars (Pos.to_uint p)).
      now apply literal_last.
    + now rewrite (@safe_eval_negative _ L), V.
Qed.

(** X25. The digits that the assistant speaks for an [int] are read back as
    that [int]: for every integer [z], negative ones included,
    [safe_eval (str(z))] returns [z], and the handler, given those digits
    as a command, answers "The result is" with the same digits. *)
Theorem spoken_integer_reads_back
    (wikipedia_summary duckduckgo_instant_answer : str -> option str) (z : Z) :
  prettify_number (VInt z) = Digits (str_of_int z)
  /\ safe_eval (str_of_int z) = Returns (VInt z)
  /\ handle_user_command wikipedia_summary duckduckgo_instant_answer (str_of_int z)
     = Returns ([Speak (TheResultIs (Digits (str_of_int z)))], None).
Proof.
  destruct (str_of_int_reads z) as [Ha [Hd [Ht He]]].
  split; [reflexivity|]. split; [exact He|].
  assert (Hne : str_of_int z <> []) by (intros E; rewrite E in Hd; discriminate Hd).
  assert (Hl : lower (strip (str_of_int z)) = str_of_int z)
    by (rewrite Ht; now apply allowed_lower).
  rewrite (@handle_symbolic wikipedia_summary duckduckgo_instant_answer
             (str_of_int z) (str_of_int z) Hne Hl Ha Hd Ht).
  now rewrite He.
Qed.

(** *** A number said alone *)






